(** * Priority planner: the task manager of [do.py]

    A shallow embedding of the [Task] dataclass and the [TaskManager]
    class, and the properties of the scheduling engine proved (or refuted)
    on it.

    Conventions of the embedding.
    - Python [str] is [string] (byte strings; [str.lower] and
      [str.split] are modelled on ASCII).
    - A [timedelta] is a number of microseconds in [Z].  A [datetime] is
      the instant its clock fields show, in microseconds since the epoch,
      with the offset from UTC of its [tzinfo] when it has one: a
      datetime is naive or aware, and the two do not subtract.  The
      float [datetime.timestamp()] is its microseconds, [float("inf")]
      is [PosInf].
    - A Python [float] is an IEEE 754 binary64 number, a [spec_float] of
      the Standard Library with precision 53 and round to nearest, ties
      to even.
    - A Python [dict] is an association list in insertion order.
    - An exception is an outcome [Raise e] returned together with the state
      reached when it was raised: nothing is rolled back.
    - The clock, the uuid generator, the date parser and the JSON library
      are collaborators, gathered in the class [Collaborators]. *)

From stdpp Require Import base numbers list strings sorting.
From Stdlib Require Import Ascii QArith Qcanon DecimalString.
From Stdlib Require DecimalZ DecimalPos OrderedTypeEx.
From Stdlib Require Floats.SpecFloat.

Local Open Scope Z_scope.

(** ** Python builtins used by the source *)

Module Py.

(** [str.lower], on ASCII letters. *)
Definition lower_char (c : ascii) : ascii :=
  let n := nat_of_ascii c in
  if bool_decide (65 ≤ n ≤ 90)%nat then ascii_of_nat (n + 32) else c.

Fixpoint lower (s : string) : string :=
  match s with
  | EmptyString => EmptyString
  | String c s' => String (lower_char c) (lower s')
  end.

(** [needle in hay], for strings. *)
Fixpoint contains (needle hay : string) : bool :=
  if String.prefix needle hay then true
  else match hay with
       | EmptyString => false
       | String _ hay' => contains needle hay'
       end.

(** [any(k in text for k in keys)] *)
Definition any_in (keys : list string) (text : string) : bool :=
  existsb (λ k, contains k text) keys.

(** The characters [str.split()] splits on. *)
Definition isspace (c : ascii) : bool :=
  let n := nat_of_ascii c in
  bool_decide (9 ≤ n ≤ 13)%nat || bool_decide (28 ≤ n ≤ 32)%nat.

(** [len(s.split())]: the number of maximal runs of non-space
    characters.  [inword] tells whether the previous character belonged
    to a word. *)
Fixpoint count_words (inword : bool) (s : string) : Z :=
  match s with
  | EmptyString => 0
  | String c s' =>
      if isspace c then count_words false s'
      else (if inword then 0 else 1) + count_words true s'
  end.

Definition len_split (s : string) : Z := count_words false s.

(** [s[:n]] *)
Definition slice_to (n : nat) (s : string) : string := String.substring 0 n s.

(** Insertion-ordered [dict]. *)
Section Dict.
Context {V : Type}.

(** [d.get(k)] *)
Fixpoint get (k : string) (d : list (string * V)) : option V :=
  match d with
  | [] => None
  | (k', v) :: d' => if decide (k' = k) then Some v else get k d'
  end.

(** [d[k] = v]: an existing key keeps its place, a new key goes last. *)
Fixpoint set (k : string) (v : V) (d : list (string * V)) : list (string * V) :=
  match d with
  | [] => [(k, v)]
  | (k', v') :: d' =>
      if decide (k' = k) then (k, v) :: d' else (k', v') :: set k v d'
  end.

(** [del d[k]] (the caller has checked [k in d]). *)
Fixpoint del (k : string) (d : list (string * V)) : list (string * V) :=
  match d with
  | [] => []
  | (k', v') :: d' => if decide (k' = k) then d' else (k', v') :: del k d'
  end.

(** [d.values()] *)
Definition values (d : list (string * V)) : list V := d.*2.

(** The object stored under [k] is mutated in place. *)
Fixpoint mutate (k : string) (f : V → V) (d : list (string * V)) : list (string * V) :=
  match d with
  | [] => []
  | (k', v) :: d' =>
      if decide (k' = k) then (k', f v) :: d' else (k', v) :: mutate k f d'
  end.
End Dict.

(** [list.sort(key=...)]: the sort is stable, so its result is the one
    of insertion sort that puts an element before the first element of
    the sorted tail whose key is not smaller. *)
Section Sort.
Context {A K : Type} (key : A → K) (le : K → K → Prop) `{!RelDecision le}.

Fixpoint insert_sorted (x : A) (l : list A) : list A :=
  match l with
  | [] => [x]
  | y :: l' =>
      if decide (le (key x) (key y)) then x :: y :: l'
      else y :: insert_sorted x l'
  end.

Definition sort : list A → list A := foldr insert_sorted [].
End Sort.

End Py.

(** ** Time *)

Definition timedelta := Z.

Definition seconds (n : Z) : timedelta := n * 1000000.
Definition hours (n : Z) : timedelta := seconds (n * 3600).
Definition days (n : Z) : timedelta := hours (n * 24).

(** A [datetime]: [wall] is what its clock fields show, in microseconds
    since the epoch; [utcoffset] is [None] for a naive datetime and the
    offset of its zone for an aware one. *)
Record datetime := Datetime {
  wall : Z;
  utcoffset : option timedelta;
}.

Global Instance datetime_eq_dec : EqDecision datetime.
Proof. solve_decision. Defined.

(** A naive datetime, such as [datetime.utcnow()] returns. *)
Definition naive (z : Z) : datetime := Datetime z None.

(** [d + delta] *)
Definition datetime_add (d : datetime) (delta : timedelta) : datetime :=
  Datetime (wall d + delta) (utcoffset d).

(** [a - b]: the difference of two naive datetimes, or of the instants of
    two aware ones; [None] stands for the [TypeError] on a naive and an
    aware one (can't subtract offset-naive and offset-aware datetimes). *)
Definition datetime_sub (a b : datetime) : option timedelta :=
  match utcoffset a, utcoffset b with
  | None, None => Some (wall a - wall b)
  | Some oa, Some ob => Some ((wall a - oa) - (wall b - ob))
  | _, _ => None
  end.

(** [d.timestamp()], in microseconds: the instant of an aware datetime;
    the clock fields of a naive one, read in the zone of the machine,
    which is taken to be UTC. *)
Definition posix (d : datetime) : Z := wall d - default 0 (utcoffset d).

(** ** Floats *)

Module float.
Import SpecFloat.

Definition prec : Z := 53.
Definition emax : Z := 1024.

(** [float(n)] for an int, as [int + float] and [int / float] convert
    it: rounded to nearest, ties to even; the infinity stands for
    [OverflowError] (int too large to convert to float). *)
Definition of_int (n : Z) : option spec_float :=
  match binary_normalize prec emax n 0 false with
  | S754_infinity _ => None
  | f => Some f
  end.

(** A numeric literal of the source, or a small int where a float is
    wanted: the conversion is exact. *)
Definition lit (n : Z) : spec_float := binary_normalize prec emax n 0 false.

Definition zero : spec_float := S754_zero false.

(** An int as a float of exponent 0, whatever its size. *)
Definition unrounded (n : Z) : spec_float :=
  match n with
  | Z0 => S754_zero false
  | Zpos m => S754_finite false m 0
  | Zneg m => S754_finite true m 0
  end.

(** [a / b] on ints, [b] positive: the quotient rounded once, to
    nearest, ties to even; [None] stands for [OverflowError] (integer
    division result too large for a float). *)
Definition true_divide (a : Z) (b : positive) : option spec_float :=
  match SFdiv prec emax (unrounded a) (unrounded (Zpos b)) with
  | S754_infinity _ => None
  | f => Some f
  end.

Definition add : spec_float → spec_float → spec_float := SFadd prec emax.
Definition div : spec_float → spec_float → spec_float := SFdiv prec emax.

(** [a < b], [a <= b] and [a == b] *)
Definition ltb : spec_float → spec_float → bool := SFltb.
Definition leb : spec_float → spec_float → bool := SFleb.
Definition eqb : spec_float → spec_float → bool := SFeqb.

(** [not b < a], the test a sort makes to leave [a] before [b]. *)
Definition not_after (a b : spec_float) : Prop := ltb b a = false.

Global Instance not_after_dec : RelDecision not_after.
Proof. intros a b. unfold not_after. apply _. Defined.

End float.

Abbreviation spec_float := SpecFloat.spec_float.

(** A float timestamp: [float("inf")] or a finite instant. *)
Inductive timestamp :=
| Finite (z : Z)
| PosInf.

Global Instance timestamp_eq_dec : EqDecision timestamp.
Proof. solve_decision. Defined.

Definition timestamp_ltb (a b : timestamp) : bool :=
  match a, b with
  | Finite x, Finite y => bool_decide (x < y)
  | Finite _, PosInf => true
  | PosInf, _ => false
  end.

(** ** Heap entries and [heapq] *)

(** An entry is the tuple [(task.sort_index, task.id)], where
    [sort_index] is [(priority, deadline_ts)]. *)
Definition sort_key : Type := Z * timestamp.
Definition entry : Type := sort_key * string.

(** Tuple comparison [a < b]: the first differing component decides. *)
Definition sort_key_ltb (a b : sort_key) : bool :=
  if decide (a.1 = b.1) then timestamp_ltb a.2 b.2 else bool_decide (a.1 < b.1).

Definition entry_ltb (a b : entry) : bool :=
  if decide (a.1 = b.1) then String.ltb a.2 b.2 else sort_key_ltb a.1 b.1.

Module heapq.

(** The loop of [_siftdown]: the hole at [pos] moves up while [newitem]
    is smaller than the parent.  [pos] decreases at each turn, so
    [fuel = pos] turns are enough. *)
Fixpoint _siftdown_loop (fuel : nat) (heap : list entry)
    (startpos pos : nat) (newitem : entry) : list entry :=
  match fuel with
  | O => <[pos := newitem]> heap
  | S fuel' =>
      if decide (startpos < pos)%nat then
        let parentpos := ((pos - 1) / 2)%nat in
        match heap !! parentpos with
        | Some parent =>
            if entry_ltb newitem parent
            then _siftdown_loop fuel' (<[pos := parent]> heap) startpos parentpos newitem
            else <[pos := newitem]> heap
        | None => <[pos := newitem]> heap
        end
      else <[pos := newitem]> heap
  end.

Definition _siftdown (heap : list entry) (startpos pos : nat) : list entry :=
  match heap !! pos with
  | Some newitem => _siftdown_loop pos heap startpos pos newitem
  | None => heap
  end.

(** The loop of [_siftup]: the smaller child moves into the hole until
    the hole is a leaf; it returns the heap and the final hole. *)
Fixpoint _siftup_loop (fuel : nat) (heap : list entry) (pos : nat)
    : list entry * nat :=
  match fuel with
  | O => (heap, pos)
  | S fuel' =>
      let endpos := length heap in
      let childpos := (2 * pos + 1)%nat in
      if decide (childpos < endpos)%nat then
        let rightpos := (childpos + 1)%nat in
        let childpos :=
          match heap !! childpos, heap !! rightpos with
          | Some l, Some r => if entry_ltb l r then childpos else rightpos
          | _, _ => childpos
          end in
        match heap !! childpos with
        | Some child => _siftup_loop fuel' (<[pos := child]> heap) childpos
        | None => (heap, pos)
        end
      else (heap, pos)
  end.

Definition _siftup (heap : list entry) (pos : nat) : list entry :=
  match heap !! pos with
  | Some newitem =>
      let '(heap', pos') := _siftup_loop (length heap) heap pos in
      _siftdown (<[pos' := newitem]> heap') pos pos'
  | None => heap
  end.

(** [heappush(heap, item)] *)
Definition heappush (heap : list entry) (item : entry) : list entry :=
  let heap := heap ++ [item] in
  _siftdown heap 0 (length heap - 1).

(** [heappop(heap)]: [None] stands for the [IndexError] on an empty
    heap. *)
Definition heappop (heap : list entry) : option (entry * list entry) :=
  match last heap with
  | None => None
  | Some lastelt =>
      match removelast heap with
      | [] => Some (lastelt, [])
      | returnitem :: rest => Some (returnitem, _siftup (lastelt :: rest) 0)
      end
  end.

End heapq.

(** ** The [Task] dataclass *)

Record Task := mkTask {
  sort_index : sort_key;
  priority : Z;
  deadline : option datetime;
  id : string;
  title : string;
  description : string;
  created_at : datetime;
  completed : bool;
  progress : Z;
  dependencies : list string;
  tags : list string;
  estimated_minutes : option Z;
  auto_assigned : bool;
  reminded : bool;
}.

(** Attribute assignment, one function per field. *)
Definition set_sort_index (v : sort_key) (t : Task) : Task :=
  mkTask v (priority t) (deadline t) (id t) (title t) (description t)
    (created_at t) (completed t) (progress t) (dependencies t) (tags t)
    (estimated_minutes t) (auto_assigned t) (reminded t).
Definition set_priority (v : Z) (t : Task) : Task :=
  mkTask (sort_index t) v (deadline t) (id t) (title t) (description t)
    (created_at t) (completed t) (progress t) (dependencies t) (tags t)
    (estimated_minutes t) (auto_assigned t) (reminded t).
Definition set_deadline (v : option datetime) (t : Task) : Task :=
  mkTask (sort_index t) (priority t) v (id t) (title t) (description t)
    (created_at t) (completed t) (progress t) (dependencies t) (tags t)
    (estimated_minutes t) (auto_assigned t) (reminded t).
Definition set_id (v : string) (t : Task) : Task :=
  mkTask (sort_index t) (priority t) (deadline t) v (title t) (description t)
    (created_at t) (completed t) (progress t) (dependencies t) (tags t)
    (estimated_minutes t) (auto_assigned t) (reminded t).
Definition set_title (v : string) (t : Task) : Task :=
  mkTask (sort_index t) (priority t) (deadline t) (id t) v (description t)
    (created_at t) (completed t) (progress t) (dependencies t) (tags t)
    (estimated_minutes t) (auto_assigned t) (reminded t).
Definition set_description (v : string) (t : Task) : Task :=
  mkTask (sort_index t) (priority t) (deadline t) (id t) (title t) v
    (created_at t) (completed t) (progress t) (dependencies t) (tags t)
    (estimated_minutes t) (auto_assigned t) (reminded t).
Definition set_created_at (v : datetime) (t : Task) : Task :=
  mkTask (sort_index t) (priority t) (deadline t) (id t) (title t) (description t)
    v (completed t) (progress t) (dependencies t) (tags t)
    (estimated_minutes t) (auto_assigned t) (reminded t).
Definition set_completed (v : bool) (t : Task) : Task :=
  mkTask (sort_index t) (priority t) (deadline t) (id t) (title t) (description t)
    (created_at t) v (progress t) (dependencies t) (tags t)
    (estimated_minutes t) (auto_assigned t) (reminded t).
Definition set_progress_attr (v : Z) (t : Task) : Task :=
  mkTask (sort_index t) (priority t) (deadline t) (id t) (title t) (description t)
    (created_at t) (completed t) v (dependencies t) (tags t)
    (estimated_minutes t) (auto_assigned t) (reminded t).
Definition set_dependencies (v : list string) (t : Task) : Task :=
  mkTask (sort_index t) (priority t) (deadline t) (id t) (title t) (description t)
    (created_at t) (completed t) (progress t) v (tags t)
    (estimated_minutes t) (auto_assigned t) (reminded t).
Definition set_tags (v : list string) (t : Task) : Task :=
  mkTask (sort_index t) (priority t) (deadline t) (id t) (title t) (description t)
    (created_at t) (completed t) (progress t) (dependencies t) v
    (estimated_minutes t) (auto_assigned t) (reminded t).
Definition set_estimated_minutes (v : option Z) (t : Task) : Task :=
  mkTask (sort_index t) (priority t) (deadline t) (id t) (title t) (description t)
    (created_at t) (completed t) (progress t) (dependencies t) (tags t)
    v (auto_assigned t) (reminded t).
Definition set_auto_assigned (v : bool) (t : Task) : Task :=
  mkTask (sort_index t) (priority t) (deadline t) (id t) (title t) (description t)
    (created_at t) (completed t) (progress t) (dependencies t) (tags t)
    (estimated_minutes t) v (reminded t).
Definition set_reminded (v : bool) (t : Task) : Task :=
  mkTask (sort_index t) (priority t) (deadline t) (id t) (title t) (description t)
    (created_at t) (completed t) (progress t) (dependencies t) (tags t)
    (estimated_minutes t) (auto_assigned t) v.

(** [deadline.timestamp() if deadline else float("inf")] *)
Definition deadline_ts (t : Task) : timestamp :=
  match deadline t with
  | Some d => Finite (posix d)
  | None => PosInf
  end.

(** The ordering key a task has now, from its priority and deadline. *)
Definition ordering_key (t : Task) : sort_key := (priority t, deadline_ts t).

Definition __post_init__ (t : Task) : Task := set_sort_index (ordering_key t) t.

(** ** JSON documents *)

#[warnings="-register-all"]
Inductive json :=
| JNull
| JBool (b : bool)
| JInt (z : Z)
| JStr (s : string)
| JList (l : list json)
| JDict (d : list (string * json)).

(** Python truth value of a decoded document. *)
Definition truthy (v : json) : bool :=
  match v with
  | JNull => false
  | JBool b => b
  | JInt z => negb (Z.eqb z 0)
  | JStr EmptyString => false
  | JStr _ => true
  | JList [] => false
  | JList _ => true
  | JDict [] => false
  | JDict _ => true
  end.

(** [d.get(k, default)] *)
Definition get_or (default : json) (k : string) (d : list (string * json)) : json :=
  match Py.get k d with
  | Some v => v
  | None => default
  end.

(** ** Exceptions, the state and the monad of the manager *)

Inductive exn :=
| KeyError                              (* "Task not found" *)
| RuntimeError (unmet : list string)    (* "Unmet dependencies: ..." *)
| ParserError (text : string)           (* dateutil, on unparseable text *)
| JSONDecodeError                       (* json.loads, on malformed text *)
| TypeError
| AttributeError
| OverflowError.

Inductive outcome (A : Type) :=
| Return (a : A)
| Raise (e : exn).
Arguments Return {A} a.
Arguments Raise {A} e.

(** The fields of [TaskManager], with the number of clock reads and of
    uuid draws made so far. *)
Record world := World {
  tasks : list (string * Task);
  heap : list entry;
  clock_reads : nat;
  uuid_draws : nat;
}.

(** [TaskManager()] *)
Definition TaskManager_init : world := World [] [] 0 0.

Definition set_tasks (v : list (string * Task)) (w : world) : world :=
  World v (heap w) (clock_reads w) (uuid_draws w).
Definition set_heap (v : list entry) (w : world) : world :=
  World (tasks w) v (clock_reads w) (uuid_draws w).

Definition M (A : Type) : Type := world → outcome A * world.

Definition ret {A} (a : A) : M A := λ w, (Return a, w).
Definition raise {A} (e : exn) : M A := λ w, (Raise e, w).
Definition bind {A B} (m : M A) (k : A → M B) : M B :=
  λ w, match m w with
       | (Return a, w') => k a w'
       | (Raise e, w') => (Raise e, w')
       end.

Global Instance M_ret : MRet M := @ret.
Global Instance M_bind : MBind M := λ A B k m, bind m k.

Definition get_world : M world := λ w, (Return w, w).
Definition modify (f : world → world) : M unit := λ w, (Return (), f w).

Fixpoint for_each {A} (l : list A) (body : A → M unit) : M unit :=
  match l with
  | [] => ret ()
  | x :: l' => body x ;; for_each l' body
  end.

(** ** Collaborators *)

Class Collaborators := {
  (** the clock fields of [datetime.utcnow()], which is naive, at the
      n-th read of the clock *)
  utcnow : nat → Z;
  (** [str(uuid.uuid4())], at the n-th draw *)
  uuid4 : nat → string;
  (** [dateparser.parse]; [None] when it raises [ParserError] *)
  dateparser_parse : string → option datetime;
  (** [datetime.isoformat] *)
  isoformat : datetime → string;
  (** [json.dumps] *)
  json_dumps : json → string;
  (** [json.loads]; [None] when it raises [JSONDecodeError] *)
  json_loads : string → option json;
}.

(** ** The task manager *)

Section TaskManager.
Context `{Collaborators}.

Definition datetime_utcnow : M datetime :=
  λ w, (Return (naive (utcnow (clock_reads w))),
        World (tasks w) (heap w) (S (clock_reads w)) (uuid_draws w)).

Definition str_uuid4 : M string :=
  λ w, (Return (uuid4 (uuid_draws w)),
        World (tasks w) (heap w) (clock_reads w) (S (uuid_draws w))).

Definition parse (text : string) : M datetime :=
  match dateparser_parse text with
  | Some d => ret d
  | None => raise (ParserError text)
  end.

(** *** [Task.to_dict] and [Task.from_dict] *)

Definition to_dict (t : Task) : json :=
  JDict [
    ("id", JStr (id t));
    ("title", JStr (title t));
    ("description", JStr (description t));
    ("priority", JInt (priority t));
    ("deadline", match deadline t with
                 | Some d => JStr (isoformat d)
                 | None => JNull
                 end);
    ("created_at", JStr (isoformat (created_at t)));
    ("completed", JBool (completed t));
    ("progress", JInt (progress t));
    ("dependencies", JList (JStr <$> dependencies t));
    ("tags", JList (JStr <$> tags t));
    ("estimated_minutes", match estimated_minutes t with
                          | Some m => JInt m
                          | None => JNull
                          end);
    ("auto_assigned", JBool (auto_assigned t));
    ("reminded", JBool (reminded t))
  ].

(** The source stores whatever value the mapping holds; the fields of
    the embedding are typed, so a value of another JSON type than the
    field's annotation ends the call with [TypeError].  Nothing below
    relies on that outcome. *)
Definition as_int (v : json) : M Z :=
  match v with JInt z => ret z | _ => raise TypeError end.
Definition as_bool (v : json) : M bool :=
  match v with JBool b => ret b | _ => raise TypeError end.
Definition as_str (v : json) : M string :=
  match v with JStr s => ret s | _ => raise TypeError end.
Definition as_opt_int (v : json) : M (option Z) :=
  match v with JNull => ret None | JInt z => ret (Some z) | _ => raise TypeError end.
Fixpoint as_strs (l : list json) : M (list string) :=
  match l with
  | [] => ret []
  | v :: l' => s ← as_str v; r ← as_strs l'; ret (s :: r)
  end.
Definition as_str_list (v : json) : M (list string) :=
  match v with JList l => as_strs l | _ => raise TypeError end.

(** [dateparser.parse(v)] on a decoded value: the parser raises
    [TypeError] on anything but text. *)
Definition parse_value (v : json) : M datetime :=
  match v with JStr s => parse s | _ => raise TypeError end.

Definition from_dict (d : json) : M Task :=
  match d with
  | JDict d =>
      deadline ←
        (let v := get_or JNull "deadline" d in
         if truthy v then (x ← parse_value v; ret (Some x)) else ret None);
      priority ← as_int (get_or (JInt 5) "priority" d);
      (* the default of [d.get("id", str(uuid.uuid4()))] is always evaluated *)
      fresh ← str_uuid4;
      id ← as_str (get_or (JStr fresh) "id" d);
      title ← as_str (get_or (JStr "") "title" d);
      description ← as_str (get_or (JStr "") "description" d);
      created_at ←
        (let v := get_or JNull "created_at" d in
         if truthy v then parse_value v else datetime_utcnow);
      completed ← as_bool (get_or (JBool false) "completed" d);
      progress ← as_int (get_or (JInt 0) "progress" d);
      dependencies ← as_str_list (get_or (JList []) "dependencies" d);
      tags ← as_str_list (get_or (JList []) "tags" d);
      estimated_minutes ← as_opt_int (get_or JNull "estimated_minutes" d);
      auto_assigned ← as_bool (get_or (JBool false) "auto_assigned" d);
      let t := __post_init__
                 (mkTask (0, PosInf) priority deadline id title description
                    created_at completed progress dependencies tags
                    estimated_minutes auto_assigned false) in
      reminded ← as_bool (get_or (JBool false) "reminded" d);
      ret (__post_init__ (set_reminded reminded t))
  | _ => raise AttributeError
  end.

(** *** The heap *)

(** [_push_heap(task)]: the task object gets its key recomputed and an
    entry is pushed; the result is the mutated task and the new heap. *)
Definition _push_heap (task : Task) (heap : list entry) : Task * list entry :=
  let task := __post_init__ task in
  (task, heapq.heappush heap (sort_index task, id task)).

(** The loop of [_rebuild_heap] over [self.tasks.values()]. *)
Fixpoint _rebuild_loop (d : list (string * Task)) (heap : list entry)
    : list (string * Task) * list entry :=
  match d with
  | [] => ([], heap)
  | (k, t) :: d' =>
      if completed t then
        let '(d'', heap') := _rebuild_loop d' heap in ((k, t) :: d'', heap')
      else
        let '(t', heap') := _push_heap t heap in
        let '(d'', heap'') := _rebuild_loop d' heap' in ((k, t') :: d'', heap'')
  end.

Definition _rebuild_heap : M unit :=
  modify (λ w, let '(d, heap) := _rebuild_loop (tasks w) [] in
               set_heap heap (set_tasks d w)).

(** *** [auto_assign_priority_and_deadline] *)

Definition auto_assign_priority_and_deadline
    (title description : string) (user_deadline : option datetime)
    : M (Z * option datetime * list string * Z) :=
  let text := Py.lower (title +:+ " " +:+ description) in
  let priority := 5 in
  let '(priority, tags) :=
    if Py.any_in ["urgent"; "asap"; "immediately"] text then (1, ["urgent"])
    else if Py.contains "high" text || Py.contains "important" text
         then (Z.min priority 2, ["high"])
    else if Py.contains "low" text || Py.contains "whenever" text
         then (Z.max priority 7, ["low"])
    else (priority, []) in
  let deadline := user_deadline in
  '(priority, tags) ←
    match deadline with
    | Some d =>
        now ← datetime_utcnow;
        match datetime_sub d now with
        | None => raise TypeError
        | Some delta =>
            if bool_decide (delta ≤ hours 12)
            then ret (Z.min priority 1, tags ++ ["due_12h"])
            else if bool_decide (delta ≤ hours 24)
            then ret (Z.min priority 2, tags ++ ["due_24h"])
            else if bool_decide (delta ≤ days 3)
            then ret (Z.min priority 3, tags ++ ["due_3d"])
            else ret (priority, tags)
        end
    | None => ret (priority, tags)
    end;
  let words := Py.len_split description in
  let estimated_minutes := Z.max 15 (Z.min (8 * (words / 20 + 1)) (8 * 10)) in
  ret (priority, deadline, tags, estimated_minutes).

(** *** [ai_schedule] *)

(** [timedelta.total_seconds()]: the microseconds divided by [10**6],
    an int by an int. *)
Definition total_seconds (delta : timedelta) : option spec_float :=
  float.true_divide delta 1000000.

(** The value of [deadline_score] when the score is computed.  The
    source keeps the ints [0] and [-1000] until [/ 24.0] converts them;
    here they are floats from the start. *)
Definition deadline_score (now : datetime) (t : Task) : outcome spec_float :=
  match deadline t with
  | Some d =>
      match datetime_sub d now with
      | None => Raise TypeError
      | Some delta =>
          match total_seconds delta with
          | None => Raise OverflowError
          | Some delta =>
              if float.leb delta float.zero then Return (float.lit (-1000))
              else Return (float.div delta (float.lit (60 * 60)))
          end
      end
  | None => Return (float.lit 0)
  end.

(** [t.priority + (deadline_score / 24.0)] *)
Definition score (now : datetime) (t : Task) : outcome spec_float :=
  match deadline_score now t with
  | Raise e => Raise e
  | Return deadline_score =>
      let normalized := float.div deadline_score (float.lit 24) in
      match float.of_int (priority t) with
      | None => Raise OverflowError
      | Some priority => Return (float.add priority normalized)
      end
  end.

(** The loop over the tasks that are not completed: it stops at the
    first score that raises. *)
Fixpoint score_all (now : datetime) (l : list Task)
    : outcome (list (spec_float * Task)) :=
  match l with
  | [] => Return []
  | t :: l' =>
      match score now t with
      | Raise e => Raise e
      | Return s =>
          match score_all now l' with
          | Raise e => Raise e
          | Return score_list => Return ((s, t) :: score_list)
          end
      end
  end.

(** [score_list.sort(key=lambda x: x[0])] compares the keys with [<]
    only. *)
Definition ai_schedule : M (list string) :=
  now ← datetime_utcnow;
  w ← get_world;
  score_list ←
    (match score_all now (filter (λ t, completed t = false) (Py.values (tasks w))) with
     | Return score_list => ret score_list
     | Raise e => raise e
     end);
  let score_list := Py.sort fst float.not_after score_list in
  ret ((λ x, id x.2) <$> score_list).

(** *** [ai_parse_task] *)

(** The mapping [ai_parse_task] returns. *)
Record parsed := mkParsed {
  parsed_title : string;
  parsed_description : string;
  parsed_deadline : option string;
  parsed_priority_hint : option string;
  parsed_dependencies : list string;
  parsed_estimated_minutes : option Z;
}.

Definition ai_parse_task (natural_text : string) : M parsed :=
  let out_title :=
    if bool_decide (String.length natural_text ≤ 60)%nat then natural_text
    else Py.slice_to 57 natural_text +:+ "..." in
  let text := Py.lower natural_text in
  out_deadline ←
    (if Py.contains "tomorrow" text
     then now ← datetime_utcnow; ret (Some (isoformat (datetime_add now (days 1))))
     else if Py.contains "today" text
     then now ← datetime_utcnow; ret (Some (isoformat now))
     else ret None);
  let out_priority_hint :=
    if Py.any_in ["urgent"; "asap"; "immediately"] text
    then Some "urgent" else None in
  ret (mkParsed out_title natural_text out_deadline out_priority_hint [] None).

(** *** The store operations *)

Definition get_task (tid : string) : M (option Task) :=
  w ← get_world; ret (Py.get tid (tasks w)).

(** Attribute assignment on the task object stored under [tid]. *)
Definition mutate_task (tid : string) (f : Task → Task) : M unit :=
  modify (λ w, set_tasks (Py.mutate tid f (tasks w)) w).

(** Truth value of an optional text: [None] and the empty text are false. *)
Definition truthy_str (v : option string) : bool :=
  match v with
  | None | Some EmptyString => false
  | Some _ => true
  end.

(** [t.dependencies.append(dep_id)] for each id not yet listed. *)
Definition append_deps (deps : list string) (t : Task) : Task :=
  set_dependencies
    (foldl (λ acc dep_id, if decide (dep_id ∈ acc) then acc else acc ++ [dep_id])
           (dependencies t) deps) t.

Definition add_task (title description : string) (deadline_iso : option string)
    (priority : option Z) (deps : option (list string)) (from_nlp : bool)
    (tags : option (list string)) (minutes : option Z) : M Task :=
  '(title, description, deadline_iso, priority) ←
    (if from_nlp then
       p ← ai_parse_task (if bool_decide (description = "") then title
                          else title +:+ " " +:+ description);
       let deadline_iso :=
         if truthy_str (parsed_deadline p) && negb (truthy_str deadline_iso)
         then parsed_deadline p else deadline_iso in
       let priority :=
         match priority with
         | None =>
             if truthy_str (parsed_priority_hint p)
                && bool_decide (parsed_priority_hint p = Some "urgent")
             then Some 1 else None
         | Some _ => priority
         end in
       ret (parsed_title p, parsed_description p, deadline_iso, priority)
     else ret (title, description, deadline_iso, priority));
  deadline ←
    match deadline_iso with
    | Some text => if truthy_str deadline_iso
                   then (d ← parse text; ret (Some d)) else ret None
    | None => ret None
    end;
  '(priority, deadline, auto_tags, estimated_minutes, auto_assigned) ←
    match priority with
    | None =>
        '(priority, deadline_auto, auto_tags, estimated_minutes) ←
          auto_assign_priority_and_deadline title description deadline;
        let deadline :=
          match deadline with
          | None => deadline_auto
          | Some _ => deadline
          end in
        ret (priority, deadline, auto_tags, Some estimated_minutes, true)
    | Some priority =>
        ret (priority, deadline, default [] tags, minutes, false)
    end;
  (* Task(...): the default factories draw the id, then read the clock *)
  new_id ← str_uuid4;
  now ← datetime_utcnow;
  let t := __post_init__
             (mkTask (0, PosInf) priority deadline new_id title description
                now false 0 [] auto_tags estimated_minutes auto_assigned false) in
  modify (λ w, set_tasks (Py.set (id t) t (tasks w)) w);;
  modify (λ w, set_heap (_push_heap t (heap w)).2 w);;
  mutate_task (id t) __post_init__;;
  mutate_task (id t) (append_deps (default [] deps));;
  ret (append_deps (default [] deps) t).

(** The names of the fields of [Task]. *)
Definition field_names : list string :=
  ["sort_index"; "priority"; "deadline"; "id"; "title"; "description";
   "created_at"; "completed"; "progress"; "dependencies"; "tags";
   "estimated_minutes"; "auto_assigned"; "reminded"].

(** A name for which [hasattr(t, name)] is false on a task: not a field,
    not a method of the class, and not a name that starts with two
    underscores, as the attributes that [dataclass] and [object] provide
    do. *)
Definition no_attribute (name : string) : Prop :=
  (name ∉ field_names ++ ["to_dict"; "from_dict"])
  ∧ String.prefix "__" name = false.

Global Instance no_attribute_dec name : Decision (no_attribute name).
Proof. unfold no_attribute. apply _. Defined.

(** A keyword argument of [update_task]: a field with a value of the
    type the field is annotated with, or, with [kw_other], a name the
    task has no attribute for.  A call that assigns to a method or to a
    special attribute of the object has no counterpart here. *)
Inductive kwarg :=
| kw_sort_index (v : sort_key)
| kw_priority (v : Z)
| kw_deadline (v : option string)
| kw_id (v : string)
| kw_title (v : string)
| kw_description (v : string)
| kw_created_at (v : datetime)
| kw_completed (v : bool)
| kw_progress (v : Z)
| kw_dependencies (v : list string)
| kw_tags (v : list string)
| kw_estimated_minutes (v : option Z)
| kw_auto_assigned (v : bool)
| kw_reminded (v : bool)
| kw_other (name : string) (absent : bool_decide (no_attribute name) = true).

(** One turn of the loop over [kwargs.items()]. *)
Definition update_field (tid : string) (kw : kwarg) : M unit :=
  match kw with
  | kw_deadline v =>
      d ← (match v with
           | Some text => if truthy_str v
                          then (x ← parse text; ret (Some x)) else ret None
           | None => ret None
           end);
      mutate_task tid (set_deadline d)
  | kw_sort_index v => mutate_task tid (set_sort_index v)
  | kw_priority v => mutate_task tid (set_priority v)
  | kw_id v => mutate_task tid (set_id v)
  | kw_title v => mutate_task tid (set_title v)
  | kw_description v => mutate_task tid (set_description v)
  | kw_created_at v => mutate_task tid (set_created_at v)
  | kw_completed v => mutate_task tid (set_completed v)
  | kw_progress v => mutate_task tid (set_progress_attr v)
  | kw_dependencies v => mutate_task tid (set_dependencies v)
  | kw_tags v => mutate_task tid (set_tags v)
  | kw_estimated_minutes v => mutate_task tid (set_estimated_minutes v)
  | kw_auto_assigned v => mutate_task tid (set_auto_assigned v)
  | kw_reminded v => mutate_task tid (set_reminded v)
  | kw_other _ _ => ret ()   (* [hasattr(t, k)] is false *)
  end.

Definition update_task (tid : string) (kwargs : list kwarg) : M Task :=
  t ← get_task tid;
  match t with
  | None => raise KeyError
  | Some _ =>
      for_each kwargs (update_field tid);;
      mutate_task tid __post_init__;;
      _rebuild_heap;;
      t ← get_task tid;
      match t with
      | Some t => ret t
      | None => raise KeyError
      end
  end.

Definition delete_task (tid : string) : M unit :=
  modify (λ w, set_tasks (Py.del tid (tasks w)) w);;
  _rebuild_heap.

(** *** [peek_next] and [pop_next] *)

(** The [while self.heap] loop of [peek_next].  Each turn that goes on
    pops one entry, so [length heap] turns are enough. *)
Fixpoint peek_loop (fuel : nat) (d : list (string * Task)) (heap : list entry)
    : option Task * list entry :=
  match fuel with
  | O => (None, heap)
  | S fuel' =>
      match heap with
      | [] => (None, heap)
      | (_, tid) :: _ =>
          let discard :=
            match heapq.heappop heap with
            | Some (_, heap') => peek_loop fuel' d heap'
            | None => (None, heap)
            end in
          match Py.get tid d with
          | None => discard
          | Some t => if completed t then discard else (Some t, heap)
          end
      end
  end.

Definition peek_next : M (option Task) :=
  λ w, let '(r, heap') := peek_loop (length (heap w)) (tasks w) (heap w) in
       (Return r, set_heap heap' w).

(** The [while self.heap] loop of [pop_next]. *)
Fixpoint pop_loop (fuel : nat) (d : list (string * Task)) (heap : list entry)
    : option Task * list entry :=
  match fuel with
  | O => (None, heap)
  | S fuel' =>
      match heapq.heappop heap with
      | None => (None, heap)
      | Some ((_, tid), heap') =>
          match Py.get tid d with
          | None => pop_loop fuel' d heap'
          | Some t => if completed t then pop_loop fuel' d heap' else (Some t, heap')
          end
      end
  end.

Definition pop_next : M (option Task) :=
  λ w, let '(r, heap') := pop_loop (length (heap w)) (tasks w) (heap w) in
       (Return r, set_heap heap' w).

(** *** [set_progress] and [complete_task] *)

(** [int(progress)] is the identity on the integers the embedding takes. *)
Definition set_progress (tid : string) (progress : Z) : M unit :=
  t ← get_task tid;
  match t with
  | None => raise KeyError
  | Some _ =>
      let clamped := Z.max 0 (Z.min 100 progress) in
      mutate_task tid (set_progress_attr clamped);;
      (if bool_decide (clamped = 100)
       then mutate_task tid (set_completed true) else ret ());;
      _rebuild_heap
  end.

(** [not self.tasks.get(d) or not self.tasks[d].completed] *)
Definition is_unmet (d : list (string * Task)) (dep : string) : bool :=
  match Py.get dep d with
  | None => true
  | Some t => negb (completed t)
  end.

Definition complete_task (tid : string) : M unit :=
  t ← get_task tid;
  match t with
  | None => raise KeyError
  | Some t =>
      w ← get_world;
      let unmet := filter (λ dep, is_unmet (tasks w) dep = true) (dependencies t) in
      match unmet with
      | _ :: _ => raise (RuntimeError unmet)
      | [] =>
          mutate_task tid (set_completed true);;
          mutate_task tid (set_progress_attr 100);;
          _rebuild_heap
      end
  end.

(** *** [export_json] and [import_json] *)

(** The document [export_json] serializes. *)
Definition snapshot (d : list (string * Task)) : json :=
  JDict [("tasks", JList (to_dict <$> Py.values d))].

Definition export_json : M string :=
  w ← get_world; ret (json_dumps (snapshot (tasks w))).

(** What [for td in tasks] iterates over: the items of a list, the keys
    of a mapping, the characters of a text; anything else is not
    iterable. *)
Fixpoint chars (s : string) : list json :=
  match s with
  | EmptyString => []
  | String c s' => JStr (String c EmptyString) :: chars s'
  end.

Definition iterate (v : json) : M (list json) :=
  match v with
  | JList l => ret l
  | JDict d => ret (JStr <$> d.*1)
  | JStr s => ret (chars s)
  | _ => raise TypeError
  end.

Definition import_json (json_str : string) : M unit :=
  data ← match json_loads json_str with
         | Some v => ret v
         | None => raise JSONDecodeError
         end;
  records ← match data with
            | JDict d => ret (get_or (JList []) "tasks" d)
            | _ => raise AttributeError
            end;
  modify (set_tasks []);;
  items ← iterate records;
  for_each items (λ td,
    t ← from_dict td;
    modify (λ w, set_tasks (Py.set (id t) t (tasks w)) w));;
  _rebuild_heap.
End TaskManager.

(** ** Concrete collaborators

    A clock that advances by one microsecond at each read, ids
    [task-0], [task-1], ..., datetimes written in decimal, and a small JSON
    printer and reader.  They serve to run the manager on concrete
    inputs. *)

Module Demo.

Definition utcnow (n : nat) : Z := 1700000000000000 + Z.of_nat n.

Definition decimal (z : Z) : string :=
  NilZero.string_of_int (Z.to_int z).

Definition uuid4 (n : nat) : string := "task-" +:+ decimal (Z.of_nat n).

(** An aware datetime is written with its offset after a plus sign. *)
Definition isoformat (d : datetime) : string :=
  match utcoffset d with
  | None => decimal (wall d)
  | Some offset => decimal (wall d) +:+ "+" +:+ decimal offset
  end.

(** The text before the first [c] and the text after it. *)
Fixpoint split_at (c : ascii) (s : string) : option (string * string) :=
  match s with
  | EmptyString => None
  | String c' s' =>
      if bool_decide (c' = c) then Some (EmptyString, s')
      else (λ r : string * string, (String c' r.1, r.2)) <$> split_at c s'
  end.

Definition read_int (text : string) : option Z :=
  Z.of_int <$> NilZero.int_of_string text.

Definition dateparser_parse (text : string) : option datetime :=
  match split_at "+" text with
  | Some (clock, offset) =>
      z ← read_int clock; o ← read_int offset; Some (Datetime z (Some o))
  | None => naive <$> read_int text
  end.

Definition quote : string := String (ascii_of_nat 34) EmptyString.

Fixpoint join (sep : string) (l : list string) : string :=
  match l with
  | [] => EmptyString
  | [x] => x
  | x :: l' => x +:+ sep +:+ join sep l'
  end.

(** Texts are written between quotes, a backslash before each quote or
    backslash. *)
Fixpoint escape (s : string) : string :=
  match s with
  | EmptyString => EmptyString
  | String c s' =>
      if bool_decide (c = ascii_of_nat 34 ∨ c = ascii_of_nat 92)
      then String (ascii_of_nat 92) (String c (escape s'))
      else String c (escape s')
  end.

Definition dumps_str (s : string) : string := quote +:+ escape s +:+ quote.

Fixpoint json_dumps (v : json) : string :=
  match v with
  | JNull => "null"
  | JBool true => "true"
  | JBool false => "false"
  | JInt z => decimal z
  | JStr s => dumps_str s
  | JList l => "[" +:+ join "," (json_dumps <$> l) +:+ "]"
  | JDict d =>
      "{" +:+ join "," ((λ kv, dumps_str kv.1 +:+ ":" +:+ json_dumps kv.2) <$> d) +:+ "}"
  end.

Fixpoint drop_chars (n : nat) (s : string) : string :=
  match n, s with
  | S n', String _ s' => drop_chars n' s'
  | _, _ => s
  end.

Definition eat (lit s : string) : option string :=
  if String.prefix lit s then Some (drop_chars (String.length lit) s) else None.

(** The text up to the closing quote, and what follows it. *)
Fixpoint loads_str (escaped : bool) (s : string) : option (string * string) :=
  match s with
  | EmptyString => None
  | String c s' =>
      let keep := (λ r : string * string, (String c r.1, r.2)) <$> loads_str false s' in
      if escaped then keep
      else if bool_decide (c = ascii_of_nat 34) then Some (EmptyString, s')
      else if bool_decide (c = ascii_of_nat 92) then loads_str true s'
      else keep
  end.

(** The longest prefix made of a sign and digits, and what follows it. *)
Fixpoint span_number (s : string) : string * string :=
  match s with
  | EmptyString => (EmptyString, EmptyString)
  | String c s' =>
      let n := nat_of_ascii c in
      if bool_decide (n = 45 ∨ 48 ≤ n ≤ 57)%nat
      then let r := span_number s' in (String c r.1, r.2)
      else (EmptyString, s)
  end.

(** The items of a list or of a mapping up to the closing bracket;
    [item] reads one item. *)
Fixpoint loads_items {A} (fuel : nat) (close : string)
    (item : string → option (A * string)) (s : string)
    : option (list A * string) :=
  match fuel with
  | O => None
  | S fuel' =>
      match eat close s with
      | Some rest => Some ([], rest)
      | None =>
          '(x, rest) ← item (default s (eat "," s));
          '(l, rest) ← loads_items fuel' close item rest;
          Some (x :: l, rest)
      end
  end.

Fixpoint loads_value (fuel : nat) (s : string) : option (json * string) :=
  match fuel with
  | O => None
  | S fuel' =>
      match s with
      | String "n" _ => rest ← eat "null" s; Some (JNull, rest)
      | String "t" _ => rest ← eat "true" s; Some (JBool true, rest)
      | String "f" _ => rest ← eat "false" s; Some (JBool false, rest)
      | String "[" s' =>
          '(l, rest) ← loads_items fuel' "]" (loads_value fuel') s';
          Some (JList l, rest)
      | String "{" s' =>
          '(d, rest) ← loads_items fuel' "}"
             (λ s, '(k, rest) ← (rest ← eat quote s; loads_str false rest);
                   rest ← eat ":" rest;
                   '(v, rest) ← loads_value fuel' rest;
                   Some ((k, v), rest)) s';
          Some (JDict d, rest)
      | String c s' =>
          if bool_decide (c = ascii_of_nat 34)
          then '(r, rest) ← loads_str false s'; Some (JStr r, rest)
          else
            let '(digits, rest) := span_number s in
            i ← NilZero.int_of_string digits; Some (JInt (Z.of_int i), rest)
      | EmptyString => None
      end
  end.

Definition json_loads (text : string) : option json :=
  '(v, rest) ← loads_value (String.length text) text;
  if bool_decide (rest = "") then Some v else None.

Definition collaborators : Collaborators :=
  Build_Collaborators utcnow uuid4 dateparser_parse isoformat json_dumps json_loads.
End Demo.

(** ** Notions used in the statements *)

(** A dependency id resolves when the store holds a completed task under
    it. *)
Definition resolved (d : list (string * Task)) (dep : string) : Prop :=
  ∃ t, Py.get dep d = Some t ∧ completed t = true.

Global Instance resolved_dec d dep : Decision (resolved d dep).
Proof.
  unfold resolved. destruct (Py.get dep d) as [t|].
  - destruct (completed t) eqn:Hc.
    + left. eauto.
    + right. intros (t' & [= <-] & ?). congruence.
  - right. by intros (? & ? & ?).
Defined.

(** The ids of [dependencies] that do not resolve, in their order. *)
Definition unmet_dependencies (d : list (string * Task)) (t : Task) : list string :=
  filter (λ dep, ¬ resolved d dep) (dependencies t).

(** The same keys in the same order, each object changed by [f]. *)
Definition map_values {V} (f : V → V) (d : list (string * V)) : list (string * V) :=
  (λ kv, (kv.1, f kv.2)) <$> d.

(** What [_rebuild_heap] does to a task object: an active task gets its
    key recomputed. *)
Definition refresh (t : Task) : Task :=
  if completed t then t else __post_init__ t.

(** The entry [_push_heap] pushes for a task. *)
Definition entry_of (t : Task) : entry := (ordering_key t, id t).

(** The tasks [_rebuild_heap] pushes. *)
Definition active (d : list (string * Task)) : list Task :=
  filter (λ t, completed t = false) (Py.values d).

(** A heap entry is live when its id is the key of a task that is not
    completed. *)
Definition live (d : list (string * Task)) (e : entry) : Prop :=
  ∃ t, Py.get e.2 d = Some t ∧ completed t = false.

(** Every task of the store that is not completed has a heap entry made
    of its id and of the ordering key it has now. *)
Definition covered (w : world) : Prop :=
  ∀ k t, (k, t) ∈ tasks w → completed t = false → entry_of t ∈ heap w.

(** The calls that change the store. *)
Inductive command :=
| AddTask (title description : string) (deadline_iso : option string)
    (priority : option Z) (deps : option (list string)) (from_nlp : bool)
    (tags : option (list string)) (minutes : option Z)
| UpdateTask (tid : string) (kwargs : list kwarg)
| DeleteTask (tid : string)
| SetProgress (tid : string) (progress : Z)
| CompleteTask (tid : string)
| ImportJson (json_str : string).

Definition exec `{Collaborators} (c : command) : M unit :=
  match c with
  | AddTask title description deadline_iso priority deps from_nlp tags minutes =>
      add_task title description deadline_iso priority deps from_nlp tags minutes;;
      mret ()
  | UpdateTask tid kwargs => update_task tid kwargs;; mret ()
  | DeleteTask tid => delete_task tid
  | SetProgress tid progress => set_progress tid progress
  | CompleteTask tid => complete_task tid
  | ImportJson json_str => import_json json_str
  end.

(** The calls that end with [_rebuild_heap]; [add_task] only pushes. *)
Definition rebuilds (c : command) : bool :=
  match c with
  | AddTask _ _ _ _ _ _ _ _ => false
  | _ => true
  end.

Global Instance Task_eq_dec : EqDecision Task.
Proof. solve_decision. Defined.

(** ** Sample runs, with the concrete collaborators *)

Module Sample.
#[local] Existing Instance Demo.collaborators.

(** The state a call leaves. *)
Definition after {A} (m : M A) (w : world) : world := (m w).2.

(** One task, [task-0], created with an explicit priority. *)
Definition one_task : world :=
  after (add_task "Write report" "" None (Some 2) None false None None)
    TaskManager_init.

(** A second task, [task-1], that depends on [task-0] and on an id no
    task has. *)
Definition two_tasks : world :=
  after (add_task "Review report" "" None (Some 3) (Some ["task-0"; "ghost"])
           false None None)
    one_task.

(** [pop_next] has handed out [task-0], which stays in the store, not
    completed. *)
Definition popped : world := after pop_next two_tasks.

Definition add_third : command :=
  AddTask "Send report" "" None (Some 4) None false None None.

(** [update_task] has given [task-1] the id of [task-0]: the store keeps
    it under the key [task-1]. *)
Definition same_id_twice : world :=
  after (update_task "task-1" [kw_id "task-0"]) two_tasks.
End Sample.

(** The progress invariant of a task. *)
Definition progress_ok (t : Task) : Prop :=
  0 ≤ progress t ≤ 100 ∧ (progress t = 100 → completed t = true).

Definition store_progress_ok (w : world) : Prop :=
  ∀ k t, (k, t) ∈ tasks w → progress_ok t.

(** A snapshot whose only record has a deadline that is not a date. *)
Definition bad_record_payload : string :=
  Demo.json_dumps (JDict [("tasks", JList [JDict [("deadline", JStr "soon")]])]).







(** The deadline, if any, is naive. *)
Definition naive_deadline (deadline : option datetime) : Prop :=
  match deadline with
  | Some d => utcoffset d = None
  | None => True
  end.

Global Instance naive_deadline_dec deadline : Decision (naive_deadline deadline).
Proof. destruct deadline; simpl; apply _. Defined.

Module Sample7.
#[local] Existing Instance Demo.collaborators.


(** The clock reading [ai_schedule] gets in these states. *)
Definition now : Z := Demo.utcnow 2.





End Sample7.

(** The keys of a store are the ids of its tasks, each once. *)
Definition store_keyed (d : list (string * Task)) : Prop :=
  NoDup d.*1 ∧ Forall (λ kt, id kt.2 = kt.1) d.

(** Two tasks agree on every serialized field. *)
Definition same_fields (t t' : Task) : Prop :=
  id t' = id t ∧ title t' = title t ∧ description t' = description t
  ∧ priority t' = priority t ∧ deadline t' = deadline t
  ∧ created_at t' = created_at t ∧ completed t' = completed t
  ∧ progress t' = progress t ∧ dependencies t' = dependencies t
  ∧ tags t' = tags t ∧ estimated_minutes t' = estimated_minutes t
  ∧ auto_assigned t' = auto_assigned t ∧ reminded t' = reminded t.

(** ** Further operations of the source *)

Section MoreOperations.
Context `{Collaborators}.

(** [list_tasks(include_completed)] *)
Definition list_tasks (include_completed : bool) : M (list Task) :=
  w ← get_world;
  ret (if include_completed then Py.values (tasks w)
       else filter (λ t, completed t = false) (Py.values (tasks w))).

(** [tm.get_task(tid)] with a decoded value for [tid]: text is looked up,
    a number or a truth value is the key of no task, a list or a mapping
    cannot be hashed. *)
Definition get_task_value (tid : json) : M (option Task) :=
  match tid with
  | JStr s => get_task s
  | JList _ | JDict _ => raise TypeError
  | _ => ret None
  end.

(** [t.reminded = True] on the task found under [tid]. *)
Definition mark_value (tid : json) : M unit :=
  match tid with
  | JStr s => mutate_task s (set_reminded true)
  | _ => ret ()
  end.

(** [request.json or {}], then [data.get("id")]. *)
Definition request_id (request_json : json) : M json :=
  match (if truthy request_json then request_json else JDict []) with
  | JDict data => ret (get_or JNull "id" data)
  | _ => raise AttributeError
  end.

(** The route [api_mark_reminded]: the response is the mapping given to
    [jsonify] and the status code. *)
Definition api_mark_reminded (request_json : json) : M (json * Z) :=
  tid ← request_id request_json;
  if negb (truthy tid)
  then ret (JDict [("ok", JBool false); ("error", JStr "id required")], 400)
  else
    t ← get_task_value tid;
    match t with
    | None => ret (JDict [("ok", JBool false); ("error", JStr "not found")], 404)
    | Some _ => mark_value tid;; ret (JDict [("ok", JBool true)], 200)
    end.
End MoreOperations.

(** The priority the estimator returns. *)
Definition estimated_priority `{Collaborators} (title description : string)
    (user_deadline : option datetime) (w : world) : option Z :=
  match (auto_assign_priority_and_deadline title description user_deadline w).1 with
  | Return (p, _, _, _) => Some p
  | Raise _ => None
  end.

(** A call of [update_task] that names the field [id]. *)
Definition names_id (kw : kwarg) : Prop :=
  match kw with
  | kw_id _ => True
  | _ => False
  end.

Global Instance names_id_dec kw : Decision (names_id kw).
Proof. destruct kw; simpl; apply _. Defined.

Definition keeps_ids (c : command) : Prop :=
  match c with
  | UpdateTask _ kwargs => Forall (λ kw, ¬ names_id kw) kwargs
  | _ => True
  end.

(** The deadline given by a keyword argument, if it is one, can be read:
    it is absent, empty, or a text the date parser accepts. *)
Definition readable `{Collaborators} (kw : kwarg) : Prop :=
  match kw with
  | kw_deadline (Some text) =>
      text = "" ∨ is_Some (dateparser_parse text)
  | _ => True
  end.

(** What [complete_task] assigns: [completed = True], then [progress = 100]. *)
Definition mark_complete (t : Task) : Task :=
  set_progress_attr 100 (set_completed true t).

(** A store with a chain of dependencies: [task-1] depends on [task-0]. *)
Module Chain.
#[local] Existing Instance Demo.collaborators.

Definition two_tasks : world :=
  Sample.after (add_task "Review report" "" None (Some 3) (Some ["task-0"])
                  false None None)
    Sample.one_task.
End Chain.

(** ** The order of heap entries and the invariant of [heapq] *)

(** A strict total order, given by its [<] test. *)
Record strict_total {A} (ltb : A → A → bool) : Prop := {
  ltb_irrefl a : ltb a a = false;
  ltb_trans a b c : ltb a b = true → ltb b c = true → ltb a c = true;
  ltb_total a b : ltb a b = true ∨ a = b ∨ ltb b a = true;
}.

(** Tuple comparison of pairs: the shape of [sort_key_ltb] and of
    [entry_ltb]. *)
Definition lex_ltb {A B} `{EqDecision A} (ltA : A → A → bool) (ltB : B → B → bool)
    (a b : A * B) : bool :=
  if decide (a.1 = b.1) then ltB a.2 b.2 else ltA a.1 b.1.

(** [a <= b] on entries, as [heapq] reads it: not [b < a]. *)
Definition entry_le (a b : entry) : Prop := entry_ltb b a = false.

(** [j] is the index of a child of the index [i]. *)
Definition child (i j : nat) : Prop := j = (2 * i + 1)%nat ∨ j = (2 * i + 2)%nat.

(** The heap invariant: [heap[k] <= heap[2*k+1]] and
    [heap[k] <= heap[2*k+2]]. *)
Definition heap_ordered (heap : list entry) : Prop :=
  ∀ i j x y, child i j → heap !! i = Some x → heap !! j = Some y → entry_le x y.

(** The invariant of a heap with a hole at [pos], whose content does not
    count. *)
Definition hole_ordered (heap : list entry) (pos : nat) : Prop :=
  ∀ i j x y, child i j → i ≠ pos → j ≠ pos →
    heap !! i = Some x → heap !! j = Some y → entry_le x y.

(** The parent of the hole is not above the children of the hole. *)
Definition above_hole (heap : list entry) (pos : nat) : Prop :=
  ∀ i k x y, child i pos → child pos k →
    heap !! i = Some x → heap !! k = Some y → entry_le x y.

(** [e] is not above the children of the hole. *)
Definition fits_below (heap : list entry) (pos : nat) (e : entry) : Prop :=
  ∀ k y, child pos k → heap !! k = Some y → entry_le e y.

(** A computation that leaves an ordered heap ordered, whatever its
    outcome. *)
Definition keeps_order {A} (m : M A) : Prop :=
  ∀ w r w', m w = (r, w') → heap_ordered (heap w) → heap_ordered (heap w').

(** A computation that neither reads nor writes the heap: run on
    another heap, it does the same and leaves that heap. *)
Definition heap_blind {A} (m : M A) : Prop :=
  ∀ h w, m (set_heap h w) = ((m w).1, set_heap h (m w).2).

(** ** The route [api_complete] *)

(** [try: m  except Exception as e: handler e] *)
Definition try_except {A} (m : M A) (handler : exn → M A) : M A :=
  λ w, match m w with
       | (Return a, w') => (Return a, w')
       | (Raise e, w') => handler e w'
       end.

(** [tm.complete_task(tid)] with a decoded value for [tid]: text is
    looked up, a number or a truth value is the key of no task, a list or
    a mapping cannot be hashed. *)
Definition complete_task_value (tid : json) : M unit :=
  match tid with
  | JStr s => complete_task s
  | JList _ | JDict _ => raise TypeError
  | _ => raise KeyError
  end.

(** The field [error] of an answer: a fixed text, or [str(e)] for the
    exception caught, kept as the exception. *)
Inductive error_text :=
| text_of (s : string)
| str_of (e : exn).

(** The route [api_complete]: the answer is [{"ok": True}] with status
    200, or [{"ok": False, "error": ...}] with the status given. *)
Definition api_complete (request_json : json) : M (option error_text * Z) :=
  tid ← request_id request_json;
  if negb (truthy tid) then ret (Some (text_of "id required"), 400)
  else
    try_except (complete_task_value tid;; ret (None, 200))
      (λ e, ret (Some (str_of e), 400)).

(** ** The order of floats *)

Definition Z_ltb (a b : Z) : bool := bool_decide (a < b).


Definition rank_ltb : Z * (Z * Z) → Z * (Z * Z) → bool :=
  lex_ltb Z_ltb (lex_ltb Z_ltb Z_ltb).

Definition rank_le (a b : Z * (Z * Z)) : Prop := rank_ltb b a = false.

Global Instance rank_le_dec : RelDecision rank_le.
Proof. intros a b. unfold rank_le. apply _. Defined.

Definition is_nan (f : spec_float) : bool :=
  match f with
  | SpecFloat.S754_nan => true
  | _ => false
  end.

(** The sign of a float that is not a NaN. *)
Definition sign_of (f : spec_float) : bool :=
  match f with
  | SpecFloat.S754_zero s | SpecFloat.S754_infinity s
  | SpecFloat.S754_finite s _ _ => s
  | SpecFloat.S754_nan => false
  end.

(** A float that is neither a NaN nor an infinity. *)
Definition is_finite (f : spec_float) : bool :=
  match f with
  | SpecFloat.S754_zero _ | SpecFloat.S754_finite _ _ _ => true
  | _ => false
  end.

(** * Properties *)

(** ** [heapq] keeps the entries *)

Section heapq_facts.
Implicit Types (heap : list entry) (e : entry).

Lemma insert_Permutation heap i e :
  (i < length heap)%nat → <[i := e]> heap ≡ₚ e :: delete i heap.
Proof.
  intros Hi. rewrite insert_take_drop, delete_take_drop by done.
  symmetry. apply Permutation_middle.
Qed.

(** Filling the hole at [i] with the entry at [j] and putting [e] at [j]
    holds the same entries as putting [e] in the hole at [i]. *)
Lemma move_hole heap i j e y :
  i ≠ j → heap !! j = Some y → (i < length heap)%nat →
  <[j := e]> (<[i := y]> heap) ≡ₚ <[i := e]> heap.
Proof.
  intros Hij Hj Hi.
  assert (j < length heap)%nat as Hjlen by eauto using lookup_lt_Some.
  rewrite (insert_Permutation (<[i := y]> heap) j e)
    by (by rewrite length_insert).
  rewrite (insert_Permutation heap i e) by done.
  apply Permutation_skip, (Permutation_cons_inv (a := y)).
  rewrite <-(insert_Permutation heap i y) by done.
  symmetry. apply delete_Permutation.
  by rewrite list_lookup_insert_ne.
Qed.

Lemma parent_lt pos : (0 < pos)%nat → ((pos - 1) / 2 < pos)%nat.
Proof.
  intros Hpos. apply Nat.Div0.div_lt_upper_bound. lia.
Qed.

Lemma _siftdown_loop_Permutation fuel heap startpos pos e :
  (pos < length heap)%nat →
  heapq._siftdown_loop fuel heap startpos pos e ≡ₚ <[pos := e]> heap.
Proof.
  revert heap pos. induction fuel as [|fuel IH]; intros heap pos Hpos;
    cbn [heapq._siftdown_loop].
  { done. }
  destruct (decide (startpos < pos)%nat) as [Hlt|]; [|done].
  destruct (heap !! _) as [parent|] eqn:Hparent; [|done].
  destruct (entry_ltb e parent); [|done].
  assert ((pos - 1) / 2 < pos)%nat by (apply parent_lt; lia).
  rewrite IH by (rewrite length_insert; lia).
  apply move_hole; [lia|done..].
Qed.

Lemma _siftdown_Permutation heap startpos pos :
  heapq._siftdown heap startpos pos ≡ₚ heap.
Proof.
  unfold heapq._siftdown. destruct (heap !! pos) as [e|] eqn:He; [|done].
  rewrite _siftdown_loop_Permutation by eauto using lookup_lt_Some.
  by rewrite list_insert_id.
Qed.

Lemma _siftup_loop_Permutation fuel heap pos e heap' pos' :
  (pos < length heap)%nat →
  heapq._siftup_loop fuel heap pos = (heap', pos') →
  (pos' < length heap')%nat ∧ <[pos' := e]> heap' ≡ₚ <[pos := e]> heap.
Proof.
  revert heap pos. induction fuel as [|fuel IH]; intros heap pos Hpos;
    cbn [heapq._siftup_loop].
  { by intros [= <- <-]. }
  destruct (decide (2 * pos + 1 < length heap)%nat); [|by intros [= <- <-]].
  set (childpos := match heap !! (2 * pos + 1)%nat, heap !! (2 * pos + 1 + 1)%nat with
                   | Some l, Some r => if entry_ltb l r then (2 * pos + 1)%nat
                                       else (2 * pos + 1 + 1)%nat
                   | _, _ => (2 * pos + 1)%nat
                   end).
  assert (pos < childpos)%nat as Hchild.
  { unfold childpos. repeat case_match; lia. }
  clearbody childpos.
  destruct (heap !! childpos) as [child|] eqn:Hc; [|by intros [= <- <-]].
  intros Hloop. apply (IH _ _) in Hloop as [Hlen Hperm].
  - split; [done|]. rewrite Hperm. apply move_hole; [lia|done..].
  - rewrite length_insert. eauto using lookup_lt_Some.
Qed.

Lemma _siftup_Permutation heap pos : heapq._siftup heap pos ≡ₚ heap.
Proof.
  unfold heapq._siftup. destruct (heap !! pos) as [e|] eqn:He; [|done].
  destruct (heapq._siftup_loop _ _ _) as [heap' pos'] eqn:Hloop.
  apply (_siftup_loop_Permutation _ _ _ e) in Hloop as [_ Hperm];
    [|eauto using lookup_lt_Some].
  rewrite _siftdown_Permutation, Hperm. by rewrite list_insert_id.
Qed.

Lemma heappush_Permutation heap e : heapq.heappush heap e ≡ₚ e :: heap.
Proof.
  unfold heapq.heappush. rewrite _siftdown_Permutation.
  symmetry. apply Permutation_cons_append.
Qed.

Lemma heappop_None heap : heapq.heappop heap = None ↔ heap = [].
Proof.
  unfold heapq.heappop. split; [|by intros ->].
  destruct (last heap) eqn:Hlast.
  - by repeat case_match.
  - intros _. by apply last_None.
Qed.

(** [heappop] returns [heap[0]] and leaves the other entries. *)
Lemma heappop_Some heap e heap' :
  heapq.heappop heap = Some (e, heap') →
  head heap = Some e ∧ heap ≡ₚ e :: heap'.
Proof.
  unfold heapq.heappop. destruct (last heap) as [lastelt|] eqn:Hlast; [|done].
  apply last_Some in Hlast as [l ->]. rewrite removelast_last.
  destruct l as [|returnitem rest]; intros [= <- <-]; [done|].
  split; [done|]. rewrite _siftup_Permutation. simpl.
  apply Permutation_skip. symmetry. apply Permutation_cons_append.
Qed.
End heapq_facts.
(** ** The order of heap entries *)

Section order_facts.

Lemma lex_strict_total {A B} `{EqDecision A} (ltA : A → A → bool) (ltB : B → B → bool) :
  strict_total ltA → strict_total ltB → strict_total (lex_ltb ltA ltB).
Proof.
  intros [irA trA toA] [irB trB toB]. split; unfold lex_ltb.
  - intros a. by rewrite decide_True.
  - intros [a1 a2] [b1 b2] [c1 c2]. simpl.
    destruct (decide (a1 = b1)) as [->|Hab], (decide (b1 = c1)) as [->|Hbc].
    + apply trB.
    + by intros _.
    + rewrite decide_False by done. by intros ? _.
    + intros H1 H2. pose proof (trA _ _ _ H1 H2) as H3.
      destruct (decide (a1 = c1)) as [->|]; [|done].
      pose proof (trA _ _ _ H1 H2). congruence.
  - intros [a1 a2] [b1 b2]. simpl. repeat case_decide; try congruence.
    + destruct (toB a2 b2) as [?|[->|?]]; subst; eauto.
    + destruct (toA a1 b1) as [?|[->|?]]; eauto.
Qed.

Lemma Z_ltb_strict_total : strict_total (λ a b : Z, bool_decide (a < b)).
Proof.
  split; intros; repeat case_bool_decide; try done; try lia.
Qed.

Lemma timestamp_ltb_strict_total : strict_total timestamp_ltb.
Proof.
  split.
  - intros [x|]; simpl; [|done]. apply bool_decide_eq_false. lia.
  - intros [x|] [y|] [z|]; simpl; try done.
    rewrite !bool_decide_eq_true. lia.
  - intros [x|] [y|]; simpl; eauto.
    rewrite !bool_decide_eq_true.
    destruct (decide (x = y)) as [->|]; [by eauto|].
    destruct (decide (x < y)); [left|right; right]; lia.
Qed.

Lemma String_ltb_strict_total : strict_total String.ltb.
Proof.
  split; unfold String.ltb.
  - intros a. pose proof (String.compare_antisym a a) as Haa.
    by destruct (String.compare a a).
  - intros a b c Hab Hbc.
    destruct (String.compare a b) eqn:Eab; try done.
    destruct (String.compare b c) eqn:Ebc; try done.
    apply OrderedTypeEx.String_as_OT.cmp_lt in Eab, Ebc.
    pose proof (OrderedTypeEx.String_as_OT.lt_trans _ _ _ Eab Ebc) as Hac.
    apply OrderedTypeEx.String_as_OT.cmp_lt in Hac.
    unfold OrderedTypeEx.String_as_OT.cmp in Hac. by rewrite Hac.
  - intros a b. rewrite (String.compare_antisym b a).
    destruct (String.compare a b) eqn:Eab; simpl; eauto.
    apply String.compare_eq_iff in Eab. eauto.
Qed.

Lemma entry_ltb_strict_total : strict_total entry_ltb.
Proof.
  exact (lex_strict_total _ _
           (lex_strict_total _ _ Z_ltb_strict_total timestamp_ltb_strict_total)
           String_ltb_strict_total).
Qed.

Lemma entry_le_refl a : entry_le a a.
Proof. apply entry_ltb_strict_total. Qed.

Lemma entry_ltb_le a b : entry_ltb a b = true → entry_le a b.
Proof.
  intros Hab. unfold entry_le. destruct (entry_ltb b a) eqn:Hba; [|done].
  pose proof (ltb_trans _ entry_ltb_strict_total _ _ _ Hab Hba) as Haa.
  by rewrite (ltb_irrefl _ entry_ltb_strict_total) in Haa.
Qed.

Lemma entry_le_trans a b c : entry_le a b → entry_le b c → entry_le a c.
Proof.
  unfold entry_le. intros Hab Hbc. destruct (entry_ltb c a) eqn:Hca; [|done].
  destruct (ltb_total _ entry_ltb_strict_total a b) as [Hlt|[->|Hlt]]; [|congruence..].
  by rewrite (ltb_trans _ entry_ltb_strict_total _ _ _ Hca Hlt) in Hbc.
Qed.

Lemma entry_le_total a b : entry_le a b ∨ entry_le b a.
Proof.
  unfold entry_le. destruct (entry_ltb b a) eqn:Hba; [|by left].
  right. by apply entry_ltb_le.
Qed.
End order_facts.


(** ** The store as a mapping *)

Section dict_facts.
Context {V : Type}.
Implicit Types (d : list (string * V)) (k : string).

Lemma get_mutate_eq d k f : Py.get k (Py.mutate k f d) = f <$> Py.get k d.
Proof.
  induction d as [|[k' v] d IH]; simpl; [done|].
  destruct (decide (k' = k)); simpl; rewrite ?decide_True, ?decide_False by done; done.
Qed.

Lemma get_mutate_ne d k k' f : k ≠ k' → Py.get k' (Py.mutate k f d) = Py.get k' d.
Proof.
  intros Hne. induction d as [|[k'' v] d IH]; simpl; [done|].
  destruct (decide (k'' = k)) as [->|]; simpl.
  - by rewrite !decide_False by done.
  - by rewrite IH.
Qed.

Lemma mutate_mutate d k f g :
  Py.mutate k g (Py.mutate k f d) = Py.mutate k (g ∘ f) d.
Proof.
  induction d as [|[k' v] d IH]; simpl; [done|].
  destruct (decide (k' = k)); simpl; rewrite ?decide_True, ?decide_False by done;
    by rewrite ?IH.
Qed.

Lemma get_fmap d k (f : V → V) :
  Py.get k (map_values f d) = f <$> Py.get k d.
Proof.
  induction d as [|[k' v] d IH]; simpl; [done|].
  by destruct (decide (k' = k)).
Qed.

Lemma get_Some_elem_of d k v : Py.get k d = Some v → (k, v) ∈ d.
Proof.
  induction d as [|[k' v'] d IH]; simpl; [done|].
  destruct (decide (k' = k)) as [->|].
  - intros [= ->]. left.
  - intros. right. auto.
Qed.
End dict_facts.

(** ** [_rebuild_heap] *)

Section rebuild_facts.
Implicit Types (d : list (string * Task)) (heap : list entry).

Lemma sort_index_post_init t : sort_index (__post_init__ t) = ordering_key t.
Proof. done. Qed.

Lemma post_init_idemp t : __post_init__ (__post_init__ t) = __post_init__ t.
Proof. done. Qed.

Lemma _rebuild_loop_tasks d heap :
  (_rebuild_loop d heap).1 = map_values refresh d.
Proof.
  revert heap. induction d as [|[k t] d IH]; intros heap; simpl; [done|].
  unfold refresh at 1. destruct (completed t); simpl.
  - specialize (IH heap). destruct (_rebuild_loop d heap). simpl in *. by f_equal.
  - specialize (IH (heapq.heappush heap (ordering_key t, id t))).
    destruct (_rebuild_loop d _). simpl in *. by f_equal.
Qed.

Lemma _rebuild_loop_heap d heap :
  (_rebuild_loop d heap).2 ≡ₚ (entry_of <$> active d) ++ heap.
Proof.
  revert heap. induction d as [|[k t] d IH]; intros heap; simpl; [done|].
  unfold active, Py.values. simpl. destruct (completed t) eqn:Hc; simpl.
  - specialize (IH heap). destruct (_rebuild_loop d heap). simpl in *.
    by rewrite filter_cons_False by congruence.
  - specialize (IH (heapq.heappush heap (ordering_key t, id t))).
    destruct (_rebuild_loop d _). simpl in *.
    rewrite filter_cons_True by done. rewrite IH, heappush_Permutation.
    simpl. symmetry. apply Permutation_middle.
Qed.

Lemma _rebuild_heap_run w :
  _rebuild_heap w =
    (Return (), World (map_values refresh (tasks w))
                      (_rebuild_loop (tasks w) []).2 (clock_reads w) (uuid_draws w)).
Proof.
  unfold _rebuild_heap, modify. rewrite <-(_rebuild_loop_tasks _ []).
  by destruct (_rebuild_loop (tasks w) []).
Qed.
End rebuild_facts.

(** Unfolding of the monad. *)
Ltac run_monad :=
  unfold mbind, M_bind, bind, mret, M_ret, ret, raise, get_world, modify,
    get_task, mutate_task in *;
  simpl in *.

(** ** Dependency-gated completion *)

Lemma is_unmet_resolved d dep : is_unmet d dep = true ↔ ¬ resolved d dep.
Proof.
  unfold is_unmet, resolved. destruct (Py.get dep d) as [t|].
  - destruct (completed t) eqn:Hc; simpl; split; try done.
    + intros Hn. destruct Hn. eauto.
    + intros _ (t' & [= <-] & ?). congruence.
  - split; [|done]. by intros _ (? & ? & ?).
Qed.

(** C3. [complete_task] raises [KeyError] (not found) on an absent id; on
    a task with dependencies that do not resolve to a completed task it
    raises [RuntimeError] (the dependency error) with exactly those ids
    and leaves the state as it was; otherwise it returns, and the task has
    [completed = True] and [progress = 100]. *)
Theorem complete_task_outcome (w : world) (tid : string) :
  match Py.get tid (tasks w) with
  | None => complete_task tid w = (Raise KeyError, w)
  | Some t =>
      match unmet_dependencies (tasks w) t with
      | [] =>
          ∃ w', complete_task tid w = (Return (), w')
                ∧ Py.get tid (tasks w')
                  = Some (set_progress_attr 100 (set_completed true t))
      | (_ :: _) as unmet => complete_task tid w = (Raise (RuntimeError unmet), w)
      end
  end.
Proof.
  unfold complete_task, unmet_dependencies. run_monad.
  destruct (Py.get tid (tasks w)) as [t|] eqn:Ht; [|done].
  rewrite (list_filter_iff (λ dep, is_unmet (tasks w) dep = true)
             (λ dep, ¬ resolved (tasks w) dep))
    by (intros; apply is_unmet_resolved).
  destruct (filter _ (dependencies t)) as [|dep deps]; [|reflexivity].
  rewrite _rebuild_heap_run. eexists; split; [done|]. simpl.
  rewrite get_fmap, mutate_mutate, get_mutate_eq, Ht. done.
Qed.

(** ** [peek_next] and [pop_next] *)

Section next_facts.
Implicit Types (d : list (string * Task)) (heap : list entry).

Lemma not_live_get d e :
  ¬ live d e ↔
  match Py.get e.2 d with
  | None => True
  | Some t => completed t = true
  end.
Proof.
  unfold live. destruct (Py.get e.2 d) as [t|].
  - destruct (completed t) eqn:Hc; split; try done.
    + intros _ (t' & [= <-] & ?). congruence.
    + intros Hn. destruct Hn. eauto.
  - split; [done|]. by intros _ (? & ? & ?).
Qed.

(** The scan of [peek_next] stops on a live entry, still at [heap[0]], or
    on the empty heap, after discarding entries none of which is live. *)
Lemma peek_loop_spec fuel d heap r heap' :
  (length heap ≤ fuel)%nat →
  peek_loop fuel d heap = (r, heap') →
  ∃ dropped,
    heap ≡ₚ dropped ++ heap' ∧ Forall (λ e, ¬ live d e) dropped ∧
    match r with
    | Some t => ∃ e, head heap' = Some e ∧ Py.get e.2 d = Some t ∧ completed t = false
    | None => heap' = []
    end.
Proof.
  revert heap. induction fuel as [|fuel IH]; intros heap Hlen; simpl.
  { destruct heap; [|simpl in Hlen; lia]. intros [= <- <-]. by exists []. }
  destruct heap as [|[key tid] rest] eqn:Hheap.
  { intros [= <- <-]. by exists []. }
  rewrite <-Hheap.
  assert (match heapq.heappop heap with
          | Some (_, heap1) => peek_loop fuel d heap1
          | None => (None, heap)
          end = (r, heap') →
          ¬ live d (key, tid) →
          ∃ dropped, heap ≡ₚ dropped ++ heap'
            ∧ Forall (λ e, ¬ live d e) dropped
            ∧ match r with
              | Some t => ∃ e, head heap' = Some e ∧ Py.get e.2 d = Some t
                               ∧ completed t = false
              | None => heap' = []
              end) as Hdiscard.
  { destruct (heapq.heappop heap) as [[e0 heap1]|] eqn:Hpop.
    - apply heappop_Some in Hpop as [Hhead Hperm].
      rewrite Hheap in Hhead. injection Hhead as <-.
      intros Hloop Hdead. apply IH in Hloop as (dropped & Hd & Hall & Hr).
      + exists ((key, tid) :: dropped). split_and!; [|by constructor|done].
        rewrite Hperm, Hd. done.
      + apply Permutation_length in Hperm. rewrite Hheap in *. simpl in *. lia.
    - apply heappop_None in Hpop. congruence. }
  destruct (Py.get tid d) as [t|] eqn:Ht.
  - destruct (completed t) eqn:Hc.
    + intros Hloop. apply Hdiscard; [done|].
      apply not_live_get. simpl. by rewrite Ht.
    + intros [= <- <-]. exists []. split_and!; [done|done|].
      rewrite Hheap. exists (key, tid). by simpl.
  - intros Hloop. apply Hdiscard; [done|].
    apply not_live_get. simpl. by rewrite Ht.
Qed.

(** The scan of [pop_next] stops after popping a live entry, or on the
    empty heap, after discarding entries none of which is live. *)
Lemma pop_loop_spec fuel d heap r heap' :
  (length heap ≤ fuel)%nat →
  pop_loop fuel d heap = (r, heap') →
  match r with
  | Some t =>
      ∃ dropped e, heap ≡ₚ dropped ++ e :: heap'
        ∧ Forall (λ e, ¬ live d e) dropped
        ∧ Py.get e.2 d = Some t ∧ completed t = false
  | None => heap' = [] ∧ Forall (λ e, ¬ live d e) heap
  end.
Proof.
  revert heap. induction fuel as [|fuel IH]; intros heap Hlen; simpl.
  { destruct heap; [|simpl in Hlen; lia]. by intros [= <- <-]. }
  destruct (heapq.heappop heap) as [[[key tid] heap1]|] eqn:Hpop.
  - apply heappop_Some in Hpop as [_ Hperm].
    assert (length heap1 ≤ fuel)%nat.
    { apply Permutation_length in Hperm. simpl in *. lia. }
    assert (pop_loop fuel d heap1 = (r, heap') → ¬ live d (key, tid) →
            match r with
            | Some t =>
                ∃ dropped e, heap ≡ₚ dropped ++ e :: heap'
                  ∧ Forall (λ e, ¬ live d e) dropped
                  ∧ Py.get e.2 d = Some t ∧ completed t = false
            | None => heap' = [] ∧ Forall (λ e, ¬ live d e) heap
            end) as Hdiscard.
    { intros Hloop Hdead. apply IH in Hloop; [|done]. destruct r as [t|].
      - destruct Hloop as (dropped & e & Hd & Hall & Ht).
        exists ((key, tid) :: dropped), e. split_and!; [|by constructor|apply Ht..].
        rewrite Hperm, Hd. done.
      - destruct Hloop as [-> Hall]. split; [done|].
        rewrite Hperm. by constructor. }
    destruct (Py.get tid d) as [t|] eqn:Ht.
    + destruct (completed t) eqn:Hc.
      * intros Hloop. apply Hdiscard; [done|].
        apply not_live_get. simpl. by rewrite Ht.
      * intros [= <- <-]. exists [], (key, tid). by split_and!.
    + intros Hloop. apply Hdiscard; [done|].
      apply not_live_get. simpl. by rewrite Ht.
  - apply heappop_None in Hpop as ->. by intros [= <- <-].
Qed.

Lemma peek_loop_again d heap e t :
  head heap = Some e → Py.get e.2 d = Some t → completed t = false →
  peek_loop (length heap) d heap = (Some t, heap).
Proof.
  destruct heap as [|[key tid] rest]; [done|].
  intros [= <-] Ht Hc. simpl in *. by rewrite Ht, Hc.
Qed.
End next_facts.

(** C4. In every state, [peek_next] and [pop_next] return either no task
    or a task that the store holds, under the id of a heap entry, and that
    is not completed; each returns no task exactly when no heap entry is
    the id of a stored task that is not completed; neither changes the
    store; the entry of the task [peek_next] returns is left at the top of
    the heap, and calling [peek_next] again in the state it left returns
    the same result and leaves that state as it is. *)
Theorem peek_pop_next (w : world) :
  (∃ r heap',
      peek_next w = (Return r, set_heap heap' w)
      ∧ match r with
        | Some t =>
            completed t = false
            ∧ (∃ e, e ∈ heap w ∧ Py.get e.2 (tasks w) = Some t)
            ∧ (∃ e, head heap' = Some e ∧ Py.get e.2 (tasks w) = Some t)
        | None => True
        end
      ∧ (r = None ↔ ∀ e, e ∈ heap w → ¬ live (tasks w) e)
      ∧ peek_next (set_heap heap' w) = (Return r, set_heap heap' w))
  ∧ (∃ r heap',
      pop_next w = (Return r, set_heap heap' w)
      ∧ match r with
        | Some t =>
            completed t = false
            ∧ (∃ e, e ∈ heap w ∧ Py.get e.2 (tasks w) = Some t)
        | None => True
        end
      ∧ (r = None ↔ ∀ e, e ∈ heap w → ¬ live (tasks w) e)).
Proof.
  split.
  - unfold peek_next.
    destruct (peek_loop _ _ _) as [r heap'] eqn:Hloop.
    exists r, heap'. split; [done|].
    apply peek_loop_spec in Hloop as (dropped & Hperm & Hdead & Hr); [|done].
    rewrite Forall_forall in Hdead. split_and!.
    + destruct r as [t|]; [|done]. destruct Hr as (e & Hhead & Ht & Hc).
      split_and!; [done| |by eauto]. exists e. split; [|done].
      rewrite Hperm. apply elem_of_app. right. by apply head_Some_elem_of.
    + split.
      * intros ->. subst heap'. intros e. rewrite Hperm, app_nil_r. apply Hdead.
      * intros Hnone. destruct r as [t|]; [|done].
        destruct Hr as (e & Hhead & Ht & Hc). destruct (Hnone e).
        -- rewrite Hperm. apply elem_of_app. right. by apply head_Some_elem_of.
        -- by exists t.
    + simpl. destruct r as [t|].
      * destruct Hr as (e & Hhead & Ht & Hc).
        by rewrite (peek_loop_again _ _ e t).
      * by subst heap'.
  - unfold pop_next.
    destruct (pop_loop _ _ _) as [r heap'] eqn:Hloop.
    exists r, heap'. split; [done|].
    apply pop_loop_spec in Hloop; [|done]. split.
    + destruct r as [t|]; [|done].
      destruct Hloop as (dropped & e & Hperm & Hdead & Ht & Hc).
      split; [done|]. exists e. split; [|done].
      rewrite Hperm. apply elem_of_app. right. left.
    + split.
      * intros ->. destruct Hloop as [_ Hall]. by rewrite Forall_forall in Hall.
      * intros Hnone. destruct r as [t|]; [|done].
        destruct Hloop as (dropped & e & Hperm & Hdead & Ht & Hc).
        destruct (Hnone e); [|by exists t].
        rewrite Hperm. apply elem_of_app. right. left.
Qed.

(** ** Running the monad *)

Section monad_facts.
Context {A B : Type}.

Lemma bind_Return (m : M A) (k : A → M B) w b w' :
  (m ≫= k) w = (Return b, w') →
  ∃ a w0, m w = (Return a, w0) ∧ k a w0 = (Return b, w').
Proof.
  unfold mbind, M_bind, bind. destruct (m w) as [[a|e] w0]; [eauto|done].
Qed.

Lemma bind_run (m : M A) (k : A → M B) w a w0 :
  m w = (Return a, w0) → (m ≫= k) w = k a w0.
Proof. unfold mbind, M_bind, bind. by intros ->. Qed.

Lemma bind_Raise (m : M A) (k : A → M B) w e w0 :
  m w = (Raise e, w0) → (m ≫= k) w = (Raise e, w0).
Proof. unfold mbind, M_bind, bind. by intros ->. Qed.
End monad_facts.

(** A computation that leaves the tasks and the heap as they are. *)
Definition keeps_store {A} (m : M A) : Prop :=
  ∀ w r w', m w = (r, w') → tasks w' = tasks w ∧ heap w' = heap w.

Section keeps_store.
Context `{Collaborators}.

Lemma keeps_ret {A} (a : A) : keeps_store (mret a : M A).
Proof. by intros w r w' [= <- <-]. Qed.

Lemma keeps_ret' {A} (a : A) : keeps_store (ret a).
Proof. by intros w r w' [= <- <-]. Qed.

Lemma keeps_raise {A} e : keeps_store (raise e : M A).
Proof. by intros w r w' [= <- <-]. Qed.

Lemma keeps_bind {A B} (m : M A) (k : A → M B) :
  keeps_store m → (∀ a, keeps_store (k a)) → keeps_store (m ≫= k).
Proof.
  intros Hm Hk w r w'. unfold mbind, M_bind, bind.
  destruct (m w) as [[a|e] w0] eqn:Hmw.
  - intros Hkw. apply Hm in Hmw as [??]. apply Hk in Hkw as [??].
    split; congruence.
  - intros [= <- <-]. by apply Hm in Hmw.
Qed.

Lemma keeps_utcnow : keeps_store datetime_utcnow.
Proof. by intros w r w' [= <- <-]. Qed.

Lemma keeps_uuid4 : keeps_store str_uuid4.
Proof. by intros w r w' [= <- <-]. Qed.

Lemma keeps_parse text : keeps_store (parse text).
Proof. unfold parse. destruct (dateparser_parse text); by intros w r w' [= <- <-]. Qed.

Lemma keeps_get_world : keeps_store get_world.
Proof. by intros w r w' [= <- <-]. Qed.
End keeps_store.

Ltac keeps_store :=
  repeat first
    [ apply keeps_ret | apply keeps_ret' | apply keeps_raise | apply keeps_utcnow
    | apply keeps_uuid4 | apply keeps_parse | apply keeps_get_world
    | apply keeps_bind; [|intros ?]
    | progress case_match ].

Section keeps_store_ops.
Context `{Collaborators}.

Lemma keeps_ai_parse_task text : keeps_store (ai_parse_task text).
Proof. unfold ai_parse_task. keeps_store. Qed.

Lemma keeps_auto_assign title description user_deadline :
  keeps_store (auto_assign_priority_and_deadline title description user_deadline).
Proof. unfold auto_assign_priority_and_deadline. keeps_store. Qed.

Lemma keeps_ai_schedule : keeps_store ai_schedule.
Proof. unfold ai_schedule. keeps_store. Qed.

Lemma keeps_export_json : keeps_store export_json.
Proof. unfold export_json. keeps_store. Qed.
End keeps_store_ops.

Ltac inv_bind H :=
  let a := fresh "a" in
  let w0 := fresh "w" in
  let Hrun := fresh "Hrun" in
  apply bind_Return in H as (a & w0 & Hrun & H).

(** ** The heap covers the active tasks *)

Section covered_facts.
Context `{Collaborators}.
Implicit Types (d : list (string * Task)) (w : world).

Lemma completed_refresh t : completed (refresh t) = completed t.
Proof. unfold refresh. by destruct (completed t) eqn:Hc. Qed.

Lemma entry_of_refresh t : entry_of (refresh t) = entry_of t.
Proof. unfold refresh. by destruct (completed t). Qed.

Lemma elem_of_map_values {V} (f : V → V) (d : list (string * V)) k v :
  (k, v) ∈ map_values f d ↔ ∃ v0, v = f v0 ∧ (k, v0) ∈ d.
Proof.
  unfold map_values. rewrite list_elem_of_fmap. split.
  - intros ([k0 v0] & [= -> ->] & Hin). eauto.
  - intros (v0 & -> & Hin). by exists (k, v0).
Qed.

Lemma _rebuild_heap_covered w r w' : _rebuild_heap w = (r, w') → covered w'.
Proof.
  rewrite _rebuild_heap_run. intros [= <- <-] k t. simpl.
  intros (t0 & -> & Hin)%elem_of_map_values Hc.
  rewrite completed_refresh in Hc. rewrite entry_of_refresh.
  rewrite _rebuild_loop_heap, app_nil_r.
  apply list_elem_of_fmap_2, list_elem_of_filter. split; [done|].
  unfold Py.values. by apply (list_elem_of_fmap_2 snd _ (k, t0)).
Qed.

Lemma update_task_covered tid kwargs w t w' :
  update_task tid kwargs w = (Return t, w') → covered w'.
Proof.
  unfold update_task. intros Hrun. inv_bind Hrun.
  destruct a; [|done]. do 4 inv_bind Hrun.
  match goal with
  | Hreb : _rebuild_heap _ = _, Hget : get_task _ _ = _ |- _ =>
      apply _rebuild_heap_covered in Hreb; injection Hget as <- <-
  end.
  destruct (Py.get tid _); [|done]. by injection Hrun as <- <-.
Qed.

Lemma delete_task_covered tid w w' :
  delete_task tid w = (Return (), w') → covered w'.
Proof.
  unfold delete_task. intros Hrun. inv_bind Hrun.
  by apply _rebuild_heap_covered in Hrun.
Qed.

Lemma set_progress_covered tid progress w w' :
  set_progress tid progress w = (Return (), w') → covered w'.
Proof.
  unfold set_progress. intros Hrun. inv_bind Hrun.
  destruct a; [|done]. do 2 inv_bind Hrun.
  by apply _rebuild_heap_covered in Hrun.
Qed.

Lemma complete_task_covered tid w w' :
  complete_task tid w = (Return (), w') → covered w'.
Proof.
  unfold complete_task. intros Hrun. inv_bind Hrun.
  destruct a as [t|]; [|done]. inv_bind Hrun.
  destruct (filter _ _); [|done]. do 2 inv_bind Hrun.
  by apply _rebuild_heap_covered in Hrun.
Qed.

Lemma import_json_covered json_str w w' :
  import_json json_str w = (Return (), w') → covered w'.
Proof.
  unfold import_json. intros Hrun. do 5 inv_bind Hrun.
  by apply _rebuild_heap_covered in Hrun.
Qed.
End covered_facts.

Section add_task_facts.
Context `{Collaborators}.

Local Ltac use_keeps Hrun :=
  match type of Hrun with
  | ?m _ = _ =>
      let K := fresh "K" in
      assert (keeps_store m) as K
        by (keeps_store; auto using keeps_ai_parse_task, keeps_auto_assign);
      apply K in Hrun; clear K
  end.

Lemma mutate_set {V} (d : list (string * V)) k v f :
  Py.mutate k f (Py.set k v d) = Py.set k (f v) d.
Proof.
  induction d as [|[k' v'] d IH]; simpl.
  - by rewrite decide_True.
  - destruct (decide (k' = k)) as [->|]; simpl.
    + by rewrite decide_True.
    + by rewrite decide_False, IH.
Qed.

Lemma elem_of_set {V} (d : list (string * V)) k v k' v' :
  (k', v') ∈ Py.set k v d → (k' = k ∧ v' = v) ∨ (k', v') ∈ d.
Proof.
  induction d as [|[k0 v0] d IH]; simpl.
  - intros [= -> ->]%list_elem_of_singleton. by left.
  - destruct (decide (k0 = k)) as [->|].
    + intros [[= -> ->]|Hin]%elem_of_cons; [by left|]. right. by right.
    + intros [[= -> ->]|Hin]%elem_of_cons; [right; by left|].
      destruct (IH Hin); [by left|]. right. by right.
Qed.

Lemma get_set_eq {V} (d : list (string * V)) k v : Py.get k (Py.set k v d) = Some v.
Proof.
  induction d as [|[k0 v0] d IH]; simpl.
  - by rewrite decide_True.
  - destruct (decide (k0 = k)) as [->|]; simpl.
    + by rewrite decide_True.
    + by rewrite decide_False.
Qed.

Lemma entry_of_append_deps deps t : entry_of (append_deps deps t) = entry_of t.
Proof. done. Qed.

(** What a call of [add_task] that returns has done: one task, not
    completed and with no progress, is stored under its id, and its entry
    is pushed. *)
Lemma add_task_Return title description deadline_iso priority deps from_nlp
    tags minutes w t w' :
  add_task title description deadline_iso priority deps from_nlp tags minutes w
    = (Return t, w') →
  tasks w' = Py.set (id t) t (tasks w)
  ∧ heap w' = heapq.heappush (heap w) (entry_of t)
  ∧ completed t = false ∧ progress t = 0
  ∧ sort_index t = ordering_key t.
Proof.
  unfold add_task. intros Hrun.
  inv_bind Hrun. destruct a as [[[title' description'] deadline_iso'] priority'].
  use_keeps Hrun0. destruct Hrun0 as [Ht0 Hh0].
  inv_bind Hrun. use_keeps Hrun0. destruct Hrun0 as [Ht1 Hh1].
  inv_bind Hrun.
  destruct a0 as [[[[priority'' deadline''] auto_tags] estimated_minutes] auto_assigned].
  use_keeps Hrun0. destruct Hrun0 as [Ht2 Hh2].
  inv_bind Hrun. injection Hrun0 as <- <-.
  inv_bind Hrun. injection Hrun0 as <- <-.
  cbv zeta in Hrun. do 4 inv_bind Hrun.
  repeat match goal with
         | Hm : modify _ _ = _ |- _ => injection Hm as <- <-
         | Hm : mutate_task _ _ _ = _ |- _ => injection Hm as <- <-
         end.
  injection Hrun as <- <-. simpl.
  rewrite !mutate_set, Ht2, Ht1, Ht0, Hh2, Hh1, Hh0. done.
Qed.

Lemma add_task_covered title description deadline_iso priority deps from_nlp
    tags minutes w t w' :
  add_task title description deadline_iso priority deps from_nlp tags minutes w
    = (Return t, w') →
  covered w → covered w'.
Proof.
  intros (Htasks & Hheap & _)%add_task_Return Hcov k t0.
  rewrite Htasks, Hheap, heappush_Permutation.
  intros [[-> ->]|Hin]%elem_of_set Hc; [left|right]. by eapply Hcov.
Qed.
End add_task_facts.

(** C10, as the code has it.  A call of [update_task], [delete_task],
    [set_progress], [complete_task] or [import_json] that returns leaves a
    heap in which every task that is not completed has an entry made of its
    id and of its current ordering key; a call of [add_task] that returns
    keeps that property when it held before the call. *)
Theorem heap_covers_active_tasks `{Collaborators} (c : command) (w w' : world) :
  exec c w = (Return (), w') →
  rebuilds c = true ∨ covered w →
  covered w'.
Proof.
  intros Hrun Hpre. destruct c; simpl in Hrun.
  - destruct Hpre as [|Hcov]; [done|]. inv_bind Hrun. injection Hrun as <-.
    by eapply add_task_covered.
  - inv_bind Hrun. injection Hrun as <-. by eapply update_task_covered.
  - by eapply delete_task_covered.
  - by eapply set_progress_covered.
  - by eapply complete_task_covered.
  - by eapply import_json_covered.
Qed.

(** C10 as stated fails: after [pop_next] has removed the entry of
    [task-0], a call of [add_task] returns and leaves [task-0] in the
    store, not completed, without any entry in the heap. *)
Lemma add_task_after_pop_next_not_covered :
  exec (H := Demo.collaborators) Sample.add_third Sample.popped
    = (Return (), Sample.after (exec (H := Demo.collaborators) Sample.add_third) Sample.popped)
  ∧ ¬ covered (Sample.after (exec (H := Demo.collaborators) Sample.add_third) Sample.popped).
Proof.
  split; [by vm_compute|]. intros Hcov.
  assert (∃ t, ("task-0", t)
               ∈ tasks (Sample.after (exec (H := Demo.collaborators) Sample.add_third)
                          Sample.popped)
               ∧ completed t = false
               ∧ entry_of t
                 ∉ heap (Sample.after (exec (H := Demo.collaborators) Sample.add_third)
                           Sample.popped)) as (t & Hin & Hc & Hout).
  { eexists. split_and!.
    - vm_compute. left.
    - reflexivity.
    - apply (bool_decide_unpack _). by vm_compute. }
  by apply Hout, (Hcov "task-0").
Qed.

Lemma heap_covers_active_tasks_witness :
  exec (H := Demo.collaborators) (SetProgress "task-1" 40) Sample.popped
    = (Return (), Sample.after (exec (H := Demo.collaborators) (SetProgress "task-1" 40))
                    Sample.popped)
  ∧ (rebuilds (SetProgress "task-1" 40) = true ∨ covered Sample.popped)
  ∧ covered (Sample.after (exec (H := Demo.collaborators) (SetProgress "task-1" 40))
               Sample.popped).
Proof.
  split; [by vm_compute|]. split; [by left|].
  apply (heap_covers_active_tasks (H := Demo.collaborators)
           (SetProgress "task-1" 40) Sample.popped).
  - by vm_compute.
  - by left.
Defined.

(** ** Completion and progress outside [complete_task] *)

(** C1, at the failing input.  [task-1] depends on [task-0], which is not
    completed, and on an id that no task has.  [complete_task] refuses with
    these two ids, but [set_progress] with 100 and [update_task] with
    [completed=True] both return and leave the task completed. *)
Theorem completion_without_dependency_check :
  (∃ t, Py.get "task-1" (tasks Sample.two_tasks) = Some t
        ∧ completed t = false
        ∧ unmet_dependencies (tasks Sample.two_tasks) t = ["task-0"; "ghost"])
  ∧ complete_task "task-1" Sample.two_tasks
    = (Raise (RuntimeError ["task-0"; "ghost"]), Sample.two_tasks)
  ∧ (∃ w' t', set_progress "task-1" 100 Sample.two_tasks = (Return (), w')
              ∧ Py.get "task-1" (tasks w') = Some t'
              ∧ completed t' = true
              ∧ unmet_dependencies (tasks w') t' = ["task-0"; "ghost"])
  ∧ (∃ w' t', update_task (H := Demo.collaborators) "task-1" [kw_completed true]
                Sample.two_tasks = (Return t', w')
              ∧ Py.get "task-1" (tasks w') = Some t'
              ∧ completed t' = true
              ∧ unmet_dependencies (tasks w') t' = ["task-0"; "ghost"]).
Proof.
  split_and!.
  - eexists. split_and!; [by vm_compute|done|by vm_compute].
  - by vm_compute.
  - eexists _, _. split_and!; [by vm_compute|by vm_compute|done|by vm_compute].
  - eexists _, _. split_and!; [by vm_compute|by vm_compute|done|by vm_compute].
Qed.

(** C2, at the failing input.  [update_task] stores the progress it is
    given: 150 stays 150, and 100 leaves the task not completed. *)
Theorem update_task_progress_unchecked :
  (∃ w' t', update_task (H := Demo.collaborators) "task-0" [kw_progress 150]
              Sample.one_task = (Return t', w')
            ∧ Py.get "task-0" (tasks w') = Some t'
            ∧ progress t' = 150)
  ∧ (∃ w' t', update_task (H := Demo.collaborators) "task-0" [kw_progress 100]
                Sample.one_task = (Return t', w')
              ∧ Py.get "task-0" (tasks w') = Some t'
              ∧ progress t' = 100 ∧ completed t' = false).
Proof.
  split; eexists _, _; split_and!; by vm_compute.
Qed.

(** The part of C2 that holds: [add_task] and [set_progress] keep the
    progress invariant of every task of the store. *)
Section progress_facts.
Context `{Collaborators}.

Lemma progress_ok_refresh t : progress_ok (refresh t) ↔ progress_ok t.
Proof. unfold refresh. by destruct (completed t) eqn:Hc. Qed.

Lemma elem_of_mutate {V} (d : list (string * V)) k f k' v' :
  (k', v') ∈ Py.mutate k f d →
  (k', v') ∈ d ∨ (k' = k ∧ ∃ v, (k, v) ∈ d ∧ v' = f v).
Proof.
  induction d as [|[k0 v0] d IH]; simpl; [by left|].
  destruct (decide (k0 = k)) as [->|].
  - intros [[= -> ->]|Hin]%elem_of_cons.
    + right. split; [done|]. exists v0. split; [left|done].
    + left. by right.
  - intros [[= -> ->]|Hin]%elem_of_cons; [left; left|].
    destruct (IH Hin) as [|(-> & v & ? & ->)]; [left; by right|].
    right. split; [done|]. exists v. split; [by right|done].
Qed.

Lemma add_task_progress_ok title description deadline_iso priority deps from_nlp
    tags minutes w t w' :
  add_task title description deadline_iso priority deps from_nlp tags minutes w
    = (Return t, w') →
  store_progress_ok w → store_progress_ok w'.
Proof.
  intros (Htasks & _ & Hc & Hp & _)%add_task_Return Hok k t0.
  rewrite Htasks. intros [[-> ->]|Hin]%elem_of_set; [|by eapply Hok].
  unfold progress_ok. rewrite Hp. lia.
Qed.

Lemma set_progress_progress_ok tid progress w w' :
  set_progress tid progress w = (Return (), w') →
  store_progress_ok w → store_progress_ok w'.
Proof.
  unfold set_progress. intros Hrun Hok. inv_bind Hrun.
  destruct a as [t|]; [|done]. injection Hrun0 as _ <-.
  do 2 inv_bind Hrun. rewrite _rebuild_heap_run in Hrun.
  injection Hrun as <-. injection Hrun0 as <- <-.
  intros k t' (t1 & -> & Hin)%elem_of_map_values. apply progress_ok_refresh.
  revert Hrun1 Hin. case_bool_decide as Hfull.
  - intros [= <- <-]. simpl. rewrite mutate_mutate.
    intros [|(-> & t0 & ? & ->)]%elem_of_mutate; [by eapply Hok|].
    split; simpl; [lia|done].
  - intros [= <- <-]. simpl.
    intros [|(-> & t0 & ? & ->)]%elem_of_mutate; [by eapply Hok|].
    split; simpl; [lia|done].
Qed.
End progress_facts.

(** ** Failing calls *)

(** C5, at the failing inputs.  [update_task] has already renamed the
    task when the deadline fails to parse, and the heap is not rebuilt;
    [import_json] has already emptied the store when a record fails to
    parse, and the heap keeps the entries of the tasks that are gone. *)
Theorem failing_calls_change_the_store :
  (∃ w', update_task (H := Demo.collaborators) "task-0"
           [kw_title "Renamed"; kw_deadline (Some "next week")] Sample.one_task
         = (Raise (ParserError "next week"), w')
         ∧ title <$> Py.get "task-0" (tasks Sample.one_task) = Some "Write report"
         ∧ title <$> Py.get "task-0" (tasks w') = Some "Renamed")
  ∧ (∃ w', import_json (H := Demo.collaborators) bad_record_payload Sample.two_tasks
           = (Raise (ParserError "soon"), w')
           ∧ length (tasks Sample.two_tasks) = 2%nat
           ∧ tasks w' = []
           ∧ heap w' = heap Sample.two_tasks).
Proof.
  split; eexists; split_and!; by vm_compute.
Qed.

(** The parts of C5 that hold: [add_task] raises before it touches the
    store, and [import_json] leaves the state as it is when the text is not
    JSON. *)
Section failing_facts.
Context `{Collaborators}.

Lemma bind_Raise_inv {A B} (m : M A) (k : A → M B) w e w' :
  (m ≫= k) w = (Raise e, w') →
  m w = (Raise e, w') ∨ ∃ a w0, m w = (Return a, w0) ∧ k a w0 = (Raise e, w').
Proof.
  unfold mbind, M_bind, bind. destruct (m w) as [[a|e0] w0]; [eauto|].
  intros [= <- <-]. by left.
Qed.

Local Ltac use_keeps Hrun :=
  match type of Hrun with
  | ?m _ = _ =>
      let K := fresh "K" in
      assert (keeps_store m) as K
        by (keeps_store; auto using keeps_ai_parse_task, keeps_auto_assign);
      apply K in Hrun; clear K
  end.

Local Ltac step Hrun :=
  let Hfail := fresh "Hfail" in
  let a := fresh "a" in
  let w0 := fresh "w" in
  let Hok := fresh "Hok" in
  apply bind_Raise_inv in Hrun as [Hfail|(a & w0 & Hok & Hrun)];
  [use_keeps Hfail; destruct Hfail; split; congruence
  |use_keeps Hok; destruct Hok].

Lemma add_task_Raise title description deadline_iso priority deps from_nlp
    tags minutes w e w' :
  add_task title description deadline_iso priority deps from_nlp tags minutes w
    = (Raise e, w') →
  tasks w' = tasks w ∧ heap w' = heap w.
Proof.
  unfold add_task. intros Hrun.
  step Hrun. destruct a as [[[title' description'] deadline_iso'] priority'].
  step Hrun. step Hrun.
  destruct a0 as [[[[priority'' deadline''] auto_tags] estimated_minutes] auto_assigned].
  step Hrun. step Hrun. cbv zeta in Hrun.
  by repeat (apply bind_Raise_inv in Hrun as [?|(? & ? & ? & Hrun)]; [done|]).
Qed.

Lemma import_json_not_json json_str w :
  json_loads json_str = None →
  import_json json_str w = (Raise JSONDecodeError, w).
Proof. unfold import_json. by intros ->. Qed.
End failing_facts.

(** ** The heuristic estimator and the parse stub *)

Section text_facts.
Lemma prefix_lower k s :
  String.prefix k s = true → String.prefix (Py.lower k) (Py.lower s) = true.
Proof.
  revert s. induction k as [|c k IH]; intros [|c' s]; simpl; try done.
  destruct (ascii_dec c c') as [->|]; [|done].
  intros Hks. destruct (ascii_dec _ _); [|done]. by apply IH.
Qed.

(** A text that contains [k] contains the lower-case [k] once it is
    lowered. *)
Lemma contains_lower k s :
  Py.contains k s = true → Py.contains (Py.lower k) (Py.lower s) = true.
Proof.
  induction s as [|c s IH].
  - by destruct k.
  - cbn [Py.contains Py.lower].
    destruct (String.prefix k (String c s)) eqn:Hp.
    + intros _. apply prefix_lower in Hp. cbn [Py.lower] in Hp. by rewrite Hp.
    + intros Hc. rewrite (IH Hc). by case_match.
Qed.
End text_facts.

Section estimator_facts.
Context `{Collaborators}.

(** What a call of the estimator that returns has returned. *)
Lemma auto_assign_Return title description user_deadline w p d tags minutes w' :
  auto_assign_priority_and_deadline title description user_deadline w
  = (Return (p, d, tags, minutes), w') →
  d = user_deadline
  ∧ minutes = Z.max 15 (Z.min (8 * (Py.len_split description / 20 + 1)) (8 * 10))
  ∧ (p = 1 ∨ p = 2 ∨ p = 3 ∨ p = 5 ∨ p = 7)
  ∧ (tags = [] ↔ p = 5)
  ∧ tasks w' = tasks w ∧ heap w' = heap w.
Proof.
  unfold auto_assign_priority_and_deadline. cbv zeta.
  set (text := Py.lower _).
  destruct (Py.any_in _ text);
    [|destruct (Py.contains "high" text || Py.contains "important" text);
      [|destruct (Py.contains "low" text || Py.contains "whenever" text)]];
    (destruct user_deadline as [[z [offset|]]|]; run_monad;
     repeat case_bool_decide; intros [= <- <- <- <- <-];
     split_and!; (done || lia || (split; (done || lia)))).
Qed.

(** With an offset-aware deadline the subtraction from the clock
    reading raises. *)
Lemma auto_assign_aware title description z offset w :
  auto_assign_priority_and_deadline title description
    (Some (Datetime z (Some offset))) w
  = (Raise TypeError,
     World (tasks w) (heap w) (S (clock_reads w)) (uuid_draws w)).
Proof.
  unfold auto_assign_priority_and_deadline. cbv zeta.
  destruct (Py.any_in _ _);
    [|destruct (_ || _); [|destruct (_ || _)]]; by run_monad.
Qed.

(** C8, as the code has it.  Whatever the title and the description, with
    no deadline or a naive one the estimator returns; when the lowered
    text [title description] contains [urgent] the priority is 1; the
    priority with a deadline is never larger than the priority the same
    text gets without one; and a deadline at most 12 hours after the
    clock reading, in particular 6 hours after it, gives a priority of
    at most 1. *)
Theorem auto_assign_priority (title description : string)
    (user_deadline : option datetime) (w : world) :
  naive_deadline user_deadline →
  ∃ p tags minutes w',
    auto_assign_priority_and_deadline title description user_deadline w
      = (Return (p, user_deadline, tags, minutes), w')
    ∧ (Py.contains "urgent" (Py.lower (title +:+ " " +:+ description)) = true →
       p = 1)
    ∧ (∃ p0 tags0,
         auto_assign_priority_and_deadline title description None w
           = (Return (p0, None, tags0, minutes), w)
         ∧ p ≤ p0)
    ∧ (∀ z, user_deadline = Some (naive z) →
            z - utcnow (clock_reads w) ≤ hours 12 → p ≤ 1)
    ∧ (user_deadline = Some (naive (utcnow (clock_reads w) + hours 6)) → p ≤ 1).
Proof.
  intros Hnaive.
  unfold auto_assign_priority_and_deadline. cbv zeta.
  set (text := Py.lower _).
  assert (Py.contains "urgent" text = true →
          Py.any_in ["urgent"; "asap"; "immediately"] text = true) as Hany.
  { unfold Py.any_in. simpl. by intros ->. }
  destruct user_deadline as [[z [offset|]]|]; [done|..];
    (destruct (Py.any_in _ text);
     [|destruct (Py.contains "high" text || Py.contains "important" text);
       [|destruct (Py.contains "low" text || Py.contains "whenever" text)]]);
    run_monad; repeat case_bool_decide; eexists _, _, _, _;
    (split_and!;
     [done
     |first [done | intros Hu; by apply Hany in Hu]
     |eexists _, _; split; [done|lia]
     |first [done | intros ? [= <-]; lia]
     |first [done | intros [= ->]; unfold hours, seconds in *; lia]]).
Qed.

(** C9. The parse stub returns; when the lowered text contains
    [tomorrow] the deadline is the clock reading plus one day, also
    when it contains [today] as well; when it contains [today] and not
    [tomorrow] the deadline is the clock reading. *)
Theorem ai_parse_task_deadline (natural_text : string) (w : world) :
  ∃ p w',
    ai_parse_task natural_text w = (Return p, w')
    ∧ (Py.contains "tomorrow" (Py.lower natural_text) = true →
       parsed_deadline p
       = Some (isoformat (naive (utcnow (clock_reads w) + days 1))))
    ∧ (Py.contains "today" (Py.lower natural_text) = true →
       Py.contains "tomorrow" (Py.lower natural_text) = false →
       parsed_deadline p = Some (isoformat (naive (utcnow (clock_reads w)))))
    ∧ (Py.contains "today" (Py.lower natural_text) = true →
       Py.contains "tomorrow" (Py.lower natural_text) = true →
       parsed_deadline p
       = Some (isoformat (naive (utcnow (clock_reads w) + days 1)))).
Proof.
  unfold ai_parse_task.
  destruct (Py.contains "tomorrow" _); [|destruct (Py.contains "today" _)];
    run_monad; eexists _, _; by split_and!.
Qed.
End estimator_facts.

(** C8 as stated fails when the deadline carries an offset from UTC, as
    the date parser returns for a text with a zone: the text says urgent
    and the estimator returns no priority, it raises [TypeError]. *)
Lemma auto_assign_priority_aware_deadline :
  Py.contains "urgent" (Py.lower ("Fix the urgent leak" +:+ " " +:+ "")) = true
  ∧ Demo.dateparser_parse "1700021600000000+0"
    = Some (Datetime (Demo.utcnow 0 + hours 6) (Some 0))
  ∧ (auto_assign_priority_and_deadline (H := Demo.collaborators)
       "Fix the urgent leak" "" (Some (Datetime (Demo.utcnow 0 + hours 6) (Some 0)))
       TaskManager_init).1
    = Raise TypeError
  ∧ (¬ ∃ p d tags minutes w',
         auto_assign_priority_and_deadline (H := Demo.collaborators)
           "Fix the urgent leak" "" (Some (Datetime (Demo.utcnow 0 + hours 6) (Some 0)))
           TaskManager_init
         = (Return (p, d, tags, minutes), w'))
  ∧ (add_task (H := Demo.collaborators) "Fix the urgent leak" ""
       (Some "1700021600000000+0") None None false None None TaskManager_init).1
    = Raise TypeError.
Proof.
  split_and!; try by vm_compute.
  intros (p & d & tags & minutes & w' & Hrun). by vm_compute in Hrun.
Qed.

(** The estimator on a text that says urgent in capitals next to
    low-priority words, with a naive deadline six hours after the clock
    reading. *)
Lemma auto_assign_priority_witness :
  naive_deadline (Some (naive (Demo.utcnow 0 + hours 6)))
  ∧ Py.contains "urgent" (Py.lower ("Call the URGENT client" +:+ " " +:+ "low, whenever"))
    = true
  ∧ ∃ tags minutes w',
      auto_assign_priority_and_deadline (H := Demo.collaborators)
        "Call the URGENT client" "low, whenever"
        (Some (naive (Demo.utcnow 0 + hours 6))) TaskManager_init
      = (Return (1, Some (naive (Demo.utcnow 0 + hours 6)), tags, minutes), w').
Proof.
  split; [done|]. split; [by vm_compute|].
  destruct (auto_assign_priority (H := Demo.collaborators)
              "Call the URGENT client" "low, whenever"
              (Some (naive (Demo.utcnow 0 + hours 6))) TaskManager_init)
    as (p & tags & minutes & w' & Hrun & Hurgent & _); [done|].
  exists tags, minutes, w'. rewrite Hrun.
  rewrite (Hurgent ltac:(by vm_compute)). done.
Defined.

(** The parse stub on a text that says both today and tomorrow. *)
Lemma ai_parse_task_deadline_witness :
  Py.contains "today" (Py.lower "Pay rent today or Tomorrow") = true
  ∧ Py.contains "tomorrow" (Py.lower "Pay rent today or Tomorrow") = true
  ∧ ∃ p w',
      ai_parse_task (H := Demo.collaborators) "Pay rent today or Tomorrow"
        TaskManager_init = (Return p, w')
      ∧ parsed_deadline p = Some (Demo.isoformat (naive (Demo.utcnow 0 + days 1))).
Proof.
  split; [by vm_compute|]. split; [by vm_compute|].
  destruct (ai_parse_task_deadline (H := Demo.collaborators)
              "Pay rent today or Tomorrow" TaskManager_init)
    as (p & w' & Hrun & Htomorrow & _).
  exists p, w'. split; [done|]. apply Htomorrow. by vm_compute.
Defined.
(** ** Floats: the order *)

Section float_order.
Import SpecFloat.

(** From a strict total order, [not b < a] is a total preorder. *)
Lemma strict_total_refl {A} (ltb : A → A → bool) :
  strict_total ltb → Reflexive (λ a b, ltb b a = false).
Proof. intros Hst a. apply Hst. Qed.

Lemma strict_total_trans {A} (ltb : A → A → bool) :
  strict_total ltb → Transitive (λ a b, ltb b a = false).
Proof.
  intros Hst a b c Hab Hbc. destruct (ltb c a) eqn:Hca; [|done].
  destruct (ltb_total _ Hst a b) as [Hlt|[->|Hlt]]; [|congruence..].
  by rewrite (ltb_trans _ Hst _ _ _ Hca Hlt) in Hbc.
Qed.

Lemma strict_total_total {A} (ltb : A → A → bool) :
  strict_total ltb → Total (λ a b, ltb b a = false).
Proof.
  intros Hst a b. destruct (ltb b a) eqn:Hba; [|by left].
  right. destruct (ltb a b) eqn:Hab; [|done].
  pose proof (ltb_trans _ Hst _ _ _ Hab Hba) as Haa.
  by rewrite (ltb_irrefl _ Hst) in Haa.
Qed.

Lemma rank_ltb_strict_total : strict_total rank_ltb.
Proof.
  exact (lex_strict_total _ _ Z_ltb_strict_total
           (lex_strict_total _ _ Z_ltb_strict_total Z_ltb_strict_total)).
Qed.

Global Instance rank_le_refl : Reflexive rank_le.
Proof. apply (strict_total_refl _ rank_ltb_strict_total). Qed.

Global Instance rank_le_trans : Transitive rank_le.
Proof. apply (strict_total_trans _ rank_ltb_strict_total). Qed.

Global Instance rank_le_total : Total rank_le.
Proof. apply (strict_total_total _ rank_ltb_strict_total). Qed.



End float_order.

(** ** Floats: rounding *)

Section float_rounding.
Import SpecFloat.

Lemma digits2_pos_spec p :
  2 ^ (Z.pos (digits2_pos p) - 1) ≤ Z.pos p < 2 ^ Z.pos (digits2_pos p).
Proof.
  induction p as [p IH|p IH|]; cbn [digits2_pos]; [| |done];
    rewrite Pos2Z.inj_succ;
    replace (Z.succ (Z.pos (digits2_pos p)) - 1) with (Z.succ (Z.pos (digits2_pos p) - 1))
      by lia;
    rewrite !Z.pow_succ_r by lia; lia.
Qed.

Lemma shr_1_m mrs : 0 ≤ shr_m mrs → shr_m (shr_1 mrs) = shr_m mrs / 2.
Proof.
  destruct mrs as [m r s]. cbn [shr_m shr_1]. intros Hm. rewrite <-Z.div2_div.
  destruct m as [|[p|p|]|]; try done.
Qed.

Lemma iter_shr_1_m p mrs :
  0 ≤ shr_m mrs → shr_m (iter_pos shr_1 p mrs) = shr_m mrs / 2 ^ Z.pos p.
Proof.
  revert mrs. induction p as [p IH|p IH|]; intros mrs Hm; cbn [iter_pos].
  - assert (0 ≤ shr_m (shr_1 mrs)) as H1.
    { rewrite shr_1_m by done. by apply Z.div_pos. }
    assert (0 ≤ shr_m (iter_pos shr_1 p (shr_1 mrs))) as H2.
    { rewrite IH by done. apply Z.div_pos; [done|]. by apply Z.pow_pos_nonneg. }
    rewrite IH, IH, shr_1_m by done.
    assert (0 < 2 ^ Z.pos p) as Hpow by by apply Z.pow_pos_nonneg.
    rewrite !Z.div_div by lia.
    f_equal. replace (Z.pos p~1) with (1 + Z.pos p + Z.pos p) by lia.
    rewrite !Z.pow_add_r by lia. ring.
  - assert (0 ≤ shr_m (iter_pos shr_1 p mrs)) as H2.
    { rewrite IH by done. apply Z.div_pos; [done|]. by apply Z.pow_pos_nonneg. }
    rewrite IH, IH by done.
    assert (0 < 2 ^ Z.pos p) as Hpow by by apply Z.pow_pos_nonneg.
    rewrite !Z.div_div by lia.
    f_equal. replace (Z.pos p~0) with (Z.pos p + Z.pos p) by lia.
    by rewrite Z.pow_add_r by lia.
  - by rewrite shr_1_m.
Qed.

Lemma shr_record_of_loc_m m l : shr_m (shr_record_of_loc m l) = m.
Proof. by destruct l as [|[]]. Qed.

(** Shifting to the exponent of the format keeps a mantissa that is
    not negative so, and a positive one positive when the exponent is
    not below the least one. *)
Lemma shr_fexp_m m e l mrs e' :
  shr_fexp float.prec float.emax m e l = (mrs, e') →
  (0 ≤ m → 0 ≤ shr_m mrs)
  ∧ (0 < m → -1074 ≤ e → 0 < shr_m mrs ∧ -1074 ≤ e').
Proof.
  unfold shr_fexp, shr, fexp, emin, float.prec, float.emax.
  destruct (Z.max (Zdigits2 m + e - 53) (3 - 1024 - 53) - e) as [|n|n] eqn:Hn;
    intros [= <- <-]; rewrite ?shr_record_of_loc_m; try (split; intros; lia).
  split.
  - intros Hm. rewrite iter_shr_1_m by by rewrite shr_record_of_loc_m.
    rewrite shr_record_of_loc_m. apply Z.div_pos; [done|]. by apply Z.pow_pos_nonneg.
  - intros Hm He. rewrite iter_shr_1_m by (rewrite shr_record_of_loc_m; lia).
    rewrite shr_record_of_loc_m. split; [|lia].
    destruct m as [|p|p]; [lia| |lia]. cbn [Zdigits2] in Hn.
    pose proof (digits2_pos_spec p) as [Hlow _].
    apply Z.div_str_pos. split; [by apply Z.pow_pos_nonneg|].
    etrans; [|exact Hlow]. apply Z.pow_le_mono_r; lia.
Qed.

Lemma round_nearest_even_ge m l : m ≤ round_nearest_even m l.
Proof. destruct l as [|[]]; simpl; try lia. destruct (Z.even m); lia. Qed.

(** The result of a rounding is no NaN and has the sign asked for; it is
    not zero when the mantissa is positive and the exponent not below
    the least one. *)
Lemma binary_round_aux_shape sx mx ex lx :
  0 ≤ mx →
  is_nan (binary_round_aux float.prec float.emax sx mx ex lx) = false
  ∧ sign_of (binary_round_aux float.prec float.emax sx mx ex lx) = sx
  ∧ (0 < mx → -1074 ≤ ex →
     ∀ s, binary_round_aux float.prec float.emax sx mx ex lx ≠ S754_zero s).
Proof.
  intros Hmx. unfold binary_round_aux.
  destruct (shr_fexp _ _ mx ex lx) as [mrs1 e1] eqn:H1.
  destruct (shr_fexp _ _ (round_nearest_even _ _) e1 loc_Exact) as [mrs2 e2] eqn:H2.
  apply shr_fexp_m in H1 as [H1 H1']. apply shr_fexp_m in H2 as [H2 H2'].
  pose proof (round_nearest_even_ge (shr_m mrs1) (loc_of_shr_record mrs1)) as Hge.
  specialize (H1 Hmx). specialize (H2 ltac:(lia)).
  destruct (shr_m mrs2) as [|m2|m2] eqn:Hm2; [| |lia].
  - split_and!; [done..|]. intros Hpos Hex. destruct (H1' Hpos Hex) as [? ?].
    destruct H2'; lia.
  - destruct (_ <=? _); by split_and!.
Qed.

Lemma binary_round_shape sx m e :
  is_nan (binary_round float.prec float.emax sx m e) = false
  ∧ sign_of (binary_round float.prec float.emax sx m e) = sx.
Proof.
  unfold binary_round. destruct (shl_align _ _ _) as [mz ez].
  by destruct (binary_round_aux_shape sx (Z.pos mz) ez loc_Exact) as (? & ? & _).
Qed.

Lemma binary_normalize_shape m e :
  is_nan (binary_normalize float.prec float.emax m e false) = false.
Proof. destruct m as [|p|p]; [done|..]; apply binary_round_shape. Qed.
End float_rounding.

(** ** Floats: the operations of the score *)

Section float_operations.
Import SpecFloat.

Lemma lit_not_nan n : is_nan (float.lit n) = false.
Proof. apply binary_normalize_shape. Qed.


Lemma is_finite_not_nan f : is_finite f = true → is_nan f = false.
Proof. by destruct f. Qed.





End float_operations.

(** ** [list.sort] *)

Section sort_facts.
Context {A K : Type} (key : A → K) (le : K → K → Prop) `{!RelDecision le}.
Context `{!EqDecision K} `{!Reflexive le} `{!Transitive le} `{!Total le}.

Local Abbreviation R := (λ a b, le (key a) (key b)).








End sort_facts.

(** Two sorts whose tests agree on the elements give the same list. *)
Section sort_ext.
Context {A K1 K2 : Type} (key1 : A → K1) (le1 : K1 → K1 → Prop) `{!RelDecision le1}.
Context (key2 : A → K2) (le2 : K2 → K2 → Prop) `{!RelDecision le2}.


End sort_ext.

Section list_facts.
Context {A : Type}.


End list_facts.

(** ** [ai_schedule] *)

Section schedule_facts.
Context `{Collaborators}.
Implicit Types (now : Z) (t : Task).








End schedule_facts.



(** ** Export and import *)

Section roundtrip_facts.
Context `{Collaborators}.
Hypothesis isoformat_parse :
  ∀ d, isoformat d ≠ "" ∧ dateparser_parse (isoformat d) = Some d.

Lemma truthy_isoformat d : truthy (JStr (isoformat d)) = true.
Proof. destruct (isoformat_parse d) as [Hne _]. simpl. by destruct (isoformat d). Qed.

Lemma parse_isoformat d w : parse (isoformat d) w = (Return d, w).
Proof. unfold parse. by destruct (isoformat_parse d) as [_ ->]. Qed.

Lemma as_strs_JStr l : as_strs (JStr <$> l) = ret l.
Proof.
  induction l as [|s l IH]; [done|]. rewrite fmap_cons. cbn [as_strs].
  by rewrite IH.
Qed.

(** Reading back the mapping of a task gives the task, with its key
    recomputed, and draws one uuid. *)
Lemma from_dict_to_dict t w :
  from_dict (to_dict t) w
  = (Return (__post_init__ t),
     World (tasks w) (heap w) (clock_reads w) (S (uuid_draws w))).
Proof.
  unfold from_dict, to_dict.
  match goal with |- context [get_or JNull "deadline" ?l] => set (d := l) end.
  change (get_or JNull "deadline" d)
    with (match deadline t with Some x => JStr (isoformat x) | None => JNull end).
  change (get_or (JInt 5) "priority" d) with (JInt (priority t)).
  change (get_or (JStr "") "title" d) with (JStr (title t)).
  change (get_or (JStr "") "description" d) with (JStr (description t)).
  change (get_or JNull "created_at" d) with (JStr (isoformat (created_at t))).
  change (get_or (JBool false) "completed" d) with (JBool (completed t)).
  change (get_or (JInt 0) "progress" d) with (JInt (progress t)).
  change (get_or (JList []) "dependencies" d) with (JList (JStr <$> dependencies t)).
  change (get_or (JList []) "tags" d) with (JList (JStr <$> tags t)).
  change (get_or JNull "estimated_minutes" d)
    with (match estimated_minutes t with Some m => JInt m | None => JNull end).
  change (get_or (JBool false) "auto_assigned" d) with (JBool (auto_assigned t)).
  change (get_or (JBool false) "reminded" d) with (JBool (reminded t)).
  subst d. cbn [as_str_list]. rewrite !as_strs_JStr, truthy_isoformat.
  unfold parse_value, parse.
  destruct (isoformat_parse (created_at t)) as [_ ->].
  destruct t as [? ? [dl|] ? ? ? ? ? ? ? ? [m|] ? ?]; cbn [deadline estimated_minutes];
    [rewrite truthy_isoformat; destruct (isoformat_parse dl) as [_ ->]..| |];
    reflexivity.
Qed.

Lemma set_fresh {V} (d : list (string * V)) k v :
  k ∉ d.*1 → Py.set k v d = d ++ [(k, v)].
Proof.
  induction d as [|[k' v'] d IH]; simpl; [done|].
  intros [Hne Hnotin]%not_elem_of_cons.
  rewrite decide_False by done. by rewrite IH.
Qed.

(** The loop of [import_json] over the records of a snapshot whose ids
    are distinct and not in the store yet. *)
Lemma import_loop ts w :
  NoDup ((tasks w).*1 ++ (id <$> ts)) →
  for_each (to_dict <$> ts)
    (λ td, t ← from_dict td;
           modify (λ w, set_tasks (Py.set (id t) t (tasks w)) w)) w
  = (Return (),
     World (tasks w ++ ((λ t, (id t, __post_init__ t)) <$> ts)) (heap w)
       (clock_reads w) (uuid_draws w + length ts)).
Proof.
  revert w. induction ts as [|t ts IH]; intros w Hnodup.
  { simpl. rewrite app_nil_r, Nat.add_0_r. by destruct w. }
  rewrite fmap_cons. cbn [for_each].
  erewrite bind_run; last first.
  { erewrite bind_run by apply from_dict_to_dict. reflexivity. }
  rewrite IH; simpl.
  - rewrite set_fresh.
    + rewrite <-app_assoc. simpl. do 2 f_equal. lia.
    + apply NoDup_app in Hnodup as (_ & Hdisj & _).
      intros Hin. apply (Hdisj _ Hin). left.
  - rewrite set_fresh.
    + rewrite fmap_app, <-app_assoc. done.
    + apply NoDup_app in Hnodup as (_ & Hdisj & _).
      intros Hin. apply (Hdisj _ Hin). left.
Qed.

Lemma keyed_values (d : list (string * Task)) :
  Forall (λ kt, id kt.2 = kt.1) d →
  (λ t, (id t, __post_init__ t)) <$> Py.values d = map_values __post_init__ d
  ∧ id <$> Py.values d = d.*1.
Proof.
  unfold Py.values, map_values.
  induction 1 as [|[k t] d Hk _ [IH1 IH2]]; [done|].
  rewrite !fmap_cons, IH1, IH2. simpl in Hk. by subst k.
Qed.

Lemma map_values_refresh_post_init (d : list (string * Task)) :
  map_values refresh (map_values __post_init__ d) = map_values __post_init__ d.
Proof.
  unfold map_values. rewrite <-list_fmap_compose. apply list_fmap_ext.
  intros _ [k t] _. simpl. unfold refresh. by destruct (completed _).
Qed.

Lemma import_json_snapshot (d : list (string * Task)) w0 :
  json_loads (json_dumps (snapshot d)) = Some (snapshot d) →
  store_keyed d →
  ∃ w', import_json (json_dumps (snapshot d)) w0 = (Return (), w')
        ∧ tasks w' = map_values __post_init__ d.
Proof.
  intros Hloads [Hnodup Hkeyed]. unfold import_json. rewrite Hloads.
  destruct (keyed_values d Hkeyed) as [Hvalues Hids].
  rewrite (bind_run _ _ _ (snapshot d) w0) by done.
  rewrite (bind_run _ _ _ (JList (to_dict <$> Py.values d)) w0) by done.
  rewrite (bind_run _ _ _ () (set_tasks [] w0)) by done.
  rewrite (bind_run _ _ _ (to_dict <$> Py.values d) (set_tasks [] w0)) by done.
  erewrite bind_run; last first.
  { apply import_loop. simpl. by rewrite Hids. }
  rewrite _rebuild_heap_run. eexists. split; [done|]. simpl.
  by rewrite Hvalues, map_values_refresh_post_init.
Qed.
End roundtrip_facts.

(** C6, for the stores that keep every task under its own id.  When the
    date parser reads back what [isoformat] writes, the JSON library reads
    back the exported document, and the keys of the store are the ids of
    its tasks, [export_json] followed by [import_json], in any manager,
    gives a store with the same ids in the same order, and under each id a
    task that agrees on every serialized field. *)
Theorem export_import_roundtrip `{Collaborators} (w w0 : world) :
  (∀ d, isoformat d ≠ "" ∧ dateparser_parse (isoformat d) = Some d) →
  json_loads (json_dumps (snapshot (tasks w))) = Some (snapshot (tasks w)) →
  store_keyed (tasks w) →
  ∃ text w',
    export_json w = (Return text, w)
    ∧ import_json text w0 = (Return (), w')
    ∧ Forall2 (λ kt kt', kt'.1 = kt.1 ∧ same_fields kt.2 kt'.2) (tasks w) (tasks w').
Proof.
  intros Hdates Hloads Hkeyed.
  destruct (import_json_snapshot Hdates (tasks w) w0 Hloads Hkeyed) as (w' & Hrun & Htasks).
  exists (json_dumps (snapshot (tasks w))), w'. split_and!; [done..|].
  rewrite Htasks. unfold map_values. apply Forall2_fmap_r, Forall_Forall2_diag.
  apply Forall_forall. intros [k t] _. simpl. by repeat split.
Qed.

(** The decimal writer and reader of the concrete collaborators read back
    every instant, naive or aware. *)
Lemma Demo_split_at_digits (u : Decimal.uint) :
  Demo.split_at "+" (NilEmpty.string_of_uint u) = None.
Proof.
  induction u; [done|..];
    cbn [NilEmpty.string_of_uint Demo.split_at];
    rewrite bool_decide_false by done; by rewrite IHu.
Qed.

Lemma Demo_split_at_uint (u : Decimal.uint) :
  Demo.split_at "+" (NilZero.string_of_uint u) = None.
Proof. destruct u; [done|apply Demo_split_at_digits..]. Qed.

Lemma Demo_split_at_decimal (z : Z) : Demo.split_at "+" (Demo.decimal z) = None.
Proof.
  unfold Demo.decimal, NilZero.string_of_int.
  destruct (Z.to_int z); [apply Demo_split_at_uint|].
  cbn [Demo.split_at]. rewrite bool_decide_false by done.
  by rewrite Demo_split_at_uint.
Qed.

Lemma Demo_split_at_app (a b : string) :
  Demo.split_at "+" a = None →
  Demo.split_at "+" (a +:+ "+" +:+ b) = Some (a, b).
Proof.
  induction a as [|c a IH]; [done|].
  change (String c a +:+ "+" +:+ b) with (String c (a +:+ "+" +:+ b)).
  cbn [Demo.split_at]. case_bool_decide; [done|].
  destruct (Demo.split_at "+" a); [done|]. intros _. by rewrite IH.
Qed.

Lemma Demo_read_int_decimal (z : Z) : Demo.read_int (Demo.decimal z) = Some z.
Proof.
  unfold Demo.read_int, Demo.decimal.
  rewrite NilZero.isi.
  - simpl. by rewrite DecimalZ.of_to.
  - destruct z as [|p|p]; simpl; [done| |done].
    intros [= Hnil]. by apply DecimalPos.Unsigned.to_uint_nonnil in Hnil.
  - destruct z as [|p|p]; simpl; [done|done|].
    intros [= Hnil]. by apply DecimalPos.Unsigned.to_uint_nonnil in Hnil.
Qed.

Lemma Demo_isoformat_parse (d : datetime) :
  Demo.isoformat d ≠ "" ∧ Demo.dateparser_parse (Demo.isoformat d) = Some d.
Proof.
  assert (Demo.dateparser_parse (Demo.isoformat d) = Some d) as Hparse.
  { unfold Demo.dateparser_parse, Demo.isoformat.
    destruct d as [z [offset|]]; cbn [utcoffset wall].
    - rewrite Demo_split_at_app by apply Demo_split_at_decimal.
      by rewrite !Demo_read_int_decimal.
    - by rewrite Demo_split_at_decimal, Demo_read_int_decimal. }
  split; [|done]. intros Hempty. by rewrite Hempty in Hparse.
Qed.

(** C6 as stated fails on a store that holds a task under a key that is
    not its id.  After [update_task] has given [task-1] the id [task-0],
    the store has two tasks; the export writes both, and the import, which
    files each record under its id, keeps one. *)
Lemma export_import_same_id_twice :
  (tasks Sample.same_id_twice).*1 = ["task-0"; "task-1"]
  ∧ id <$> Py.values (tasks Sample.same_id_twice) = ["task-0"; "task-0"]
  ∧ ∃ text w',
      export_json (H := Demo.collaborators) Sample.same_id_twice
        = (Return text, Sample.same_id_twice)
      ∧ import_json (H := Demo.collaborators) text TaskManager_init = (Return (), w')
      ∧ (tasks w').*1 = ["task-0"]
      ∧ title <$> Py.values (tasks w') = ["Review report"]
      ∧ ¬ Forall2 (λ kt kt', kt'.1 = kt.1 ∧ same_fields kt.2 kt'.2)
            (tasks Sample.same_id_twice) (tasks w').
Proof.
  split; [by vm_compute|]. split; [by vm_compute|].
  eexists _, _. split; [by vm_compute|]. split; [by vm_compute|].
  split; [by vm_compute|]. split; [by vm_compute|].
  intros Hall%Forall2_length. by vm_compute in Hall.
Qed.

(** The theorem on a populated store and on the empty store. *)
Lemma export_import_roundtrip_witness :
  (store_keyed (tasks Sample.two_tasks)
   ∧ ∃ text w',
       export_json (H := Demo.collaborators) Sample.two_tasks
         = (Return text, Sample.two_tasks)
       ∧ import_json (H := Demo.collaborators) text TaskManager_init = (Return (), w')
       ∧ Forall2 (λ kt kt', kt'.1 = kt.1 ∧ same_fields kt.2 kt'.2)
           (tasks Sample.two_tasks) (tasks w'))
  ∧ (∃ text w',
       export_json (H := Demo.collaborators) TaskManager_init
         = (Return text, TaskManager_init)
       ∧ import_json (H := Demo.collaborators) text Sample.two_tasks = (Return (), w')
       ∧ Forall2 (λ kt kt', kt'.1 = kt.1 ∧ same_fields kt.2 kt'.2)
           (tasks TaskManager_init) (tasks w')).
Proof.
  assert (store_keyed (tasks Sample.two_tasks)) as Hkeyed.
  { apply (bool_decide_unpack _). by vm_compute. }
  split; [split; [done|]|].
  - apply (export_import_roundtrip (H := Demo.collaborators) Sample.two_tasks
             TaskManager_init Demo_isoformat_parse); [by vm_compute|done].
  - apply (export_import_roundtrip (H := Demo.collaborators) TaskManager_init
             Sample.two_tasks Demo_isoformat_parse); [by vm_compute|].
    split; [constructor|constructor].
Defined.

(** * Further properties of the manager *)

Section store_invariants.
Context `{Collaborators}.
Implicit Types (d : list (string * Task)) (w : world).

Lemma active_map_values_refresh d :
  entry_of <$> active (map_values refresh d) = entry_of <$> active d.
Proof.
  unfold active, Py.values, map_values.
  induction d as [|[k t] d IH]; [done|]. rewrite !fmap_cons. cbn [snd].
  rewrite !filter_cons, completed_refresh.
  destruct (decide (completed t = false)); [|done].
  by rewrite !fmap_cons, entry_of_refresh, IH.
Qed.

Lemma _rebuild_heap_exact w r w' :
  _rebuild_heap w = (r, w') → heap w' ≡ₚ entry_of <$> active (tasks w').
Proof.
  rewrite _rebuild_heap_run. intros [= <- <-]. simpl.
  by rewrite _rebuild_loop_heap, app_nil_r, active_map_values_refresh.
Qed.

(** The calls that rebuild the heap do it last. *)
Lemma exec_ends_with_rebuild (c : command) w w' :
  exec c w = (Return (), w') →
  rebuilds c = true →
  ∃ w0, _rebuild_heap w0 = (Return (), w').
Proof.
  intros Hrun Hreb. destruct c; simpl in Hrun; [done|..].
  - inv_bind Hrun. injection Hrun as <-. rename Hrun0 into Hupd.
    unfold update_task in Hupd. inv_bind Hupd.
    destruct a0; [|done]. do 4 inv_bind Hupd.
    repeat match goal with
           | Hget : get_task _ _ = _ |- _ => injection Hget as <- <-
           end.
    destruct (Py.get tid _); [|done]. injection Hupd as <- <-.
    match goal with
    | Hreb : _rebuild_heap _ = (Return ?u, _) |- _ => destruct u; eauto
    end.
  - unfold delete_task in Hrun. inv_bind Hrun. eauto.
  - unfold set_progress in Hrun. inv_bind Hrun.
    destruct a; [|done]. do 2 inv_bind Hrun. eauto.
  - unfold complete_task in Hrun. inv_bind Hrun.
    destruct a as [t|]; [|done]. inv_bind Hrun.
    destruct (filter _ _); [|done]. do 2 inv_bind Hrun. eauto.
  - unfold import_json in Hrun. do 5 inv_bind Hrun. eauto.
Qed.

(** X1. After a call of [update_task], [delete_task], [set_progress],
    [complete_task] or [import_json] that returns, the heap holds one
    entry for each task that is not completed, made of its id and of its
    current ordering key, and nothing else: no entry is stale. *)
Theorem rebuilt_heap_is_exact (c : command) (w w' : world) :
  exec c w = (Return (), w') →
  rebuilds c = true →
  heap w' ≡ₚ entry_of <$> active (tasks w').
Proof.
  intros Hrun Hreb.
  destruct (exec_ends_with_rebuild c w w' Hrun Hreb) as [w0 Hw0].
  by apply _rebuild_heap_exact in Hw0.
Qed.
End store_invariants.

Lemma rebuilt_heap_is_exact_witness :
  exec (H := Demo.collaborators) (CompleteTask "task-0") Sample.two_tasks
    = (Return (), Sample.after (exec (H := Demo.collaborators) (CompleteTask "task-0"))
                    Sample.two_tasks)
  ∧ rebuilds (CompleteTask "task-0") = true
  ∧ heap (Sample.after (exec (H := Demo.collaborators) (CompleteTask "task-0"))
            Sample.two_tasks)
    ≡ₚ entry_of <$> active (tasks (Sample.after
                                    (exec (H := Demo.collaborators) (CompleteTask "task-0"))
                                    Sample.two_tasks)).
Proof.
  split; [by vm_compute|]. split; [done|].
  apply (rebuilt_heap_is_exact (H := Demo.collaborators) (CompleteTask "task-0")
           Sample.two_tasks); [by vm_compute|done].
Defined.

Section keyed_facts.
Context `{Collaborators}.
Implicit Types (d : list (string * Task)) (w : world).

Lemma keys_set {V} (d : list (string * V)) k v :
  (Py.set k v d).*1 = if decide (k ∈ d.*1) then d.*1 else d.*1 ++ [k].
Proof.
  induction d as [|[k' v'] d IH]; [done|]. cbn [Py.set].
  destruct (decide (k' = k)) as [->|Hne]; rewrite !fmap_cons; cbn [fst].
  - by rewrite decide_True by left.
  - rewrite IH. destruct (decide (k ∈ d.*1)).
    + by rewrite decide_True by (by right).
    + rewrite decide_False; [done|]. by intros [?|?]%elem_of_cons.
Qed.

Lemma keys_mutate {V} (d : list (string * V)) k f : (Py.mutate k f d).*1 = d.*1.
Proof.
  induction d as [|[k' v'] d IH]; [done|]. cbn [Py.mutate].
  destruct (decide (k' = k)); rewrite !fmap_cons; by rewrite ?IH.
Qed.

Lemma keys_del_sublist {V} (d : list (string * V)) k : sublist (Py.del k d).*1 d.*1.
Proof.
  induction d as [|[k' v'] d IH]; [done|]. cbn [Py.del].
  destruct (decide (k' = k)); rewrite !fmap_cons;
    [by apply sublist_cons|by apply sublist_skip].
Qed.

Lemma elem_of_del {V} (d : list (string * V)) k kv : kv ∈ Py.del k d → kv ∈ d.
Proof.
  induction d as [|[k' v'] d IH]; [done|]. simpl.
  destruct (decide (k' = k)); [by right|].
  intros [->|?]%elem_of_cons; [left|right; auto].
Qed.

Lemma keys_map_values {V} (f : V → V) (d : list (string * V)) :
  (map_values f d).*1 = d.*1.
Proof. unfold map_values. rewrite <-list_fmap_compose. by apply list_fmap_ext. Qed.

Lemma keyed_set d k t : id t = k → store_keyed d → store_keyed (Py.set k t d).
Proof.
  intros Hid [Hnodup Hall]. split.
  - rewrite keys_set. destruct (decide (k ∈ d.*1)); [done|].
    apply NoDup_app. split_and!; [done| |apply NoDup_singleton].
    intros k' Hin ->%list_elem_of_singleton. done.
  - apply Forall_forall. intros [k' t'] [[-> ->]|Hin]%elem_of_set; [done|].
    by apply (proj1 (Forall_forall _ _) Hall (k', t')).
Qed.

Lemma keyed_mutate d k f :
  (∀ t, id (f t) = id t) → store_keyed d → store_keyed (Py.mutate k f d).
Proof.
  intros Hf [Hnodup Hall]. split; [by rewrite keys_mutate|].
  apply Forall_forall. intros [k' t'] Hin. rewrite Forall_forall in Hall.
  apply elem_of_mutate in Hin as [Hin|(-> & t0 & Hin & ->)].
  - by apply (Hall (k', t')).
  - simpl. rewrite Hf. by apply (Hall (k, t0)).
Qed.

Lemma keyed_del d k : store_keyed d → store_keyed (Py.del k d).
Proof.
  intros [Hnodup Hall]. split.
  - eapply sublist_NoDup; [done|apply keys_del_sublist].
  - apply Forall_forall. intros kv Hin%elem_of_del.
    by apply (proj1 (Forall_forall _ _) Hall).
Qed.

Lemma keyed_refresh d : store_keyed d → store_keyed (map_values refresh d).
Proof.
  intros [Hnodup Hall]. split; [by rewrite keys_map_values|].
  apply Forall_forall. intros [k t] (t0 & -> & Hin)%elem_of_map_values.
  rewrite Forall_forall in Hall. specialize (Hall (k, t0) Hin).
  simpl in *. unfold refresh. by destruct (completed t0).
Qed.

Lemma _rebuild_heap_keyed w r w' :
  _rebuild_heap w = (r, w') → store_keyed (tasks w) → store_keyed (tasks w').
Proof. rewrite _rebuild_heap_run. intros [= <- <-]. apply keyed_refresh. Qed.

Lemma mutate_task_keyed tid f w r w' :
  (∀ t, id (f t) = id t) →
  mutate_task tid f w = (r, w') → store_keyed (tasks w) → store_keyed (tasks w').
Proof. intros Hf [= <- <-]. simpl. by apply keyed_mutate. Qed.

Lemma update_field_keyed tid kw w w' :
  ¬ names_id kw →
  update_field tid kw w = (Return (), w') →
  store_keyed (tasks w) → store_keyed (tasks w').
Proof.
  intros Hkw Hrun Hkeyed.
  destruct kw; simpl in Hrun;
    try (by eapply mutate_task_keyed; [|exact Hrun|exact Hkeyed]).
  - inv_bind Hrun.
    assert (tasks w0 = tasks w) as Htasks.
    { assert (keeps_store
                (match v with
                 | Some text => if truthy_str v
                                then parse text ≫= (λ x, mret (Some x)) else mret None
                 | None => mret None
                 end)) as K by keeps_store.
      by apply K in Hrun0 as [? _]. }
    eapply mutate_task_keyed; [|exact Hrun|by rewrite Htasks]. done.
  - by injection Hrun as <-.
Qed.

Lemma update_fields_keyed tid kwargs w w' :
  Forall (λ kw, ¬ names_id kw) kwargs →
  for_each kwargs (update_field tid) w = (Return (), w') →
  store_keyed (tasks w) → store_keyed (tasks w').
Proof.
  intros Hall. revert w. induction Hall as [|kw kwargs Hkw _ IH]; intros w; simpl.
  - by intros [= <-].
  - intros Hrun Hkeyed. inv_bind Hrun. destruct a.
    eapply IH; [done|]. by eapply update_field_keyed.
Qed.
End keyed_facts.

(** The runs of the primitive steps, read off their equations. *)
Ltac inv_runs :=
  repeat match goal with
         | Hr : get_task _ _ = _ |- _ => inversion Hr; subst; clear Hr
         | Hr : get_world _ = _ |- _ => inversion Hr; subst; clear Hr
         | Hr : modify _ _ = _ |- _ => inversion Hr; subst; clear Hr
         | Hr : mutate_task _ _ _ = _ |- _ => inversion Hr; subst; clear Hr
         | Hr : mret _ _ = _ |- _ => inversion Hr; subst; clear Hr
         | Hr : ret _ _ = _ |- _ => inversion Hr; subst; clear Hr
         | u : () |- _ => destruct u
         end.

Section keyed_operations.
Context `{Collaborators}.

Lemma keeps_as_strs l : keeps_store (as_strs l).
Proof.
  induction l as [|v l IH]; simpl; [apply keeps_ret'|].
  apply keeps_bind; [destruct v; keeps_store|].
  intros s. apply keeps_bind; [done|]. intros r. apply keeps_ret'.
Qed.

Lemma keeps_from_dict td : keeps_store (from_dict td).
Proof.
  unfold from_dict, as_int, as_str, as_bool, as_opt_int, as_str_list, parse_value.
  destruct td; try apply keeps_raise.
  repeat first
    [ apply keeps_ret | apply keeps_ret' | apply keeps_raise | apply keeps_utcnow
    | apply keeps_uuid4 | apply keeps_parse | apply keeps_as_strs
    | apply keeps_bind; [|intros ?]
    | progress case_match ].
Qed.

Lemma import_records_keyed items w w' :
  for_each items
    (λ td, t ← from_dict td;
           modify (λ w, set_tasks (Py.set (id t) t (tasks w)) w)) w
  = (Return (), w') →
  store_keyed (tasks w) → store_keyed (tasks w').
Proof.
  revert w. induction items as [|td items IH]; intros w; simpl.
  - by intros [= <-].
  - intros Hrun Hkeyed. inv_bind Hrun.
    match goal with Hbody : _ = (Return a, w0) |- _ => inv_bind Hbody end.
    match goal with
    | Hfd : from_dict _ _ = _ |- _ => apply keeps_from_dict in Hfd as [Htasks _]
    end.
    inv_runs. eapply IH; [done|]. simpl. apply keyed_set; [done|]. by rewrite Htasks.
Qed.

Lemma exec_keyed (c : command) w w' :
  exec c w = (Return (), w') →
  keeps_ids c →
  store_keyed (tasks w) →
  store_keyed (tasks w').
Proof.
  intros Hrun Hids Hkeyed. destruct c; simpl in Hrun, Hids.
  - inv_bind Hrun. inv_runs.
    match goal with
    | Hadd : add_task _ _ _ _ _ _ _ _ _ = _ |- _ =>
        apply add_task_Return in Hadd as (-> & _)
    end.
    by apply keyed_set.
  - inv_bind Hrun. inv_runs. unfold update_task in *.
    match goal with Hupd : _ = (Return _, w') |- _ => rename Hupd into Hupd' end.
    inv_bind Hupd'. inv_runs.
    destruct (Py.get tid _); [|done]. do 4 inv_bind Hupd'. inv_runs.
    destruct (Py.get tid _); [|done]. inv_runs.
    match goal with
    | Hreb : _rebuild_heap _ = _ |- _ => eapply _rebuild_heap_keyed; [exact Hreb|]
    end.
    simpl. apply keyed_mutate; [done|]. by eapply update_fields_keyed.
  - unfold delete_task in Hrun. inv_bind Hrun. inv_runs.
    eapply _rebuild_heap_keyed; [done|]. simpl. by apply keyed_del.
  - unfold set_progress in Hrun. inv_bind Hrun. inv_runs.
    destruct (Py.get tid _); [|done]. do 2 inv_bind Hrun.
    eapply _rebuild_heap_keyed; [done|].
    match goal with
    | Hif : (if _ then _ else _) _ = _ |- _ => revert Hif
    end.
    inv_runs. case_bool_decide; intros Hif; inv_runs; simpl;
      repeat (apply keyed_mutate; [done|]); done.
  - unfold complete_task in Hrun. inv_bind Hrun. inv_runs.
    destruct (Py.get tid _) as [t|]; [|done]. inv_bind Hrun. inv_runs.
    destruct (filter _ _); [|done]. do 2 inv_bind Hrun. inv_runs.
    eapply _rebuild_heap_keyed; [done|]. simpl.
    repeat (apply keyed_mutate; [done|]). done.
  - unfold import_json in Hrun. do 5 inv_bind Hrun. inv_runs.
    eapply _rebuild_heap_keyed; [done|].
    eapply import_records_keyed; [done|].
    match goal with
    | Hit : iterate ?v _ = _ |- _ =>
        assert (keeps_store (iterate v)) as K by (unfold iterate; keeps_store);
        apply K in Hit as [-> _]
    end.
    simpl. split; [constructor|constructor].
Qed.

(** X2. Every task is stored under its own id, each id once: a call that
    returns keeps this, unless it is an [update_task] that names the field
    [id]. *)
Theorem store_stays_keyed (c : command) (w w' : world) :
  exec c w = (Return (), w') →
  keeps_ids c →
  store_keyed (tasks w) →
  store_keyed (tasks w').
Proof. apply exec_keyed. Qed.
End keyed_operations.

Lemma store_stays_keyed_witness :
  exec (H := Demo.collaborators)
    (UpdateTask "task-1" [kw_title "Proofread"; kw_deadline (Some "1700000000000000")])
    Sample.two_tasks
  = (Return (),
     Sample.after
       (exec (H := Demo.collaborators)
          (UpdateTask "task-1" [kw_title "Proofread"; kw_deadline (Some "1700000000000000")]))
       Sample.two_tasks)
  ∧ keeps_ids
      (UpdateTask "task-1" [kw_title "Proofread"; kw_deadline (Some "1700000000000000")])
  ∧ store_keyed (tasks Sample.two_tasks)
  ∧ store_keyed
      (tasks (Sample.after
                (exec (H := Demo.collaborators)
                   (UpdateTask "task-1"
                      [kw_title "Proofread"; kw_deadline (Some "1700000000000000")]))
                Sample.two_tasks)).
Proof.
  assert (store_keyed (tasks Sample.two_tasks)) as Hkeyed.
  { apply (bool_decide_unpack _). by vm_compute. }
  assert (keeps_ids
            (UpdateTask "task-1"
               [kw_title "Proofread"; kw_deadline (Some "1700000000000000")])) as Hids.
  { simpl. repeat constructor; by intros []. }
  split; [by vm_compute|]. split; [done|]. split; [done|].
  apply (store_stays_keyed (H := Demo.collaborators)
           (UpdateTask "task-1"
              [kw_title "Proofread"; kw_deadline (Some "1700000000000000")])
           Sample.two_tasks); [by vm_compute|done|done].
Defined.

(** ** What each call does to the store *)

Section outcome_facts.
Context `{Collaborators}.
Implicit Types (d : list (string * Task)) (w : world).

Lemma get_None_keys {V} (d : list (string * V)) k : Py.get k d = None ↔ k ∉ d.*1.
Proof.
  induction d as [|[k' v] d IH]; simpl.
  - split; [intros _ Hin; inversion Hin|done].
  - destruct (decide (k' = k)) as [->|Hne].
    + split; [done|]. intros Hout. destruct Hout. left.
    + rewrite IH. split.
      * intros Hout [?|?]%elem_of_cons; [done|]. by apply Hout.
      * intros Hout Hin. apply Hout. by right.
Qed.

Lemma get_del_eq {V} (d : list (string * V)) k :
  NoDup d.*1 → Py.get k (Py.del k d) = None.
Proof.
  induction d as [|[k' v] d IH]; [done|]. rewrite fmap_cons. cbn [fst Py.del].
  intros [Hout Hnodup]%NoDup_cons. destruct (decide (k' = k)) as [->|Hne].
  - by apply get_None_keys.
  - simpl. rewrite decide_False by done. by apply IH.
Qed.

Lemma get_del_ne {V} (d : list (string * V)) k k' :
  k ≠ k' → Py.get k' (Py.del k d) = Py.get k' d.
Proof.
  intros Hne. induction d as [|[k0 v] d IH]; [done|]. simpl.
  destruct (decide (k0 = k)) as [->|].
  - by rewrite decide_False.
  - simpl. by rewrite IH.
Qed.

(** X3. [delete_task] never raises.  When the ids of the store are
    distinct, the id is absent afterwards, whether or not it was there,
    and every other id holds the task it held, with its key
    recomputed if it is not completed. *)
Theorem delete_task_outcome (w : world) (tid : string) :
  NoDup (tasks w).*1 →
  ∃ w', delete_task tid w = (Return (), w')
        ∧ Py.get tid (tasks w') = None
        ∧ ∀ k, k ≠ tid → Py.get k (tasks w') = refresh <$> Py.get k (tasks w).
Proof.
  intros Hnodup. unfold delete_task.
  erewrite bind_run by reflexivity. rewrite _rebuild_heap_run.
  eexists. split; [done|]. simpl. split.
  - by rewrite get_fmap, get_del_eq.
  - intros k Hne. by rewrite get_fmap, get_del_ne.
Qed.

(** X4. [set_progress] raises [KeyError] on an absent id and leaves the
    state as it is.  Otherwise it returns; the task then has the progress
    clamped to 0..100, is completed if it was or if the progress given is
    100 or more, and keeps its other serialized fields; every other id
    holds the task it held, with its key recomputed if it is not
    completed. *)
Theorem set_progress_outcome (w : world) (tid : string) (p : Z) :
  match Py.get tid (tasks w) with
  | None => set_progress tid p w = (Raise KeyError, w)
  | Some t =>
      ∃ w' t',
        set_progress tid p w = (Return (), w')
        ∧ Py.get tid (tasks w') = Some t'
        ∧ progress t' = Z.max 0 (Z.min 100 p)
        ∧ completed t' = completed t || bool_decide (100 ≤ p)
        ∧ same_fields (set_completed (completed t') (set_progress_attr (progress t') t)) t'
        ∧ ∀ k, k ≠ tid → Py.get k (tasks w') = refresh <$> Py.get k (tasks w)
  end.
Proof.
  unfold set_progress.
  rewrite (bind_run _ _ _ (Py.get tid (tasks w)) w) by done.
  destruct (Py.get tid (tasks w)) as [t|] eqn:Ht; [|done].
  erewrite bind_run by reflexivity.
  case_bool_decide as Hfull; (erewrite bind_run by reflexivity);
    rewrite _rebuild_heap_run; cbn [tasks set_tasks].
  - eexists _, _. split; [done|]. cbn [tasks].
    rewrite get_fmap, mutate_mutate, get_mutate_eq, Ht. cbn [fmap option_fmap option_map].
    split; [done|]. unfold refresh. cbn [completed set_completed progress set_progress_attr compose].
    split_and!; [done| | |].
    + rewrite bool_decide_true by lia. by rewrite orb_true_r.
    + by repeat split.
    + intros k Hne. by rewrite get_fmap, !get_mutate_ne.
  - eexists _, _. split; [done|]. cbn [tasks].
    rewrite get_fmap, get_mutate_eq, Ht. cbn [fmap option_fmap option_map].
    split; [done|]. unfold refresh.
    assert (bool_decide (100 ≤ p) = false) as Hp by (apply bool_decide_false; lia).
    rewrite Hp, orb_false_r.
    destruct t as [? ? ? ? ? ? ? [] ? ? ? ? ? ?];
      cbn [completed set_completed progress set_progress_attr __post_init__ set_sort_index];
      (split_and!; [done|done|by repeat split|]);
      intros k Hne; by rewrite get_fmap, !get_mutate_ne.
Qed.
End outcome_facts.

Lemma delete_task_outcome_witness :
  NoDup (tasks Sample.two_tasks).*1
  ∧ ∃ w', delete_task "task-0" Sample.two_tasks = (Return (), w')
          ∧ Py.get "task-0" (tasks w') = None
          ∧ ∀ k, k ≠ "task-0" →
                 Py.get k (tasks w') = refresh <$> Py.get k (tasks Sample.two_tasks).
Proof.
  assert (NoDup (tasks Sample.two_tasks).*1) as Hnodup.
  { apply (bool_decide_unpack _). by vm_compute. }
  split; [done|]. exact (delete_task_outcome Sample.two_tasks "task-0" Hnodup).
Defined.

Section update_facts.
Context `{Collaborators}.
Implicit Types (d : list (string * Task)) (w : world).

Lemma mutate_id {V} (d : list (string * V)) k : Py.mutate k (λ v, v) d = d.
Proof.
  induction d as [|[k' v] d IH]; [done|]. simpl.
  destruct (decide (k' = k)); by rewrite ?IH.
Qed.

(** The loop over the keyword arguments, when every deadline can be read:
    it returns, having changed only the task stored under [tid]. *)
Lemma update_fields_run tid kwargs w :
  Forall readable kwargs →
  ∃ f, for_each kwargs (update_field tid) w
       = (Return (), set_tasks (Py.mutate tid f (tasks w)) w).
Proof.
  intros Hall. revert w. induction Hall as [|kw kwargs Hkw _ IH]; intros w.
  { exists (λ t, t). simpl. rewrite mutate_id. by destruct w. }
  assert (∃ g, update_field tid kw w
               = (Return (), set_tasks (Py.mutate tid g (tasks w)) w)) as [g Hg].
  { destruct kw; try by eexists.
    - destruct v as [text|]; [|by eexists]. simpl in Hkw.
      unfold update_field. destruct text as [|c text]; [by eexists|].
      destruct Hkw as [|[x Hx]]; [done|]. cbn [truthy_str]. unfold parse.
      rewrite Hx. by eexists.
    - exists (λ t, t). rewrite mutate_id. by destruct w. }
  destruct (IH (set_tasks (Py.mutate tid g (tasks w)) w)) as [f Hf].
  exists (f ∘ g). cbn [for_each]. erewrite bind_run by exact Hg.
  rewrite Hf. simpl. by rewrite mutate_mutate.
Qed.

(** X6. When the id is present and every deadline given can be read,
    [update_task] returns the task now stored under the id, with its
    [sort_index] equal to its ordering key; every other id holds the task
    it held, with its key recomputed if it is not completed. *)
Theorem update_task_returns (w : world) (tid : string) (kwargs : list kwarg) :
  is_Some (Py.get tid (tasks w)) →
  Forall readable kwargs →
  ∃ t' w',
    update_task tid kwargs w = (Return t', w')
    ∧ Py.get tid (tasks w') = Some t'
    ∧ sort_index t' = ordering_key t'
    ∧ ∀ k, k ≠ tid → Py.get k (tasks w') = refresh <$> Py.get k (tasks w).
Proof.
  intros [t Ht] Hall. unfold update_task.
  rewrite (bind_run _ _ _ (Py.get tid (tasks w)) w) by done. rewrite Ht.
  destruct (update_fields_run tid kwargs w Hall) as [f Hf].
  erewrite bind_run by exact Hf. erewrite bind_run by reflexivity.
  erewrite bind_run by apply _rebuild_heap_run.
  erewrite bind_run by reflexivity. cbn [tasks set_tasks].
  rewrite get_fmap, mutate_mutate, get_mutate_eq, Ht. cbn [fmap option_fmap option_map].
  eexists _, _. split; [done|]. cbn [tasks]. split_and!.
  - by rewrite get_fmap, ?mutate_mutate, get_mutate_eq, Ht.
  - unfold refresh, compose. by destruct (completed _).
  - intros k Hne. by rewrite get_fmap, ?mutate_mutate, get_mutate_ne.
Qed.
End update_facts.

Lemma update_task_returns_witness :
  is_Some (Py.get "task-1" (tasks Sample.two_tasks))
  ∧ Forall (readable (H := Demo.collaborators))
      [kw_priority 1; kw_deadline (Some "1700000000000000"); kw_other "colour" eq_refl]
  ∧ ∃ t' w',
      update_task (H := Demo.collaborators) "task-1"
        [kw_priority 1; kw_deadline (Some "1700000000000000"); kw_other "colour" eq_refl]
        Sample.two_tasks = (Return t', w')
      ∧ Py.get "task-1" (tasks w') = Some t'
      ∧ sort_index t' = ordering_key t'
      ∧ ∀ k, k ≠ "task-1" →
             Py.get k (tasks w') = refresh <$> Py.get k (tasks Sample.two_tasks).
Proof.
  assert (is_Some (Py.get "task-1" (tasks Sample.two_tasks))) as Hsome.
  { vm_compute. by eexists. }
  assert (Forall (readable (H := Demo.collaborators))
            [kw_priority 1; kw_deadline (Some "1700000000000000"); kw_other "colour" eq_refl])
    as Hall.
  { constructor; [exact I|]. constructor; [right; vm_compute; by eexists|].
    constructor; [exact I|]. constructor. }
  split; [done|]. split; [done|].
  exact (update_task_returns (H := Demo.collaborators) Sample.two_tasks "task-1" _
           Hsome Hall).
Defined.

Section completion_chain.
Context `{Collaborators}.
Implicit Types (d : list (string * Task)) (w : world).

Lemma unmet_nil_resolved d deps :
  filter (λ dep, is_unmet d dep = true) deps = [] ↔ Forall (resolved d) deps.
Proof.
  induction deps as [|dep deps IH]; [by split; [constructor|]|].
  rewrite filter_cons, Forall_cons, <-IH.
  destruct (decide (is_unmet d dep = true)) as [Hunmet|Hmet].
  - split; [done|]. intros [Hres _]. by apply is_unmet_resolved in Hunmet.
  - split; [|by intros [_ ?]]. intros Hnil. split; [|done].
    destruct (decide (resolved d dep)) as [|Hnot]; [done|].
    by apply is_unmet_resolved in Hnot.
Qed.

(** [complete_task] returns exactly when the id is present and every
    dependency resolves. *)
Lemma complete_task_run w tid :
  (∀ t, Py.get tid (tasks w) = Some t → Forall (resolved (tasks w)) (dependencies t) →
        complete_task tid w
        = (Return (),
           World (map_values refresh (Py.mutate tid mark_complete (tasks w)))
             (_rebuild_loop (Py.mutate tid mark_complete (tasks w)) []).2
             (clock_reads w) (uuid_draws w)))
  ∧ (∀ w', complete_task tid w = (Return (), w') →
           ∃ t, Py.get tid (tasks w) = Some t
                ∧ Forall (resolved (tasks w)) (dependencies t)).
Proof.
  unfold complete_task.
  rewrite (bind_run _ _ _ (Py.get tid (tasks w)) w) by done.
  destruct (Py.get tid (tasks w)) as [t|]; [|by split].
  rewrite (bind_run _ _ _ w w) by done.
  pose proof (unmet_nil_resolved (tasks w) (dependencies t)) as Hiff.
  destruct (filter _ (dependencies t)) as [|dep unmet].
  - split.
    + intros ? [= <-] _. erewrite bind_run by reflexivity.
      erewrite bind_run by reflexivity. rewrite _rebuild_heap_run.
      cbn [tasks set_tasks clock_reads uuid_draws]. by rewrite mutate_mutate.
    + intros w' _. exists t. split; [done|]. by apply Hiff.
  - split; [|done]. intros ? [= <-] Hall. by apply Hiff in Hall.
Qed.

Lemma resolved_completed d tid dep :
  resolved d dep → resolved (map_values refresh (Py.mutate tid mark_complete d)) dep.
Proof.
  intros (t & Ht & Hc). unfold resolved. rewrite get_fmap.
  destruct (decide (tid = dep)) as [->|Hne].
  - rewrite get_mutate_eq, Ht. eexists. split; [done|].
    by rewrite completed_refresh.
  - rewrite get_mutate_ne, Ht by done. eexists. split; [done|].
    by rewrite completed_refresh.
Qed.

(** X7. When [complete_task] returns for the id [a]: every dependency id
    that resolved before still resolves, [a] itself resolves, and any task
    whose dependencies all resolved before or are [a] can now be completed
    in turn. *)
Theorem complete_task_unblocks (w w' : world) (a : string) :
  complete_task a w = (Return (), w') →
  (∀ dep, resolved (tasks w) dep → resolved (tasks w') dep)
  ∧ resolved (tasks w') a
  ∧ ∀ b t,
      Py.get b (tasks w) = Some t →
      Forall (λ dep, dep = a ∨ resolved (tasks w) dep) (dependencies t) →
      ∃ w'', complete_task b w' = (Return (), w'').
Proof.
  intros Hrun.
  destruct (proj2 (complete_task_run w a) w' Hrun) as (ta & Hta & Hdeps).
  rewrite (proj1 (complete_task_run w a) ta Hta Hdeps) in Hrun.
  injection Hrun as <-. cbn [tasks].
  assert (resolved (map_values refresh (Py.mutate a mark_complete (tasks w))) a) as Ha.
  { unfold resolved. rewrite get_fmap, get_mutate_eq, Hta.
    eexists. split; [done|]. by rewrite completed_refresh. }
  split_and!; [intros dep; apply resolved_completed|done|].
  intros b t Hb Hall.
  set (w' := World _ _ _ _).
  assert (∃ t', Py.get b (tasks w') = Some t' ∧ dependencies t' = dependencies t)
    as (t' & Hb' & Hsame).
  { unfold w'. cbn [tasks]. rewrite get_fmap.
    destruct (decide (a = b)) as [->|Hne].
    - rewrite get_mutate_eq, Hb. eexists. split; [done|].
      unfold refresh. by destruct (completed _).
    - rewrite get_mutate_ne, Hb by done. eexists. split; [done|].
      unfold refresh. by destruct (completed _). }
  eexists. apply (proj1 (complete_task_run w' b) t' Hb').
  rewrite Hsame. eapply Forall_impl; [exact Hall|].
  intros dep [->|Hres]; [done|]. by apply resolved_completed.
Qed.
End completion_chain.

Lemma complete_task_unblocks_witness :
  complete_task "task-0" Chain.two_tasks
    = (Return (), Sample.after (complete_task "task-0") Chain.two_tasks)
  ∧ ∃ w'', complete_task "task-1" (Sample.after (complete_task "task-0") Chain.two_tasks)
           = (Return (), w'').
Proof.
  assert (complete_task "task-0" Chain.two_tasks
          = (Return (), Sample.after (complete_task "task-0") Chain.two_tasks)) as Hrun.
  { by vm_compute. }
  split; [done|].
  destruct (complete_task_unblocks _ _ _ Hrun) as (_ & _ & Hnext).
  destruct (Py.get "task-1" (tasks Chain.two_tasks)) as [t|] eqn:Ht; [|by vm_compute in Ht].
  apply (Hnext "task-1" t Ht).
  vm_compute in Ht. injection Ht as <-. constructor; [by left|constructor].
Defined.
(** ** The estimator and the parse stub, in general *)

Section estimator_more.
Context `{Collaborators}.

(** With no deadline or a naive one the estimator returns; it reads the
    clock once when a deadline is given and not at all otherwise. *)
Lemma auto_assign_returns title description user_deadline w :
  naive_deadline user_deadline →
  ∃ p tags,
    auto_assign_priority_and_deadline title description user_deadline w
    = (Return (p, user_deadline, tags,
               Z.max 15 (Z.min (8 * (Py.len_split description / 20 + 1)) (8 * 10))),
       World (tasks w) (heap w)
         (match user_deadline with
          | Some _ => S (clock_reads w)
          | None => clock_reads w
          end) (uuid_draws w))
    ∧ (p = 1 ∨ p = 2 ∨ p = 3 ∨ p = 5 ∨ p = 7)
    ∧ (tags = [] ↔ p = 5).
Proof.
  intros Hnaive.
  unfold auto_assign_priority_and_deadline. cbv zeta.
  set (text := Py.lower _).
  destruct (Py.any_in _ text);
    [|destruct (Py.contains "high" text || Py.contains "important" text);
      [|destruct (Py.contains "low" text || Py.contains "whenever" text)]];
    (destruct user_deadline as [[z offset]|];
     [simpl in Hnaive; subst offset|]; run_monad;
     [repeat case_bool_decide|]; eexists _, _;
     (split; [by destruct w|]); (split; [lia|]); split; (done || lia)).
Qed.

(** X8. With no deadline or a naive one the heuristic estimator returns:
    a priority among 1, 2, 3, 5 and 7, the deadline it was given, an
    effort estimate between 15 and 80 minutes, and tags that are empty
    exactly when the priority is the default 5.  With a deadline that
    carries an offset from UTC it raises [TypeError].  Either way it
    changes neither the tasks nor the heap. *)
Theorem auto_assign_ranges (title description : string)
    (user_deadline : option datetime) (w : world) :
  (naive_deadline user_deadline →
   ∃ p tags minutes w',
     auto_assign_priority_and_deadline title description user_deadline w
     = (Return (p, user_deadline, tags, minutes), w')
     ∧ (p = 1 ∨ p = 2 ∨ p = 3 ∨ p = 5 ∨ p = 7)
     ∧ 15 ≤ minutes ≤ 80
     ∧ (tags = [] ↔ p = 5)
     ∧ tasks w' = tasks w ∧ heap w' = heap w)
  ∧ (¬ naive_deadline user_deadline →
     ∃ w',
       auto_assign_priority_and_deadline title description user_deadline w
       = (Raise TypeError, w')
       ∧ tasks w' = tasks w ∧ heap w' = heap w).
Proof.
  split.
  - intros Hnaive.
    destruct (auto_assign_returns title description user_deadline w Hnaive)
      as (p & tags & Hrun & Hp & Htags).
    eexists _, _, _, _. split; [exact Hrun|]. split_and!; try done; lia.
  - intros Haware. destruct user_deadline as [[z [offset|]]|]; [|by destruct Haware..].
    eexists. by rewrite auto_assign_aware.
Qed.

(** X9. For the same text and the same clock reading, of two naive
    deadlines the earlier never gives a looser priority than the later;
    both calls return. *)
Theorem earlier_deadline_not_looser (title description : string)
    (d1 d2 : datetime) (w : world) :
  utcoffset d1 = None → utcoffset d2 = None → wall d1 ≤ wall d2 →
  ∃ p1 p2,
    estimated_priority title description (Some d1) w = Some p1
    ∧ estimated_priority title description (Some d2) w = Some p2
    ∧ p1 ≤ p2.
Proof.
  destruct d1 as [z1 ?], d2 as [z2 ?]. simpl. intros -> -> Hle.
  unfold estimated_priority, auto_assign_priority_and_deadline. cbv zeta.
  set (text := Py.lower _).
  destruct (Py.any_in _ text);
    [|destruct (Py.contains "high" text || Py.contains "important" text);
      [|destruct (Py.contains "low" text || Py.contains "whenever" text)]];
    run_monad; repeat case_bool_decide; eexists _, _;
    (split; [done|]); (split; [done|]); unfold days, hours, seconds in *; lia.
Qed.
End estimator_more.

Lemma earlier_deadline_not_looser_witness :
  (utcoffset (naive (Demo.utcnow 0 + hours 20)) = None
   ∧ utcoffset (naive (Demo.utcnow 0 + days 2)) = None
   ∧ wall (naive (Demo.utcnow 0 + hours 20)) ≤ wall (naive (Demo.utcnow 0 + days 2)))
  ∧ ∃ p1 p2,
      estimated_priority (H := Demo.collaborators) "Plan the low tide walk" ""
        (Some (naive (Demo.utcnow 0 + hours 20))) TaskManager_init = Some p1
      ∧ estimated_priority (H := Demo.collaborators) "Plan the low tide walk" ""
          (Some (naive (Demo.utcnow 0 + days 2))) TaskManager_init = Some p2
      ∧ p1 ≤ p2.
Proof.
  assert (wall (naive (Demo.utcnow 0 + hours 20)) ≤ wall (naive (Demo.utcnow 0 + days 2)))
    as Hle by by vm_compute.
  split; [done|].
  exact (earlier_deadline_not_looser (H := Demo.collaborators)
           "Plan the low tide walk" "" (naive (Demo.utcnow 0 + hours 20))
           (naive (Demo.utcnow 0 + days 2)) TaskManager_init eq_refl eq_refl Hle).
Defined.
(** ** [heapq] keeps the heap invariant *)

Section heap_order.
Implicit Types (heap : list entry) (e : entry).

Lemma child_parent i j : child i j ↔ (0 < j)%nat ∧ i = ((j - 1) / 2)%nat.
Proof.
  unfold child. pose proof (Nat.div_mod_eq (j - 1) 2).
  pose proof (Nat.mod_upper_bound (j - 1) 2). lia.
Qed.

Lemma child_lt i j : child i j → (i < j)%nat.
Proof. unfold child. lia. Qed.

Lemma child_inj i i' j : child i j → child i' j → i = i'.
Proof. unfold child. lia. Qed.

(** Filling the hole with an entry that fits between the parent and the
    children of the hole gives an ordered heap. *)
Lemma fill_hole heap pos e :
  hole_ordered heap pos → fits_below heap pos e →
  (∀ i x, child i pos → heap !! i = Some x → entry_le x e) →
  heap_ordered (<[pos := e]> heap).
Proof.
  intros Hhole Hbelow Habove i j x y Hc Hi Hj.
  apply list_lookup_insert_Some in Hi as [(<- & <- & _)|[Hne Hi]];
    apply list_lookup_insert_Some in Hj as [(<- & <- & _)|[Hne' Hj]].
  - apply child_lt in Hc. lia.
  - by eapply Hbelow.
  - by eapply Habove.
  - eapply Hhole; eauto.
Qed.

Lemma _siftdown_loop_ordered fuel heap pos e :
  (pos ≤ fuel)%nat → (pos < length heap)%nat →
  hole_ordered heap pos → above_hole heap pos → fits_below heap pos e →
  heap_ordered (heapq._siftdown_loop fuel heap 0 pos e).
Proof.
  revert heap pos.
  induction fuel as [|fuel IH]; intros heap pos Hfuel Hlen Hhole Habove Hbelow;
    cbn [heapq._siftdown_loop].
  { apply fill_hole; [done..|]. intros i x Hc. apply child_lt in Hc. lia. }
  destruct (decide (0 < pos)%nat) as [Hpos|Hpos]; cycle 1.
  { apply fill_hole; [done..|]. intros i x Hc. apply child_lt in Hc. lia. }
  pose proof (parent_lt pos Hpos) as Hpp.
  assert (child ((pos - 1) / 2) pos) as Hcpp by by apply child_parent.
  destruct (heap !! _) as [parent|] eqn:Hparent; cycle 1.
  { apply lookup_ge_None in Hparent. lia. }
  destruct (entry_ltb e parent) eqn:Hlt.
  - apply IH.
    + lia.
    + rewrite length_insert. lia.
    + intros i j x y Hc Hi Hj Hx Hy.
      apply list_lookup_insert_Some in Hx as [(<- & <- & _)|[Hne Hx]];
        apply list_lookup_insert_Some in Hy as [(<- & <- & _)|[Hne' Hy]].
      * apply child_lt in Hc. lia.
      * by eapply (Habove _ j).
      * apply child_parent in Hc as [_ ->]. done.
      * eapply Hhole; eauto.
    + intros i k x y Hci Hck Hx Hy.
      assert (i ≠ pos) as Hi by (apply child_lt in Hci; lia).
      rewrite list_lookup_insert_ne in Hx by done.
      assert (entry_le x parent) as Hxp.
      { eapply (Hhole i); [exact Hci|done|lia|done..]. }
      apply list_lookup_insert_Some in Hy as [(<- & <- & _)|[Hne' Hy]]; [done|].
      eapply entry_le_trans; [done|].
      eapply (Hhole _ k); [exact Hck|lia|eauto..].
    + intros k y Hck Hy.
      apply list_lookup_insert_Some in Hy as [(<- & <- & _)|[Hne' Hy]].
      * by apply entry_ltb_le.
      * eapply entry_le_trans; [by apply entry_ltb_le|].
        eapply (Hhole _ k); [exact Hck|lia|eauto..].
  - apply fill_hole; [done..|]. intros i x Hc Hx.
    apply child_parent in Hc as [_ ->]. rewrite Hparent in Hx.
    by injection Hx as <-.
Qed.

(** [_siftdown] on a heap that is ordered but for its entry at [pos],
    when that entry is not above the children of [pos]. *)
Lemma _siftdown_ordered heap pos :
  hole_ordered heap pos → above_hole heap pos →
  (∀ e, heap !! pos = Some e → fits_below heap pos e) →
  heap_ordered (heapq._siftdown heap 0 pos) .
Proof.
  intros Hhole Habove Hbelow. unfold heapq._siftdown.
  destruct (heap !! pos) as [e|] eqn:He.
  - apply _siftdown_loop_ordered; eauto using lookup_lt_Some.
  - intros i j x y Hc Hx Hy. eapply Hhole; eauto; congruence.
Qed.

Lemma _siftup_loop_ordered fuel heap pos heap' pos' :
  (length heap ≤ pos + fuel)%nat →
  hole_ordered heap pos → above_hole heap pos →
  heapq._siftup_loop fuel heap pos = (heap', pos') →
  length heap' = length heap ∧ hole_ordered heap' pos'
  ∧ (length heap' ≤ 2 * pos' + 1)%nat.
Proof.
  revert heap pos.
  induction fuel as [|fuel IH]; intros heap pos Hfuel Hhole Habove;
    cbn [heapq._siftup_loop].
  { intros [= <- <-]. split_and!; [done..|lia]. }
  destruct (decide (2 * pos + 1 < length heap)%nat) as [Hleft|];
    [|intros [= <- <-]; split_and!; [done..|lia]].
  destruct (lookup_lt_is_Some_2 heap (2 * pos + 1)%nat Hleft) as [l Hl].
  rewrite Hl.
  set (childpos := match heap !! (2 * pos + 1 + 1)%nat with
                   | Some r => if entry_ltb l r then (2 * pos + 1)%nat
                               else (2 * pos + 1 + 1)%nat
                   | None => (2 * pos + 1)%nat
                   end).
  assert (∃ c, heap !! childpos = Some c ∧ child pos childpos
               ∧ ∀ k y, child pos k → heap !! k = Some y → entry_le c y)
    as (c & Hc & Hchild & Hleast).
  { unfold childpos. destruct (heap !! (2 * pos + 1 + 1)%nat) as [r|] eqn:Hr.
    - destruct (entry_ltb l r) eqn:Hlr.
      + exists l. split_and!; [done|by left|].
        intros k y [->| ->] Hy.
        * rewrite Hl in Hy. injection Hy as <-. apply entry_le_refl.
        * replace (2 * pos + 2)%nat with (2 * pos + 1 + 1)%nat in Hy by lia.
          rewrite Hr in Hy. injection Hy as <-. by apply entry_ltb_le.
      + exists r. split_and!; [done|right; lia|].
        intros k y [->| ->] Hy.
        * rewrite Hl in Hy. by injection Hy as <-.
        * replace (2 * pos + 2)%nat with (2 * pos + 1 + 1)%nat in Hy by lia.
          rewrite Hr in Hy. injection Hy as <-. apply entry_le_refl.
    - exists l. split_and!; [done|by left|].
      intros k y [->| ->] Hy.
      + rewrite Hl in Hy. injection Hy as <-. apply entry_le_refl.
      + replace (2 * pos + 2)%nat with (2 * pos + 1 + 1)%nat in Hy by lia.
        congruence. }
  clearbody childpos. rewrite Hc.
  assert (pos < childpos)%nat as Hlt by by apply child_lt.
  intros Hloop. apply IH in Hloop as (Hlen & Hhole' & Hleaf).
  - rewrite length_insert in Hlen. done.
  - rewrite length_insert. lia.
  - intros i j x y Hcij Hi Hj Hx Hy.
    apply list_lookup_insert_Some in Hx as [(<- & <- & _)|[Hne Hx]];
      apply list_lookup_insert_Some in Hy as [(<- & <- & _)|[Hne' Hy]].
    + apply child_lt in Hcij. lia.
    + by eapply Hleast.
    + by eapply (Habove i childpos).
    + eapply Hhole; eauto.
  - intros i k x y Hci Hck Hx Hy.
    assert (i = pos) as -> by by eapply child_inj.
    assert (k ≠ pos) as Hk by (apply child_lt in Hck; lia).
    rewrite list_lookup_insert_ne in Hy by done.
    apply list_lookup_insert_Some in Hx as [(_ & <- & _)|[? _]]; [|done].
    eapply (Hhole childpos k); [exact Hck|lia|done..].
Qed.

Lemma _siftup_ordered heap :
  hole_ordered heap 0 → heap_ordered (heapq._siftup heap 0).
Proof.
  intros Hhole. unfold heapq._siftup.
  destruct (heap !! 0%nat) as [newitem|] eqn:Hnew; cycle 1.
  { intros i j x y Hc Hx Hy. eapply Hhole; eauto; [congruence|].
    apply child_lt in Hc. lia. }
  destruct (heapq._siftup_loop _ _ _) as [heap' pos'] eqn:Hloop.
  apply _siftup_loop_ordered in Hloop as (Hlen & Hhole' & Hleaf); [|lia|done|].
  - apply _siftdown_ordered.
    + intros i j x y Hc Hi Hj Hx Hy.
      rewrite list_lookup_insert_ne in Hx, Hy by done. eapply Hhole'; eauto.
    + intros i k x y _ [->| ->] _ Hy; apply lookup_lt_Some in Hy;
        rewrite length_insert in Hy; lia.
    + intros e _ k y [->| ->] Hy; apply lookup_lt_Some in Hy;
        rewrite length_insert in Hy; lia.
  - intros i k x y Hc. apply child_lt in Hc. lia.
Qed.

Lemma heappush_ordered heap e :
  heap_ordered heap → heap_ordered (heapq.heappush heap e).
Proof.
  intros Hord. unfold heapq.heappush. cbv zeta.
  rewrite length_app. simpl.
  replace (length heap + 1 - 1)%nat with (length heap) by lia.
  apply _siftdown_ordered.
  - intros i j x y Hc Hi Hj Hx Hy.
    apply lookup_app_Some in Hx as [Hx|[Hge Hx]]; cycle 1.
    { apply lookup_lt_Some in Hx. simpl in Hx. lia. }
    apply lookup_app_Some in Hy as [Hy|[Hge Hy]]; cycle 1.
    { apply lookup_lt_Some in Hy. simpl in Hy. lia. }
    by eapply Hord.
  - intros i k x y _ [->| ->] _ Hy; apply lookup_lt_Some in Hy;
      rewrite length_app in Hy; simpl in Hy; lia.
  - intros e' _ k y [->| ->] Hy; apply lookup_lt_Some in Hy;
      rewrite length_app in Hy; simpl in Hy; lia.
Qed.

Lemma heappop_ordered heap e heap' :
  heap_ordered heap → heapq.heappop heap = Some (e, heap') → heap_ordered heap'.
Proof.
  intros Hord. unfold heapq.heappop.
  destruct (last heap) as [lastelt|] eqn:Hlast; [|done].
  apply last_Some in Hlast as [l ->]. rewrite removelast_last.
  destruct l as [|returnitem rest]; intros [= <- <-].
  { by intros i j x y _ ?. }
  apply _siftup_ordered. intros i j x y Hc Hi Hj Hx Hy.
  destruct i as [|i]; [done|]. destruct j as [|j]; [done|].
  apply (Hord (S i) (S j)); [done|simpl..]; by apply lookup_app_l_Some.
Qed.

(** In an ordered heap no entry is below [heap[0]]. *)
Lemma heap_ordered_head heap e x :
  heap_ordered heap → head heap = Some e → x ∈ heap → entry_le e x.
Proof.
  intros Hord Hhead [i Hx]%list_elem_of_lookup. rewrite head_lookup in Hhead.
  revert x Hx. induction (lt_wf i) as [i _ IH]; intros x Hx.
  destruct (decide (i = 0)%nat) as [->|Hi].
  { rewrite Hhead in Hx. injection Hx as <-. apply entry_le_refl. }
  assert ((i - 1) / 2 < i)%nat as Hp by (apply parent_lt; lia).
  destruct (lookup_lt_is_Some_2 heap ((i - 1) / 2)%nat) as [y Hy].
  { apply lookup_lt_Some in Hx. lia. }
  eapply entry_le_trans; [by apply (IH _ Hp)|].
  eapply (Hord _ i); [|done..]. apply child_parent. split; [lia|done].
Qed.
End heap_order.

(** ** The manager keeps its heap ordered *)

Section keeps_order.
Context `{Collaborators}.
Implicit Types (d : list (string * Task)) (w : world).

Lemma heap_ordered_nil : heap_ordered [].
Proof. by intros i j x y _ ?. Qed.

Lemma keeps_store_order {A} (m : M A) : keeps_store m → keeps_order m.
Proof. intros Hm w r w' Hrun Hord. apply Hm in Hrun as [_ ->]. done. Qed.

Lemma keeps_order_bind {A B} (m : M A) (k : A → M B) :
  keeps_order m → (∀ a, keeps_order (k a)) → keeps_order (m ≫= k).
Proof.
  intros Hm Hk w r w'. unfold mbind, M_bind, bind.
  destruct (m w) as [[a|e] w0] eqn:Hmw.
  - intros Hkw Hord. eapply Hk; [done|]. by eapply Hm.
  - intros [= <- <-]. by eapply Hm.
Qed.

Lemma keeps_order_modify (f : world → world) :
  (∀ w, heap_ordered (heap w) → heap_ordered (heap (f w))) →
  keeps_order (modify f).
Proof. intros Hf w r w' [= <- <-]. apply Hf. Qed.

Lemma keeps_order_mutate_task tid f : keeps_order (mutate_task tid f).
Proof. by apply keeps_order_modify. Qed.

Lemma keeps_order_for_each {A} (l : list A) body :
  (∀ x, keeps_order (body x)) → keeps_order (for_each l body).
Proof.
  intros Hbody. induction l as [|x l IH]; simpl.
  - apply keeps_store_order, keeps_ret'.
  - by apply keeps_order_bind.
Qed.

Lemma _rebuild_loop_ordered d heap :
  heap_ordered heap → heap_ordered (_rebuild_loop d heap).2.
Proof.
  revert heap. induction d as [|[k t] d IH]; intros heap Hord; simpl; [done|].
  destruct (completed t).
  - specialize (IH heap Hord). by destruct (_rebuild_loop d heap).
  - specialize (IH _ (heappush_ordered _ (ordering_key t, id t) Hord)).
    by destruct (_rebuild_loop d _).
Qed.

(** [_rebuild_heap] leaves an ordered heap, whatever the heap was. *)
Lemma _rebuild_heap_ordered w r w' :
  _rebuild_heap w = (r, w') → heap_ordered (heap w').
Proof.
  rewrite _rebuild_heap_run. intros [= <- <-]. simpl.
  apply _rebuild_loop_ordered, heap_ordered_nil.
Qed.

Lemma keeps_order_rebuild : keeps_order _rebuild_heap.
Proof. intros w r w' Hrun _. by eapply _rebuild_heap_ordered. Qed.

Lemma peek_loop_ordered fuel d heap :
  heap_ordered heap → heap_ordered (peek_loop fuel d heap).2.
Proof.
  revert heap. induction fuel as [|fuel IH]; intros heap Hord; simpl; [done|].
  destruct heap as [|[key tid] rest] eqn:Hheap; [done|]. rewrite <-Hheap in *.
  assert (heap_ordered
            (match heapq.heappop heap with
             | Some (_, heap') => peek_loop fuel d heap'
             | None => (None, heap)
             end).2) as Hdiscard.
  { destruct (heapq.heappop heap) as [[e heap']|] eqn:Hpop; [|done].
    apply IH. by eapply heappop_ordered. }
  destruct (Py.get tid d) as [t|]; [|done]. by destruct (completed t).
Qed.

Lemma pop_loop_ordered fuel d heap :
  heap_ordered heap → heap_ordered (pop_loop fuel d heap).2.
Proof.
  revert heap. induction fuel as [|fuel IH]; intros heap Hord; simpl; [done|].
  destruct (heapq.heappop heap) as [[[key tid] heap']|] eqn:Hpop; [|done].
  apply (heappop_ordered _ _ _ Hord) in Hpop.
  destruct (Py.get tid d) as [t|]; [|by apply IH].
  destruct (completed t); [by apply IH|done].
Qed.

Lemma keeps_order_peek_next : keeps_order peek_next.
Proof.
  intros w r w' Hrun Hord. unfold peek_next in Hrun.
  pose proof (peek_loop_ordered (length (heap w)) (tasks w) (heap w) Hord) as Hloop.
  destruct (peek_loop _ _ _). by injection Hrun as <- <-.
Qed.

Lemma keeps_order_pop_next : keeps_order pop_next.
Proof.
  intros w r w' Hrun Hord. unfold pop_next in Hrun.
  pose proof (pop_loop_ordered (length (heap w)) (tasks w) (heap w) Hord) as Hloop.
  destruct (pop_loop _ _ _). by injection Hrun as <- <-.
Qed.
End keeps_order.

Ltac keeps_order :=
  repeat first
    [ apply keeps_order_rebuild
    | apply keeps_order_mutate_task
    | apply keeps_order_for_each; intros ?
    | apply keeps_order_bind; [|intros ?]
    | apply keeps_store_order;
      first [ apply keeps_ret | apply keeps_ret' | apply keeps_raise
            | apply keeps_utcnow | apply keeps_uuid4 | apply keeps_parse
            | apply keeps_get_world | apply keeps_ai_parse_task
            | apply keeps_auto_assign | apply keeps_from_dict ]
    | progress case_match ].

Section keeps_order_ops.
Context `{Collaborators}.

Lemma keeps_order_add_task title description deadline_iso priority deps from_nlp
    tags minutes :
  keeps_order (add_task title description deadline_iso priority deps from_nlp
                 tags minutes).
Proof.
  unfold add_task. keeps_order.
  all: try (apply keeps_order_modify; intros w Hord; simpl; try done).
  all: by apply heappush_ordered.
Qed.

Lemma keeps_order_exec (c : command) : keeps_order (exec c).
Proof.
  destruct c; simpl.
  - apply keeps_order_bind; [apply keeps_order_add_task|].
    intros _. apply keeps_store_order, keeps_ret.
  - unfold update_task, update_field, get_task. keeps_order.
  - unfold delete_task. keeps_order. by apply keeps_order_modify.
  - unfold set_progress, get_task. keeps_order.
  - unfold complete_task, get_task. keeps_order.
  - unfold import_json, iterate. keeps_order.
    all: by apply keeps_order_modify.
Qed.
End keeps_order_ops.

(** ** [peek_next] and [pop_next] return the least live entry *)

Section least.
Context `{Collaborators}.
Implicit Types (d : list (string * Task)) (heap : list entry) (w : world).

Lemma elem_of_get {V} (d : list (string * V)) k v :
  NoDup d.*1 → (k, v) ∈ d → Py.get k d = Some v.
Proof.
  induction d as [|[k' v'] d IH]; [by intros _ ?%elem_of_nil|].
  rewrite fmap_cons. intros [Hk Hnodup]%NoDup_cons. simpl.
  intros [[= -> ->]|Hin]%elem_of_cons.
  - by rewrite decide_True.
  - rewrite decide_False; [by apply IH|].
    intros ->. apply Hk. by apply (list_elem_of_fmap_2 fst _ (k, v)).
Qed.

Lemma pop_loop_least fuel d heap t heap' :
  (length heap ≤ fuel)%nat → heap_ordered heap →
  pop_loop fuel d heap = (Some t, heap') →
  ∃ e, e ∈ heap ∧ Py.get e.2 d = Some t ∧ completed t = false
       ∧ ∀ e', e' ∈ heap → live d e' → entry_le e e'.
Proof.
  revert heap. induction fuel as [|fuel IH]; intros heap Hlen Hord; simpl; [done|].
  destruct (heapq.heappop heap) as [[[key tid] heap1]|] eqn:Hpop; [|done].
  pose proof (heappop_ordered _ _ _ Hord Hpop) as Hord1.
  apply heappop_Some in Hpop as [Hhead Hperm].
  assert (pop_loop fuel d heap1 = (Some t, heap') → ¬ live d (key, tid) →
          ∃ e, e ∈ heap ∧ Py.get e.2 d = Some t ∧ completed t = false
               ∧ ∀ e', e' ∈ heap → live d e' → entry_le e e') as Hdiscard.
  { intros Hloop Hdead. apply IH in Hloop as (e & Hin & Ht & Hc & Hleast); [|..|done].
    - exists e. split_and!; [|done..|].
      + rewrite Hperm. by right.
      + intros e' Hin' Hlive. rewrite Hperm in Hin'.
        apply elem_of_cons in Hin' as [->|Hin']; [done|]. by apply Hleast.
    - apply Permutation_length in Hperm. simpl in *. lia. }
  destruct (Py.get tid d) as [t0|] eqn:Ht.
  - destruct (completed t0) eqn:Hc.
    + intros Hloop. apply Hdiscard; [done|].
      apply not_live_get. simpl. by rewrite Ht.
    + intros [= <- <-]. exists (key, tid). split_and!; [|done..|].
      * by apply head_Some_elem_of.
      * intros e' Hin _. exact (heap_ordered_head heap _ _ Hord Hhead Hin).
  - intros Hloop. apply Hdiscard; [done|].
    apply not_live_get. simpl. by rewrite Ht.
Qed.

Lemma peek_loop_least fuel d heap t heap' :
  (length heap ≤ fuel)%nat → heap_ordered heap →
  peek_loop fuel d heap = (Some t, heap') →
  ∃ e, e ∈ heap ∧ Py.get e.2 d = Some t ∧ completed t = false
       ∧ ∀ e', e' ∈ heap → live d e' → entry_le e e'.
Proof.
  revert heap. induction fuel as [|fuel IH]; intros heap Hlen Hord; simpl; [done|].
  destruct heap as [|[key tid] rest] eqn:Hheap; [done|]. rewrite <-Hheap in *.
  assert (match heapq.heappop heap with
          | Some (_, heap1) => peek_loop fuel d heap1
          | None => (None, heap)
          end = (Some t, heap') → ¬ live d (key, tid) →
          ∃ e, e ∈ heap ∧ Py.get e.2 d = Some t ∧ completed t = false
               ∧ ∀ e', e' ∈ heap → live d e' → entry_le e e') as Hdiscard.
  { destruct (heapq.heappop heap) as [[e0 heap1]|] eqn:Hpop; [|done].
    pose proof (heappop_ordered _ _ _ Hord Hpop) as Hord1.
    apply heappop_Some in Hpop as [Hhead Hperm].
    rewrite Hheap in Hhead. injection Hhead as <-.
    intros Hloop Hdead. apply IH in Hloop as (e & Hin & Ht & Hc & Hleast); [|..|done].
    - exists e. split_and!; [|done..|].
      + rewrite Hperm. by right.
      + intros e' Hin' Hlive. rewrite Hperm in Hin'.
        apply elem_of_cons in Hin' as [->|Hin']; [done|]. by apply Hleast.
    - apply Permutation_length in Hperm. rewrite Hheap in *. simpl in *. lia. }
  destruct (Py.get tid d) as [t0|] eqn:Ht.
  - destruct (completed t0) eqn:Hc.
    + intros Hloop. apply Hdiscard; [done|].
      apply not_live_get. simpl. by rewrite Ht.
    + intros [= <- <-]. exists (key, tid). split_and!; [|done..|].
      * rewrite Hheap. left.
      * intros e' Hin _. apply (heap_ordered_head heap _ _ Hord); [|done].
        by rewrite Hheap.
  - intros Hloop. apply Hdiscard; [done|].
    apply not_live_get. simpl. by rewrite Ht.
Qed.

(** X10. The heap stays ordered as [heapq] wants it: whatever a call of
    the manager does, also one that raises, and whatever [peek_next] and
    [pop_next] discard, every entry is still not above its two
    children. *)
Theorem heap_stays_ordered (w : world) :
  heap_ordered (heap w) →
  (∀ c r w', exec c w = (r, w') → heap_ordered (heap w'))
  ∧ (∀ r w', peek_next w = (r, w') → heap_ordered (heap w'))
  ∧ (∀ r w', pop_next w = (r, w') → heap_ordered (heap w')).
Proof.
  intros Hord. split_and!.
  - intros c r w' Hrun. by eapply keeps_order_exec.
  - intros r w' Hrun. by eapply keeps_order_peek_next.
  - intros r w' Hrun. by eapply keeps_order_pop_next.
Qed.

(** X11. On an ordered heap, the task that [peek_next] or [pop_next]
    returns is the one of the least live entry: no entry of the heap that
    names a stored task that is not completed compares below its
    entry. *)
Theorem next_is_least (w : world) (t : Task) (w' : world) :
  heap_ordered (heap w) →
  peek_next w = (Return (Some t), w') ∨ pop_next w = (Return (Some t), w') →
  ∃ e, e ∈ heap w ∧ Py.get e.2 (tasks w) = Some t ∧ completed t = false
       ∧ ∀ e', e' ∈ heap w → live (tasks w) e' → entry_le e e'.
Proof.
  intros Hord [Hrun|Hrun].
  - unfold peek_next in Hrun.
    destruct (peek_loop _ _ _) as [r heap'] eqn:Hloop. injection Hrun as -> _.
    by eapply peek_loop_least.
  - unfold pop_next in Hrun.
    destruct (pop_loop _ _ _) as [r heap'] eqn:Hloop. injection Hrun as -> _.
    by eapply pop_loop_least.
Qed.

(** X12. Right after a call that rebuilds the heap, in a store where
    every task sits under its own id, [pop_next] hands out the most
    urgent task: a task that is not completed and whose entry
    [(priority, deadline, id)] is not above that of any other task that is
    not completed; it hands out none only when every task is
    completed. *)
Theorem pop_next_most_urgent (c : command) (w w1 : world) :
  exec c w = (Return (), w1) →
  rebuilds c = true →
  keeps_ids c →
  store_keyed (tasks w) →
  ∃ r w2,
    pop_next w1 = (Return r, w2)
    ∧ match r with
      | Some t =>
          t ∈ active (tasks w1)
          ∧ ∀ t', t' ∈ active (tasks w1) → entry_le (entry_of t) (entry_of t')
      | None => active (tasks w1) = []
      end.
Proof.
  intros Hrun Hreb Hids Hkeyed.
  pose proof (exec_keyed c w w1 Hrun Hids Hkeyed) as [Hnodup Hown].
  destruct (exec_ends_with_rebuild c w w1 Hrun Hreb) as [w0 Hw0].
  pose proof (_rebuild_heap_exact _ _ _ Hw0) as Hexact.
  pose proof (_rebuild_heap_ordered _ _ _ Hw0) as Hord.
  assert (∀ t', t' ∈ active (tasks w1) →
                Py.get (id t') (tasks w1) = Some t' ∧ completed t' = false) as Hact.
  { intros t' [Hc Hin]%list_elem_of_filter. split; [|done].
    apply list_elem_of_fmap in Hin as ([k t0] & -> & Hin).
    rewrite Forall_forall in Hown. pose proof (Hown _ Hin) as Hk. simpl in *.
    subst k. by apply elem_of_get. }
  unfold pop_next. destruct (pop_loop _ _ _) as [r heap'] eqn:Hloop.
  exists r, (set_heap heap' w1). split; [done|]. destruct r as [t|].
  - apply pop_loop_least in Hloop as (e & Hin & Ht & Hc & Hleast); [|done..].
    rewrite Hexact in Hin. apply list_elem_of_fmap in Hin as (t0 & -> & Hin).
    destruct (Hact _ Hin) as [Ht0 _]. simpl in Ht.
    assert (t0 = t) as -> by congruence.
    split; [done|]. intros t' Hin'. apply Hleast.
    + rewrite Hexact. by apply list_elem_of_fmap_2.
    + exists t'. by apply Hact.
  - apply pop_loop_spec in Hloop as [_ Hdead]; [|done].
    destruct (active (tasks w1)) as [|t' l] eqn:Hactive; [done|].
    rewrite Forall_forall in Hdead. destruct (Hdead (entry_of t')).
    + rewrite Hexact. left.
    + exists t'. apply Hact. left.
Qed.
End least.

Lemma heap_stays_ordered_witness :
  heap_ordered (heap TaskManager_init)
  ∧ (∀ c r w', exec (H := Demo.collaborators) c TaskManager_init = (r, w') →
               heap_ordered (heap w'))
  ∧ (∀ r w', peek_next TaskManager_init = (r, w') → heap_ordered (heap w'))
  ∧ (∀ r w', pop_next TaskManager_init = (r, w') → heap_ordered (heap w')).
Proof.
  split; [apply heap_ordered_nil|].
  apply (heap_stays_ordered (H := Demo.collaborators) TaskManager_init),
    heap_ordered_nil.
Defined.

Lemma next_is_least_witness :
  heap_ordered (heap Sample.two_tasks)
  ∧ pop_next Sample.two_tasks
    = (Return (Py.get "task-0" (tasks Sample.two_tasks)), Sample.popped)
  ∧ ∃ e, e ∈ heap Sample.two_tasks
         ∧ Py.get e.2 (tasks Sample.two_tasks) = Py.get "task-0" (tasks Sample.two_tasks)
         ∧ ∀ e', e' ∈ heap Sample.two_tasks → live (tasks Sample.two_tasks) e' →
                 entry_le e e'.
Proof.
  assert (heap_ordered (heap Sample.two_tasks)) as Hord.
  { eapply (keeps_order_add_task (H := Demo.collaborators)
              "Review report" "" None (Some 3) (Some ["task-0"; "ghost"]) false None None
              Sample.one_task _ Sample.two_tasks); [vm_compute; reflexivity|].
    eapply (keeps_order_add_task (H := Demo.collaborators)
              "Write report" "" None (Some 2) None false None None
              TaskManager_init _ Sample.one_task); [vm_compute; reflexivity|].
    apply heap_ordered_nil. }
  assert (∃ t, Py.get "task-0" (tasks Sample.two_tasks) = Some t) as [t Ht]
    by (eexists; by vm_compute).
  assert (pop_next Sample.two_tasks
          = (Return (Py.get "task-0" (tasks Sample.two_tasks)), Sample.popped))
    as Hpop by by vm_compute.
  split; [done|]. split; [done|].
  destruct (next_is_least Sample.two_tasks t Sample.popped Hord)
    as (e & Hin & Hget & _ & Hleast).
  { right. by rewrite Hpop, Ht. }
  exists e. split_and!; [done|by rewrite Ht|done].
Defined.

Lemma pop_next_most_urgent_witness :
  exec (H := Demo.collaborators) (UpdateTask "task-1" [kw_priority 1]) Sample.two_tasks
  = (Return (),
     Sample.after (exec (H := Demo.collaborators) (UpdateTask "task-1" [kw_priority 1]))
       Sample.two_tasks)
  ∧ rebuilds (UpdateTask "task-1" [kw_priority 1]) = true
  ∧ keeps_ids (UpdateTask "task-1" [kw_priority 1])
  ∧ store_keyed (tasks Sample.two_tasks)
  ∧ ∃ r w2,
      pop_next (Sample.after
                  (exec (H := Demo.collaborators) (UpdateTask "task-1" [kw_priority 1]))
                  Sample.two_tasks)
      = (Return r, w2)
      ∧ match r with
        | Some t =>
            t ∈ active (tasks (Sample.after
                                 (exec (H := Demo.collaborators)
                                    (UpdateTask "task-1" [kw_priority 1]))
                                 Sample.two_tasks))
            ∧ ∀ t', t' ∈ active (tasks (Sample.after
                                          (exec (H := Demo.collaborators)
                                             (UpdateTask "task-1" [kw_priority 1]))
                                          Sample.two_tasks)) →
                    entry_le (entry_of t) (entry_of t')
        | None =>
            active (tasks (Sample.after
                             (exec (H := Demo.collaborators)
                                (UpdateTask "task-1" [kw_priority 1]))
                             Sample.two_tasks)) = []
        end.
Proof.
  assert (store_keyed (tasks Sample.two_tasks)) as Hkeyed.
  { apply (bool_decide_unpack _). by vm_compute. }
  assert (keeps_ids (UpdateTask "task-1" [kw_priority 1])) as Hids.
  { simpl. repeat constructor. by intros []. }
  split; [by vm_compute|]. split; [done|]. split; [done|]. split; [done|].
  apply (pop_next_most_urgent (H := Demo.collaborators)
           (UpdateTask "task-1" [kw_priority 1]) Sample.two_tasks);
    [by vm_compute|done..].
Defined.
(** ** What [add_task] stores *)

Section add_task_more.
Context `{Collaborators}.

Lemma get_set_ne {V} (d : list (string * V)) k k' v :
  k ≠ k' → Py.get k (Py.set k' v d) = Py.get k d.
Proof.
  intros Hne. induction d as [|[k0 v0] d IH]; simpl.
  - by rewrite decide_False.
  - destruct (decide (k0 = k')) as [->|]; simpl.
    + by rewrite !decide_False.
    + destruct (decide (k0 = k)); [done|]. apply IH.
Qed.

(** The loop that appends the ids not listed yet. *)
Lemma append_new_spec (deps acc : list string) :
  NoDup acc →
  NoDup (foldl (λ acc dep_id, if decide (dep_id ∈ acc) then acc else acc ++ [dep_id])
           acc deps)
  ∧ ∀ x, x ∈ foldl (λ acc dep_id, if decide (dep_id ∈ acc) then acc else acc ++ [dep_id])
               acc deps
         ↔ x ∈ acc ∨ x ∈ deps.
Proof.
  revert acc. induction deps as [|dep deps IH]; intros acc Hacc; simpl.
  { split; [done|]. intros x. rewrite elem_of_nil. tauto. }
  destruct (decide (dep ∈ acc)) as [Hin|Hout].
  - destruct (IH acc Hacc) as [Hnodup Hiff]. split; [done|].
    intros x. rewrite Hiff, elem_of_cons. split; [tauto|].
    intros [?|[->|?]]; tauto.
  - destruct (IH (acc ++ [dep])) as [Hnodup Hiff].
    { apply NoDup_app. split_and!; [done| |apply NoDup_singleton].
      by intros x ? ->%list_elem_of_singleton. }
    split; [done|]. intros x.
    rewrite Hiff, elem_of_app, list_elem_of_singleton, elem_of_cons. tauto.
Qed.

Lemma add_task_fields title description deadline_iso priority_given deps
    from_nlp tags_given minutes w t w' :
  add_task title description deadline_iso priority_given deps from_nlp tags_given
    minutes w
    = (Return t, w') →
  reminded t = false
  ∧ dependencies t
    = foldl (λ acc dep_id, if decide (dep_id ∈ acc) then acc else acc ++ [dep_id])
        [] (default [] deps)
  ∧ match priority_given with
    | Some p =>
        priority t = p ∧ auto_assigned t = false
        ∧ tags t = default [] tags_given ∧ estimated_minutes t = minutes
    | None =>
        from_nlp = false →
        auto_assigned t = true
        ∧ (priority t = 1 ∨ priority t = 2 ∨ priority t = 3
           ∨ priority t = 5 ∨ priority t = 7)
        ∧ ∃ m, estimated_minutes t = Some m ∧ 15 ≤ m ≤ 80
    end.
Proof.
  unfold add_task. intros Hrun.
  inv_bind Hrun. destruct a as [[[title' description'] deadline_iso'] priority'].
  assert (match priority_given with
          | Some p => priority' = Some p
          | None => from_nlp = false → priority' = None
          end) as Hp.
  { destruct from_nlp.
    - inv_bind Hrun0. unfold ret in Hrun0. injection Hrun0 as _ _ _ <- _.
      by destruct priority_given.
    - unfold ret in Hrun0. injection Hrun0 as _ _ _ <- _. by destruct priority_given. }
  clear Hrun0. inv_bind Hrun. clear Hrun0. inv_bind Hrun.
  destruct a0 as [[[[priority'' deadline''] auto_tags] estimated_minutes] auto_assigned].
  assert (match priority' with
          | Some p =>
              priority'' = p ∧ auto_assigned = false
              ∧ auto_tags = default [] tags_given ∧ estimated_minutes = minutes
          | None =>
              auto_assigned = true
              ∧ (priority'' = 1 ∨ priority'' = 2 ∨ priority'' = 3
                 ∨ priority'' = 5 ∨ priority'' = 7)
              ∧ ∃ m, estimated_minutes = Some m ∧ 15 ≤ m ≤ 80
          end) as Hq.
  { destruct priority' as [p|].
    - unfold ret in Hrun0. by injection Hrun0 as <- _ <- <- <- _.
    - inv_bind Hrun0. unfold ret in Hrun0.
      match goal with
      | Hauto : auto_assign_priority_and_deadline _ _ _ _ = (Return ?a, _) |- _ =>
          destruct a as [[[p d] tg] m];
          apply auto_assign_Return in Hauto as (_ & -> & Hpr & _)
      end.
      injection Hrun0 as <- _ <- <- <- _.
      split; [done|]. split; [done|]. eexists. split; [done|]. lia. }
  clear Hrun0.
  inv_bind Hrun. clear Hrun0. inv_bind Hrun. clear Hrun0.
  cbv zeta in Hrun. do 4 inv_bind Hrun. injection Hrun as <- _. simpl.
  split; [done|]. split; [done|].
  destruct priority_given as [p|].
  - by rewrite Hp in Hq.
  - intros Hnlp. by rewrite (Hp Hnlp) in Hq.
Qed.

(** X13. A call of [add_task] that returns has stored the task it returns
    under that task's id and has left every other key as it was.  The
    task is not completed, has no progress and is not reminded; its
    ordering key is made of its priority and deadline; its dependencies
    are the ids given, each once.  An explicit priority is
    kept as given, with the tags and the estimate given, and the task is
    not marked as auto-assigned; without a priority (and without the
    natural-language parse) the task is marked as auto-assigned, with a
    priority among 1, 2, 3, 5 and 7 and an estimate between 15 and 80
    minutes. *)
Theorem add_task_result (title description : string) (deadline_iso : option string)
    (priority_given : option Z) (deps : option (list string)) (from_nlp : bool)
    (tags_given : option (list string)) (minutes : option Z) (w : world)
    (t : Task) (w' : world) :
  add_task title description deadline_iso priority_given deps from_nlp
    tags_given minutes w = (Return t, w') →
  Py.get (id t) (tasks w') = Some t
  ∧ (∀ k, k ≠ id t → Py.get k (tasks w') = Py.get k (tasks w))
  ∧ completed t = false ∧ progress t = 0 ∧ reminded t = false
  ∧ sort_index t = ordering_key t
  ∧ NoDup (dependencies t)
  ∧ (∀ x, x ∈ dependencies t ↔ x ∈ default [] deps)
  ∧ match priority_given with
    | Some p =>
        priority t = p ∧ auto_assigned t = false
        ∧ tags t = default [] tags_given ∧ estimated_minutes t = minutes
    | None =>
        from_nlp = false →
        auto_assigned t = true
        ∧ (priority t = 1 ∨ priority t = 2 ∨ priority t = 3
           ∨ priority t = 5 ∨ priority t = 7)
        ∧ ∃ m, estimated_minutes t = Some m ∧ 15 ≤ m ≤ 80
    end.
Proof.
  intros Hrun.
  destruct (add_task_Return _ _ _ _ _ _ _ _ _ _ _ Hrun) as (Htasks & _ & Hc & Hp & Hs).
  destruct (add_task_fields _ _ _ _ _ _ _ _ _ _ _ Hrun) as (Hr & Hdeps & Hprio).
  destruct (append_new_spec (default [] deps) [] (NoDup_nil_2)) as [Hnodup Hiff].
  rewrite Htasks. split_and!; try done.
  - apply get_set_eq.
  - intros k Hk. by apply get_set_ne.
  - by rewrite Hdeps.
  - intros x. rewrite Hdeps, Hiff, elem_of_nil. tauto.
Qed.
End add_task_more.

Lemma add_task_result_witness :
  ∃ t w',
    add_task (H := Demo.collaborators) "Review report" "" None (Some 3)
      (Some ["task-0"; "ghost"; "task-0"]) false (Some ["office"]) (Some 30)
      Sample.one_task = (Return t, w')
    ∧ Py.get (id t) (tasks w') = Some t
    ∧ NoDup (dependencies t)
    ∧ priority t = 3 ∧ tags t = ["office"].
Proof.
  eexists _, _. split; [vm_compute; reflexivity|].
  edestruct (add_task_result (H := Demo.collaborators) "Review report" "" None (Some 3)
               (Some ["task-0"; "ghost"; "task-0"]) false (Some ["office"]) (Some 30)
               Sample.one_task)
    as (Hget & _ & _ & _ & _ & _ & Hnodup & _ & Hp & _ & Htags & _);
    [vm_compute; reflexivity|].
  split_and!; [exact Hget|exact Hnodup|exact Hp|exact Htags].
Defined.
(** ** The route [api_mark_reminded] *)

Section mark_reminded.
Context `{Collaborators}.

Lemma mutate_idem {V} (d : list (string * V)) k f :
  (∀ v, f (f v) = f v) → Py.mutate k f (Py.mutate k f d) = Py.mutate k f d.
Proof.
  intros Hf. induction d as [|[k' v] d IH]; simpl; [done|].
  destruct (decide (k' = k)); simpl; rewrite ?decide_True, ?decide_False by done;
    by rewrite ?Hf, ?IH.
Qed.

(** X14. The route [api_mark_reminded] touches nothing but the flag
    [reminded]: whatever the request and the outcome, the heap and the
    keys of the store are as before, and each task is as before or has
    its flag set; unless the answer is 200 nothing changes at all; and
    the same request sent again gets the same answer and changes
    nothing. *)
Theorem mark_reminded_only_flags (request_json : json) (w : world)
    (r : outcome (json * Z)) (w' : world) :
  api_mark_reminded request_json w = (r, w') →
  heap w' = heap w
  ∧ (tasks w').*1 = (tasks w).*1
  ∧ (∀ k, Py.get k (tasks w') = Py.get k (tasks w)
          ∨ Py.get k (tasks w') = set_reminded true <$> Py.get k (tasks w))
  ∧ ((∀ body, r ≠ Return (body, 200)) → w' = w)
  ∧ api_mark_reminded request_json w' = (r, w').
Proof.
  unfold api_mark_reminded, request_id.
  destruct (if truthy request_json then request_json else JDict [])
    as [| | | | |data]; run_monad; try (intros [= <- <-]; by split_and!; auto).
  destruct (truthy (get_or JNull "id" data)) eqn:Htid; simpl;
    [|intros [= <- <-]; by split_and!; auto].
  destruct (get_or JNull "id" data) as [| | |s| |]; simpl;
    try (intros [= <- <-]; by split_and!; auto).
  destruct (Py.get s (tasks w)) as [t|] eqn:Ht; simpl;
    [|intros [= <- <-]; rewrite Ht; by split_and!; auto].
  intros [= <- <-]. simpl. rewrite get_mutate_eq, Ht. simpl. split_and!.
  - done.
  - apply keys_mutate.
  - intros k. destruct (decide (s = k)) as [<-|Hne].
    + right. by rewrite get_mutate_eq.
    + left. by apply get_mutate_ne.
  - intros Hnot. by destruct (Hnot (JDict [("ok", JBool true)])).
  - by rewrite mutate_idem.
Qed.
End mark_reminded.

Lemma mark_reminded_only_flags_witness :
  ∃ r w',
    api_mark_reminded (JDict [("id", JStr "task-1")]) Sample.two_tasks = (r, w')
    ∧ r = Return (JDict [("ok", JBool true)], 200)
    ∧ heap w' = heap Sample.two_tasks
    ∧ api_mark_reminded (JDict [("id", JStr "task-1")]) w' = (r, w').
Proof.
  eexists _, _. split; [vm_compute; reflexivity|]. split; [reflexivity|].
  edestruct (mark_reminded_only_flags (JDict [("id", JStr "task-1")]) Sample.two_tasks)
    as (Hheap & _ & _ & _ & Hagain); [vm_compute; reflexivity|].
  split; [exact Hheap|exact Hagain].
Defined.
(** ** The title [ai_parse_task] makes *)

Section parse_title.
Context `{Collaborators}.

Lemma length_app_string (a b : string) :
  String.length (a +:+ b) = (String.length a + String.length b)%nat.
Proof. induction a as [|c a IH]; simpl; [done|]. by rewrite IH. Qed.

(** [s[:n]] is a prefix of [s], of [min n (len s)] characters. *)
Lemma slice_to_prefix n s :
  String.length (Py.slice_to n s) = (n `min` String.length s)%nat
  ∧ ∃ rest, s = Py.slice_to n s +:+ rest.
Proof.
  unfold Py.slice_to. revert s. induction n as [|n IH]; intros s.
  - destruct s; simpl; (split; [done|]); by eexists.
  - destruct s as [|c s]; simpl.
    + split; [done|]. by exists "".
    + destruct (IH s) as [Hlen [rest Hrest]]. split; [by rewrite Hlen|].
      exists rest. change (String c s = String c (String.substring 0 n s +:+ rest)).
      by f_equal.
Qed.

(** X15. The parse stub always returns, and changes neither the tasks
    nor the heap.  The title it makes has at most 60 characters: it is the
    text itself when that has at most 60 characters, and otherwise the
    first 57 characters of the text followed by three dots.  The
    description is the whole text; no dependency and no estimate is ever
    extracted. *)
Theorem ai_parse_task_title (natural_text : string) (w : world) :
  ∃ p w',
    ai_parse_task natural_text w = (Return p, w')
    ∧ tasks w' = tasks w ∧ heap w' = heap w
    ∧ (String.length (parsed_title p) ≤ 60)%nat
    ∧ ((String.length natural_text ≤ 60)%nat → parsed_title p = natural_text)
    ∧ ((60 < String.length natural_text)%nat →
       ∃ start rest,
         natural_text = start +:+ rest ∧ String.length start = 57%nat
         ∧ parsed_title p = start +:+ "...")
    ∧ parsed_description p = natural_text
    ∧ parsed_dependencies p = []
    ∧ parsed_estimated_minutes p = None.
Proof.
  unfold ai_parse_task. cbv zeta.
  set (out_title := if bool_decide (String.length natural_text ≤ 60)%nat
                    then natural_text else Py.slice_to 57 natural_text +:+ "...").
  assert ((String.length out_title ≤ 60)%nat
          ∧ ((String.length natural_text ≤ 60)%nat → out_title = natural_text)
          ∧ ((60 < String.length natural_text)%nat →
             ∃ start rest,
               natural_text = start +:+ rest ∧ String.length start = 57%nat
               ∧ out_title = start +:+ "...")) as Htitle.
  { destruct (slice_to_prefix 57 natural_text) as [Hlen [rest Hrest]].
    unfold out_title. case_bool_decide as Hle.
    - split_and!; [done|done|lia].
    - split_and!; [|done|].
      + rewrite length_app_string, Hlen.
        change (String.length "...") with 3%nat. lia.
      + intros _. exists (Py.slice_to 57 natural_text), rest.
        split_and!; [done|lia|done]. }
  clearbody out_title. destruct Htitle as (Hlen & Hshort & Hlong).
  destruct (Py.contains "tomorrow" _); [|destruct (Py.contains "today" _)];
    run_monad; eexists _, _; (split; [done|]); simpl; by split_and!.
Qed.
End parse_title.
(** ** Listing, looking up, and what [peek_next] promises *)

Section queries.
Context `{Collaborators}.
Implicit Types (d : list (string * Task)) (heap : list entry) (w : world).

(** X16. In a store where every task sits under its own id, listing
    and looking up agree: [list_tasks()] holds exactly the tasks that
    [get_task] finds under their id, and [list_tasks(False)] is that
    list without the completed tasks, in the same order.  Neither call
    changes anything. *)
Theorem list_tasks_agrees_with_get_task (w : world) :
  store_keyed (tasks w) →
  ∃ l,
    list_tasks true w = (Return l, w)
    ∧ (∀ t, t ∈ l ↔ get_task (id t) w = (Return (Some t), w))
    ∧ list_tasks false w = (Return (filter (λ t, completed t = false) l), w).
Proof.
  intros [Hnodup Hown]. exists (Py.values (tasks w)). split; [done|].
  split; [|done]. intros t. unfold get_task. run_monad. split.
  - intros ([k t0] & -> & Hin)%list_elem_of_fmap.
    rewrite Forall_forall in Hown. pose proof (Hown _ Hin) as Hk. simpl in *.
    subst k. by rewrite (elem_of_get _ _ _ Hnodup Hin).
  - intros [= Hget]. apply get_Some_elem_of in Hget.
    by apply (list_elem_of_fmap_2 snd _ (id t, t)).
Qed.

(** [peek_loop] and [pop_loop] stop on the same task. *)
Lemma peek_pop_loop fuel d heap :
  (peek_loop fuel d heap).1 = (pop_loop fuel d heap).1.
Proof.
  revert heap. induction fuel as [|fuel IH]; intros heap; simpl; [done|].
  destruct heap as [|[key tid] rest] eqn:Hheap; [done|]. rewrite <-Hheap.
  destruct (heapq.heappop heap) as [[e heap1]|] eqn:Hpop; cycle 1.
  { apply heappop_None in Hpop. congruence. }
  pose proof (heappop_Some _ _ _ Hpop) as [Hhead _].
  rewrite Hheap in Hhead. injection Hhead as <-.
  destruct (Py.get tid d) as [t|]; [|apply IH].
  destruct (completed t); [apply IH|done].
Qed.

(** X17. [peek_next] shows what [pop_next] hands out: called instead of
    [peek_next], or right after it, [pop_next] returns the very result
    [peek_next] returned. *)
Theorem peek_next_predicts_pop_next (w : world) (r : option Task) (w1 : world) :
  peek_next w = (Return r, w1) →
  (∃ w2, pop_next w = (Return r, w2)) ∧ (∃ w3, pop_next w1 = (Return r, w3)).
Proof.
  unfold peek_next, pop_next. intros Hpeek.
  pose proof (peek_pop_loop (length (heap w)) (tasks w) (heap w)) as Hsame.
  destruct (peek_loop _ _ _) as [r0 heap'] eqn:Hloop. injection Hpeek as -> <-.
  simpl in *. split.
  - destruct (pop_loop (length (heap w)) (tasks w) (heap w)) as [r1 heap1].
    assert (r = r1) as <- by exact Hsame. by eexists.
  - pose proof (peek_pop_loop (length heap') (tasks w) heap') as Hsame'.
    apply peek_loop_spec in Hloop as (dropped & _ & _ & Hr); [|done].
    assert (peek_loop (length heap') (tasks w) heap' = (r, heap')) as Hagain.
    { destruct r as [t|].
      - destruct Hr as (e & Hhead & Ht & Hc). by eapply peek_loop_again.
      - by subst heap'. }
    rewrite Hagain in Hsame'. clear Hsame.
    destruct (pop_loop (length heap') (tasks w) heap') as [r1 heap1].
    assert (r = r1) as <- by exact Hsame'. by eexists.
Qed.

(** X18. Between two rebuilds [pop_next] hands the tasks out in order,
    each once: right after a call that rebuilds the heap, in a store
    where every task sits under its own id, two calls of [pop_next] in a
    row return two different tasks, and the entry of the first is not
    above the entry of the second. *)
Theorem pop_next_in_order (c : command) (w w1 : world) (t1 t2 : Task) (w2 w3 : world) :
  exec c w = (Return (), w1) →
  rebuilds c = true →
  keeps_ids c →
  store_keyed (tasks w) →
  pop_next w1 = (Return (Some t1), w2) →
  pop_next w2 = (Return (Some t2), w3) →
  id t1 ≠ id t2 ∧ entry_le (entry_of t1) (entry_of t2).
Proof.
  intros Hrun Hreb Hids Hkeyed Hpop1 Hpop2.
  pose proof (exec_keyed c w w1 Hrun Hids Hkeyed) as [Hnodup Hown].
  destruct (exec_ends_with_rebuild c w w1 Hrun Hreb) as [w0 Hw0].
  pose proof (_rebuild_heap_exact _ _ _ Hw0) as Hexact.
  pose proof (_rebuild_heap_ordered _ _ _ Hw0) as Hord.
  assert (∀ t', t' ∈ active (tasks w1) → Py.get (id t') (tasks w1) = Some t') as Hact.
  { intros t' [Hc Hin]%list_elem_of_filter.
    apply list_elem_of_fmap in Hin as ([k t0] & -> & Hin).
    rewrite Forall_forall in Hown. pose proof (Hown _ Hin) as Hk. simpl in *.
    subst k. by apply elem_of_get. }
  assert (∀ e t, e ∈ heap w1 → Py.get e.2 (tasks w1) = Some t → e = entry_of t)
    as Hentry.
  { intros e t Hin Ht. rewrite Hexact in Hin.
    apply list_elem_of_fmap in Hin as (t0 & -> & Hin).
    apply Hact in Hin. simpl in Ht. congruence. }
  assert (NoDup ((heap w1).*2)) as Hids1.
  { rewrite Hexact. rewrite <-list_fmap_compose.
    apply (sublist_NoDup _ ((tasks w1).*1)); [done|].
    destruct (keyed_values (tasks w1) Hown) as [_ <-].
    apply (fmap_sublist id), sublist_filter. }
  unfold pop_next in Hpop1, Hpop2.
  destruct (pop_loop _ _ (heap w1)) as [r1 heap1] eqn:Hloop1.
  injection Hpop1 as -> <-. simpl in Hpop2.
  destruct (pop_loop _ _ heap1) as [r2 heap2] eqn:Hloop2.
  injection Hpop2 as -> _.
  pose proof (pop_loop_least _ _ _ _ _ (le_n _) Hord Hloop1)
    as (e1 & Hin1 & Hget1 & _ & Hleast).
  apply pop_loop_spec in Hloop1 as (dropped1 & e1' & Hperm1 & _ & Hget1' & _); [|done].
  apply pop_loop_spec in Hloop2 as (dropped2 & e2 & Hperm2 & _ & Hget2 & Hc2); [|done].
  assert (e1' ∈ heap w1) as Hin1'.
  { rewrite Hperm1, elem_of_app. right. left. }
  assert (e2 ∈ heap1) as Hin2.
  { rewrite Hperm2, elem_of_app. right. left. }
  assert (e2 ∈ heap w1) as Hin2'.
  { rewrite Hperm1, elem_of_app. right. by right. }
  pose proof (Hentry _ _ Hin1 Hget1) as ->.
  pose proof (Hentry _ _ Hin1' Hget1') as ->.
  pose proof (Hentry _ _ Hin2' Hget2) as ->.
  split.
  - intros Heq. rewrite Hperm1, fmap_app, fmap_cons in Hids1.
    apply NoDup_app in Hids1 as (_ & _ & [Hout _]%NoDup_cons).
    apply Hout. simpl. rewrite Heq.
    by apply (list_elem_of_fmap_2 snd _ (entry_of t2)).
  - apply Hleast; [done|]. by exists t2.
Qed.
End queries.

Lemma list_tasks_agrees_with_get_task_witness :
  store_keyed (tasks Sample.two_tasks)
  ∧ ∃ l,
      list_tasks true Sample.two_tasks = (Return l, Sample.two_tasks)
      ∧ (∀ t, t ∈ l ↔ get_task (id t) Sample.two_tasks
                       = (Return (Some t), Sample.two_tasks))
      ∧ list_tasks false Sample.two_tasks
        = (Return (filter (λ t, completed t = false) l), Sample.two_tasks).
Proof.
  assert (store_keyed (tasks Sample.two_tasks)) as Hkeyed.
  { apply (bool_decide_unpack _). by vm_compute. }
  split; [done|].
  exact (list_tasks_agrees_with_get_task Sample.two_tasks Hkeyed).
Defined.

Lemma peek_next_predicts_pop_next_witness :
  ∃ r w1,
    peek_next Sample.two_tasks = (Return r, w1)
    ∧ is_Some r
    ∧ (∃ w2, pop_next Sample.two_tasks = (Return r, w2))
    ∧ (∃ w3, pop_next w1 = (Return r, w3)).
Proof.
  eexists _, _. split; [vm_compute; reflexivity|]. split; [by eexists|].
  eapply (peek_next_predicts_pop_next Sample.two_tasks). vm_compute. reflexivity.
Defined.

Lemma pop_next_in_order_witness :
  ∃ t1 t2 w1 w2 w3,
    exec (H := Demo.collaborators) (UpdateTask "task-1" [kw_priority 1]) Sample.two_tasks
    = (Return (), w1)
    ∧ pop_next w1 = (Return (Some t1), w2)
    ∧ pop_next w2 = (Return (Some t2), w3)
    ∧ id t1 = "task-1" ∧ id t2 = "task-0"
    ∧ id t1 ≠ id t2 ∧ entry_le (entry_of t1) (entry_of t2).
Proof.
  assert (store_keyed (tasks Sample.two_tasks)) as Hkeyed.
  { apply (bool_decide_unpack _). by vm_compute. }
  assert (keeps_ids (UpdateTask "task-1" [kw_priority 1])) as Hids.
  { simpl. repeat constructor. by intros []. }
  eexists _, _, _, _, _.
  split; [vm_compute; reflexivity|]. split; [vm_compute; reflexivity|].
  split; [vm_compute; reflexivity|]. split; [reflexivity|]. split; [reflexivity|].
  eapply (pop_next_in_order (H := Demo.collaborators)
            (UpdateTask "task-1" [kw_priority 1]) Sample.two_tasks);
    [vm_compute; reflexivity|done|done|done
    |vm_compute; reflexivity|vm_compute; reflexivity].
Defined.
(** ** [import_json] replaces the store *)

Section import_replaces.
Context `{Collaborators}.

Lemma blind_ret {A} (a : A) : heap_blind (ret a).
Proof. done. Qed.

Lemma blind_raise {A} e : heap_blind (raise e : M A).
Proof. done. Qed.

Lemma blind_bind {A B} (m : M A) (k : A → M B) :
  heap_blind m → (∀ a, heap_blind (k a)) → heap_blind (m ≫= k).
Proof.
  intros Hm Hk h w. unfold mbind, M_bind, bind. rewrite Hm.
  destruct (m w) as [[a|e] w0]; simpl; [apply Hk|done].
Qed.

Lemma blind_utcnow : heap_blind datetime_utcnow.
Proof. done. Qed.

Lemma blind_uuid4 : heap_blind str_uuid4.
Proof. done. Qed.

Lemma blind_parse text : heap_blind (parse text).
Proof. unfold parse. by destruct (dateparser_parse text). Qed.

Lemma blind_as_strs l : heap_blind (as_strs l).
Proof.
  induction l as [|v l IH]; simpl; [apply blind_ret|].
  apply blind_bind; [by destruct v|].
  intros s. apply blind_bind; [done|]. intros r. apply blind_ret.
Qed.

Lemma blind_from_dict td : heap_blind (from_dict td).
Proof.
  unfold from_dict, as_int, as_str, as_bool, as_opt_int, as_str_list, parse_value.
  destruct td; try apply blind_raise.
  repeat first
    [ apply blind_ret | apply blind_raise | apply blind_utcnow
    | apply blind_uuid4 | apply blind_parse | apply blind_as_strs
    | apply blind_bind; [|intros ?]
    | progress case_match ].
Qed.

Lemma blind_for_each {A} (l : list A) body :
  (∀ x, heap_blind (body x)) → heap_blind (for_each l body).
Proof.
  intros Hbody. induction l as [|x l IH]; simpl; [apply blind_ret|].
  by apply blind_bind.
Qed.

Lemma blind_iterate v : heap_blind (iterate v).
Proof. by destruct v. Qed.

Lemma _rebuild_heap_set_heap h w : _rebuild_heap (set_heap h w) = _rebuild_heap w.
Proof. by rewrite !_rebuild_heap_run. Qed.

Lemma blind_import_record td :
  heap_blind (t ← from_dict td;
              modify (λ w, set_tasks (Py.set (id t) t (tasks w)) w)).
Proof. apply blind_bind; [apply blind_from_dict|]. by intros t. Qed.

(** X19. [import_json] replaces the store, it does not merge into it: a
    call that returns leaves the very state it would have left had the
    manager held any other tasks and any other heap before. *)
Theorem import_json_replaces (json_str : string) (w w' : world)
    (d : list (string * Task)) (h : list entry) :
  import_json json_str w = (Return (), w') →
  import_json json_str (set_heap h (set_tasks d w)) = (Return (), w').
Proof.
  unfold import_json. intros Hrun.
  inv_bind Hrun. destruct (json_loads json_str) as [v|]; [|done].
  injection Hrun0 as -> <-.
  inv_bind Hrun. destruct a as [| | | | |data]; try done.
  injection Hrun0 as <- <-.
  inv_bind Hrun. injection Hrun0 as _ <-.
  inv_bind Hrun. inv_bind Hrun. destruct a1.
  rewrite (bind_run _ _ _ (JDict data) (set_heap h (set_tasks d w))) by done.
  rewrite (bind_run _ _ _ (get_or (JList []) "tasks" data)
             (set_heap h (set_tasks d w))) by done.
  rewrite (bind_run (modify (set_tasks [])) _ _ () (set_heap h (set_tasks [] w)))
    by done.
  rewrite (bind_run (iterate _) _ _ a0 (set_heap h w0))
    by (by rewrite blind_iterate, Hrun0).
  rewrite (bind_run (for_each _ _) _ _ () (set_heap h w1))
    by (rewrite blind_for_each, Hrun1; [done|apply blind_import_record]).
  by rewrite _rebuild_heap_set_heap.
Qed.
End import_replaces.

Lemma import_json_replaces_witness :
  ∃ w',
    import_json (H := Demo.collaborators)
      (Demo.json_dumps (snapshot (H := Demo.collaborators) (tasks Sample.one_task)))
      Sample.two_tasks = (Return (), w')
    ∧ import_json (H := Demo.collaborators)
        (Demo.json_dumps (snapshot (H := Demo.collaborators) (tasks Sample.one_task)))
        (set_heap [] (set_tasks [] Sample.two_tasks)) = (Return (), w')
    ∧ (tasks w').*1 = ["task-0"].
Proof.
  eexists. split; [vm_compute; reflexivity|]. split; [|reflexivity].
  apply (import_json_replaces (H := Demo.collaborators)). vm_compute. reflexivity.
Defined.
(** ** The route [api_complete] *)

Section route_complete.
Context `{Collaborators}.

Lemma complete_task_Raise tid w e w' :
  complete_task tid w = (Raise e, w') → w' = w.
Proof.
  unfold complete_task.
  rewrite (bind_run _ _ _ (Py.get tid (tasks w)) w) by done.
  destruct (Py.get tid (tasks w)) as [t|]; [|by intros [= _ <-]].
  rewrite (bind_run _ _ _ w w) by done.
  destruct (filter _ _); [|by intros [= _ <-]].
  do 2 erewrite bind_run by reflexivity. by rewrite _rebuild_heap_run.
Qed.

(** X20. The route [api_complete], on a request that is a mapping, always
    answers, with status 200 or 400 and never 404.  It answers 200 exactly
    when the id given is a non-empty text that names a stored task all of
    whose dependencies resolve; the task is then completed, with progress
    100.  When it answers 400 the state is as before. *)
Theorem api_complete_outcome (data : list (string * json)) (w : world) :
  ∃ err status w',
    api_complete (JDict data) w = (Return (err, status), w')
    ∧ (status = 200 ∨ status = 400)
    ∧ (status = 200 ↔ err = None)
    ∧ (status = 400 → w' = w)
    ∧ (status = 200 ↔
       ∃ s t, get_or JNull "id" data = JStr s ∧ s ≠ ""
              ∧ Py.get s (tasks w) = Some t
              ∧ Forall (resolved (tasks w)) (dependencies t))
    ∧ (status = 200 →
       ∀ s, get_or JNull "id" data = JStr s →
            ∃ t, Py.get s (tasks w') = Some t
                 ∧ completed t = true ∧ progress t = 100).
Proof.
  unfold api_complete, request_id.
  assert ((if truthy (JDict data) then JDict data else JDict []) = JDict data) as ->
    by by destruct data.
  rewrite (bind_run _ _ _ (get_or JNull "id" data) w) by done.
  assert (∀ e : exn,
            (∀ s t, get_or JNull "id" data = JStr s → s ≠ "" →
                    Py.get s (tasks w) = Some t →
                    Forall (resolved (tasks w)) (dependencies t) → False) →
            ∃ err status w',
              (Return (Some (str_of e), 400), w)
              = (Return (err, status), w')
              ∧ (status = 200 ∨ status = 400)
              ∧ (status = 200 ↔ err = None)
              ∧ (status = 400 → w' = w)
              ∧ (status = 200 ↔
                 ∃ s t, get_or JNull "id" data = JStr s ∧ s ≠ ""
                        ∧ Py.get s (tasks w) = Some t
                        ∧ Forall (resolved (tasks w)) (dependencies t))
              ∧ (status = 200 →
                 ∀ s, get_or JNull "id" data = JStr s →
                      ∃ t, Py.get s (tasks w') = Some t
                           ∧ completed t = true ∧ progress t = 100)) as Hfail.
  { intros e Hnot. eexists _, 400, w. split; [reflexivity|].
    split; [by right|]. split; [done|]. split; [done|]. split; [|done].
    split; [done|]. intros (s & t & ? & ? & ? & ?). by destruct (Hnot s t). }
  destruct (truthy (get_or JNull "id" data)) eqn:Htid; simpl.
  - unfold try_except, complete_task_value.
    destruct (get_or JNull "id" data) as [|b|z|s|l|d] eqn:Hid;
      try (by apply Hfail).
    assert (s ≠ "") as Hs by (intros ->; done).
    destruct (complete_task s w) as [[[]|e] w1] eqn:Hrun.
    + rewrite (bind_run _ _ _ () w1) by done.
      destruct (proj2 (complete_task_run w s) w1 Hrun) as (t & Ht & Hdeps).
      rewrite (proj1 (complete_task_run w s) t Ht Hdeps) in Hrun.
      injection Hrun as <-.
      eexists None, 200, _. split; [reflexivity|].
      split; [by left|]. split; [done|]. split; [done|]. split.
      * split; [|done]. intros _. by exists s, t.
      * intros _ s' [= <-]. cbn [tasks].
        rewrite get_fmap, get_mutate_eq, Ht. eexists. split; [done|].
        by rewrite completed_refresh.
    + rewrite (bind_Raise _ _ _ e w1) by done.
      apply complete_task_Raise in Hrun as Hw. subst w1.
      apply Hfail. intros s' t [= <-] _ Ht Hdeps.
      rewrite (proj1 (complete_task_run w s) t Ht Hdeps) in Hrun. done.
  - eexists _, 400, w. split; [reflexivity|].
    split; [by right|]. split; [done|]. split; [done|]. split; [|done].
    split; [done|]. intros (s & t & Hid & Hs & _). rewrite Hid in Htid.
    by destruct s.
Qed.
End route_complete.
